(** * hera_mc: the hookup resolution engine

    A shallow embedding of the parts of [hera_mc] that resolve a signal-path
    hookup: the topology tables and selector of [cm_sysdef.py], the traversal,
    table annotations and cache check of [cm_hookup.py], the overlap checks of
    [cm_health.py] and the revision queries of [cm_revisions.py].

    Conventions.
    - Python [int]s (GPS seconds) are [Z]; [astropy.time.Time] values are
      compared only through their order and differences, and are represented
      by their number of seconds as [Z], except in the cache check, whose
      floating-point tests on [Time] are kept as an interface
      ([AstroTime]).
    - Python [dict]s keyed by strings are [gmap string _]; lists are lists.
    - A call that can raise returns in [res]; the exception classes are the
      constructors of [exn].
    - Module-level mutable state ([this_hookup_type], [pind]) and the
      attributes of [Hookup] that a method mutates are passed explicitly. *)

From Stdlib Require Import ZArith Lia Ascii.
From stdpp Require Import gmap strings list fin_maps sorting.

Local Open Scope Z_scope.

(** ** Exceptions and fallible results *)

Inductive exn : Type :=
| KeyError
| IndexError
| NameError
| TypeError
| ValueError
| UnboundLocalError
| AttributeError
| OSError (errno : Z).

Inductive res (A : Type) : Type :=
| Ok (a : A)
| Raise (e : exn).

Arguments Ok {A} a.
Arguments Raise {A} e.

Definition bind {A B : Type} (m : res A) (k : A -> res B) : res B :=
  match m with
  | Ok a => k a
  | Raise e => Raise e
  end.

Notation "'let*' x ':=' m 'in' k" := (bind m (fun x => k))
  (at level 10, x name, m at level 100, k at level 200).

(** A [for] loop over a list whose body may raise: the accumulator is threaded
    from left to right and the first exception ends the loop. *)
Fixpoint for_each {A B : Type} (body : B -> A -> res B) (l : list A) (acc : B)
  : res B :=
  match l with
  | [] => Ok acc
  | x :: rest => let* acc' := body acc x in for_each body rest acc'
  end.

(** [d[k]] on a dictionary. *)
Definition dict_get {V : Type} (d : gmap string V) (k : string) : res V :=
  match d !! k with
  | Some v => Ok v
  | None => Raise KeyError
  end.

(** [l[i]] for a non-negative index. *)
Definition list_get {V : Type} (l : list V) (i : nat) : res V :=
  match l !! i with
  | Some v => Ok v
  | None => Raise IndexError
  end.

(** ** Connection records ([part_connect.Connections])

    The six-part identity of a connection and its start and stop GPS times;
    [stop_gpstime] is [None] for a connection that is still open. *)

Record Connection : Type := mkConnection {
  upstream_part : string;
  up_part_rev : string;
  upstream_output_port : string;
  downstream_part : string;
  down_part_rev : string;
  downstream_input_port : string;
  start_gpstime : Z;
  stop_gpstime : option Z
}.

#[global] Instance Connection_eq_dec : EqDecision Connection.
Proof. solve_decision. Defined.

(** [conn.gps2Time()] fills [start_date] and [stop_date] from the GPS times. *)
Definition start_date (c : Connection) : Z := start_gpstime c.
Definition stop_date (c : Connection) : option Z := stop_gpstime c.

(** ** String helpers: [str.upper], [str.lower], [s[0]], [s[-1]], [s[:n]] *)

Definition ascii_upper (a : ascii) : ascii :=
  let n := nat_of_ascii a in
  if ((97 <=? n) && (n <=? 122))%nat then ascii_of_nat (n - 32) else a.

Definition ascii_lower (a : ascii) : ascii :=
  let n := nat_of_ascii a in
  if ((65 <=? n) && (n <=? 90))%nat then ascii_of_nat (n + 32) else a.

Fixpoint upper (s : string) : string :=
  match s with
  | EmptyString => EmptyString
  | String a rest => String (ascii_upper a) (upper rest)
  end.

Fixpoint lower (s : string) : string :=
  match s with
  | EmptyString => EmptyString
  | String a rest => String (ascii_lower a) (lower rest)
  end.

(** [s[0]] as a one-character string; [IndexError] on the empty string. *)
Definition str_first (s : string) : res string :=
  match s with
  | EmptyString => Raise IndexError
  | String a _ => Ok (String a EmptyString)
  end.

(** [s[-1]] as a one-character string; [IndexError] on the empty string. *)
Fixpoint str_last (s : string) : res string :=
  match s with
  | EmptyString => Raise IndexError
  | String a EmptyString => Ok (String a EmptyString)
  | String _ rest => str_last rest
  end.

(** [s[:n]]: slicing never raises. *)
Fixpoint str_take (n : nat) (s : string) : string :=
  match n, s with
  | O, _ => EmptyString
  | S _, EmptyString => EmptyString
  | S n', String a rest => String a (str_take n' rest)
  end.

(** ** The hookup dictionary ([cm_hookup.py])

    [Hookup.__get_empty_hookup_dict] gives the shape: every entry but
    ['columns'] is a dictionary keyed by part key ([hpn:rev]) and then by
    polarization.  ['parts_epoch'] starts as the empty dictionary and is later
    replaced by [{'epoch': .., 'path': ..}], both of which can be [None]. *)

Record PartsEpoch : Type := mkPartsEpoch {
  epoch : option string;
  path : option (list string)
}.

Record HookupDict : Type := mkHookupDict {
  hookup : gmap string (gmap string (list Connection));
  fully_connected : gmap string (gmap string bool);
  parts_epoch : option PartsEpoch;
  columns : list string;
  timing : gmap string (gmap string (Z * option Z));
  levels : gmap string (gmap string string)
}.

Definition get_empty_hookup_dict : HookupDict :=
  {| hookup := ∅; fully_connected := ∅; parts_epoch := None;
     columns := []; timing := ∅; levels := ∅ |}.

(** [d[akey][pkey]] read as an option. *)
Definition lookup2 {V : Type} (d : gmap string (gmap string V))
  (akey pkey : string) : option V :=
  d !! akey ≫= fun inner => inner !! pkey.

(** *** [is_fully_connected] *)

(** The body of the inner loop: count the entry, and count it as fully
    connected when [akey] is a key of ['fully_connected'] and the flag stored
    under [pkey] is true.  The subscript [[akey][pkey]] raises [KeyError] when
    [pkey] is missing. *)
Definition count_pol (fc : gmap string (gmap string bool)) (akey : string)
  (acc : nat * nat) (item : string * list Connection) : res (nat * nat) :=
  let '(num_fully_connected, num_in_dict) := acc in
  let num_in_dict := S num_in_dict in
  match fc !! akey with
  | None => Ok (num_fully_connected, num_in_dict)
  | Some flags =>
      match flags !! item.1 with
      | None => Raise KeyError
      | Some true => Ok (S num_fully_connected, num_in_dict)
      | Some false => Ok (num_fully_connected, num_in_dict)
      end
  end.

Definition count_part (fc : gmap string (gmap string bool))
  (acc : nat * nat) (item : string * gmap string (list Connection))
  : res (nat * nat) :=
  for_each (count_pol fc item.1) (map_to_list item.2) acc.

Definition is_fully_connected (hookup_dict : HookupDict) (any_or_all : string)
  : res bool :=
  let* counts := for_each (count_part (fully_connected hookup_dict))
             (map_to_list (hookup hookup_dict)) (0%nat, 0%nat) in
  let '(num_fully_connected, num_in_dict) := counts in
  if String.eqb any_or_all "all"
  then Ok (Nat.eqb num_fully_connected num_in_dict)
  else Ok (Nat.ltb 0 num_fully_connected).

(** *** [Hookup.__add_hookup_timing_and_flags] *)

(** The loop over the connections of one chain, with its two running
    variables. *)
Fixpoint timing_loop (pol : list Connection) (latest_start : Z)
  (earliest_stop : option Z) : Z * option Z :=
  match pol with
  | [] => (latest_start, earliest_stop)
  | c :: rest =>
      let latest_start :=
        if start_gpstime c >? latest_start then start_gpstime c
        else latest_start in
      let earliest_stop :=
        match stop_gpstime c, earliest_stop with
        | None, _ => earliest_stop
        | Some s, None => Some s
        | Some s, Some e => if s <? e then Some s else Some e
        end in
      timing_loop rest latest_start earliest_stop
  end.

Definition hookup_timing (pol : list Connection) : Z * option Z :=
  timing_loop pol 0 None.

(** [len(hookup_dict['parts_epoch']['path']) - 1]: the subscript raises
    [KeyError] on the empty dictionary and [len(None)] raises [TypeError]. *)
Definition full_hookup_length (hookup_dict : HookupDict) : res Z :=
  match parts_epoch hookup_dict with
  | None => Raise KeyError
  | Some pe =>
      match path pe with
      | None => Raise TypeError
      | Some p => Ok (Z.of_nat (length p) - 1)
      end
  end.

(** The two nested loops fill ['timing'] and ['fully_connected'] under exactly
    the keys of ['hookup'], which is a map over both levels of keys. *)
Definition add_hookup_timing_and_flags (hookup_dict : HookupDict)
  : res HookupDict :=
  let* full := full_hookup_length hookup_dict in
  Ok {| hookup := hookup hookup_dict;
        fully_connected :=
          fmap (M := gmap string)
            (fmap (M := gmap string)
               (fun pol : list Connection => Z.eqb (Z.of_nat (length pol)) full))
            (hookup hookup_dict);
        parts_epoch := parts_epoch hookup_dict;
        columns := columns hookup_dict ++ ["start"; "stop"];
        timing :=
          fmap (M := gmap string) (fmap (M := gmap string) hookup_timing)
            (hookup hookup_dict);
        levels := levels hookup_dict |}.

(** *** [Hookup.__get_column_headers]

    [PC.full_connection_path] lives in [part_connect], which is not part of
    this development; it is passed as the list of its items in iteration
    order.  [is_this_one] is [False] or an epoch name, and [not is_this_one]
    also holds for the empty name. *)

Definition all_in (part_types_found ref : list string) : bool :=
  forallb (fun pt => bool_decide (pt ∈ ref)) part_types_found.

Fixpoint find_epoch (fcp : list (string * list string))
  (part_types_found : list string) : option (string * list string) :=
  match fcp with
  | [] => None
  | (sp, p) :: rest =>
      if all_in part_types_found p then Some (sp, p)
      else find_epoch rest part_types_found
  end.

Definition get_column_headers (fcp : list (string * list string))
  (part_types_found : list string) : list string * option PartsEpoch :=
  match part_types_found with
  | [] => ([], None)
  | _ =>
      match find_epoch fcp part_types_found with
      | Some (sp, p) =>
          if String.eqb sp "" then
            ([], Some {| epoch := None; path := None |})
          else
            (List.filter (fun c => bool_decide (c ∈ part_types_found)) p,
             Some {| epoch := Some sp; path := Some p |})
      | None => ([], Some {| epoch := None; path := None |})
      end
  end.

(** *** The cache check: [Hookup.__check_hookup_cache_file] and
    [Hookup.__set_hookup_cache]

    The check compares [astropy.time.Time] values, whose arithmetic is
    floating point.  The three tests it uses are therefore an interface of
    the time type and are taken as [astropy] evaluates them, not computed on
    exact numbers: [t1 < t2], [t1 > t2] and
    [abs(t1 - t2) < TimeDelta(60.0 * minutes, format='sec')]. *)

Class AstroTime (Time : Type) : Type := mkAstroTime {
  time_lt : Time -> Time -> bool;
  time_gt : Time -> Time -> bool;
  time_within : Time -> Time -> Z -> bool
}.

(** What [os.stat] gives: the [OSError] of the failed call, or the
    modification time of the file as [Time(stats.st_mtime, format='unix')]. *)
Inductive StatResult (Time : Type) : Type :=
| StatError (errno : Z)
| StatOk (st_mtime : Time).

Arguments StatError {Time} errno.
Arguments StatOk {Time} st_mtime.

(** [Time(result[-1].update_time, format='gps')] for the rows of [CMVersion]
    ordered by [update_time]. *)
Definition latest_update_time {Time : Type} (result : list Time) : res Time :=
  match last result with
  | None => Raise IndexError
  | Some t => Ok t
  end.

(** Besides the outcome of [os.stat], the check depends on two more
    operations that can raise: the query of the [CMVersion] table, given by
    [cm_versions] as the [update_time]s in the order of the query or the
    exception of the query, and opening the cache file and loading the as-of
    date stored first in it, given by [load_at_date].  The file is opened
    only after the comparison of its modification time with the change
    marker.  [contemporaneous_minutes] defaults to 5. *)
Definition check_hookup_cache_file {Time : Type} {AT : AstroTime Time}
  (stat : StatResult Time) (cm_versions : res (list Time))
  (load_at_date : res Time) (at_date : Time) (contemporaneous_minutes : Z)
  : res bool :=
  match stat with
  | StatError errno =>
      if errno =? 2 then Ok false else Raise (OSError errno)
  | StatOk file_mod_time =>
      let* result := cm_versions in
      let* cm_hash_time := latest_update_time result in
      if time_lt file_mod_time cm_hash_time then Ok false
      else
        let* cached_at_date := load_at_date in
        if time_gt cached_at_date cm_hash_time && time_gt at_date cm_hash_time
        then Ok true
        else if time_within cached_at_date at_date contemporaneous_minutes
        then Ok true
        else Ok false
  end.

Definition default_contemporaneous_minutes : Z := 5.

(** What [__set_hookup_cache] does with the cached table: compute it anew
    from the database and write the file, read the file, or keep the table
    that is already in memory. *)
Inductive CacheAction : Type :=
| Recompute
| ReadFromFile
| KeepInMemory.

(** The first branch of [__set_hookup_cache]: [get_hookup] is the outcome of
    the call of [__get_hookup] on the list to cache and
    [write_hookup_cache_to_file] that of writing the table; both can raise.
    The result is the branch taken and the table held in [cached_hookup_dict]
    afterwards; the attributes left behind by a call that raises are not
    represented. *)
Definition recompute_hookup_cache (get_hookup : res HookupDict)
  (write_hookup_cache_to_file : HookupDict -> res unit)
  : res (CacheAction * HookupDict) :=
  let* cached_hookup_dict := get_hookup in
  let* _ := write_hookup_cache_to_file cached_hookup_dict in
  Ok (Recompute, cached_hookup_dict).

(** The [elif] branch: the file is read only when no table is in memory, and
    reading can raise. *)
Definition use_hookup_cache (read_hookup_cache_from_file : res HookupDict)
  (cached_hookup_dict : option HookupDict) : res (CacheAction * HookupDict) :=
  match cached_hookup_dict with
  | None =>
      let* from_file := read_hookup_cache_from_file in
      Ok (ReadFromFile, from_file)
  | Some in_memory => Ok (KeepInMemory, in_memory)
  end.

(** [force_new or not self.__check_hookup_cache_file()]: the check is not
    run when [force_new] is set. *)
Definition set_hookup_cache {Time : Type} {AT : AstroTime Time}
  (force_new : bool) (stat : StatResult Time) (cm_versions : res (list Time))
  (load_at_date : res Time) (at_date : Time)
  (get_hookup : res HookupDict)
  (write_hookup_cache_to_file : HookupDict -> res unit)
  (read_hookup_cache_from_file : res HookupDict)
  (cached_hookup_dict : option HookupDict) : res (CacheAction * HookupDict) :=
  let* anew :=
    (if force_new then Ok true
     else
       let* fresh := check_hookup_cache_file stat cm_versions load_at_date
                  at_date default_contemporaneous_minutes in
       Ok (negb fresh)) in
  if anew then recompute_hookup_cache get_hookup write_hookup_cache_to_file
  else use_hookup_cache read_hookup_cache_from_file cached_hookup_dict.

(** Times that are a whole number of seconds on one scale, for the
    scenarios.  On such times the order tests are exact whenever the two
    times differ, and the tolerance test is exact whenever the two dates are
    not exactly the tolerance apart; the scenarios stay away from both
    boundaries. *)
Definition whole_seconds : AstroTime Z :=
  {| time_lt := Z.ltb;
     time_gt := Z.gtb;
     time_within := fun t1 t2 minutes => Z.abs (t1 - t2) <? 60 * minutes |}.

(** ** The system definition ([cm_sysdef.py]) *)

Module cm_sysdef.

(** One entry of [port_def]: the port groups on the upstream and downstream
    side, one group per polarization or a single group, and the position of
    the part type along the signal path.  A port name can be [None]. *)
Record PartTypeInfo : Type := mkInfo {
  up : list (list (option string));
  down : list (list (option string));
  position : Z
}.

Definition ports (l : list string) : list (option string) := Some <$> l.

Definition parts_hera : list (string * PartTypeInfo) :=
  [ ("station", mkInfo [[None]] [ports ["ground"]] 0);
    ("antenna", mkInfo [ports ["ground"]] [ports ["focus"]] 1);
    ("feed", mkInfo [ports ["input"]] [ports ["terminals"]] 2);
    ("front-end", mkInfo [ports ["input"]] [ports ["e"]; ports ["n"]] 3);
    ("cable-rfof",
       mkInfo [ports ["ea"]; ports ["na"]] [ports ["eb"]; ports ["nb"]] 4);
    ("post-amp",
       mkInfo [ports ["ea"]; ports ["na"]] [ports ["eb"]; ports ["nb"]] 5);
    ("snap",
       mkInfo [ports ["e2"; "e6"; "e10"]; ports ["n0"; "n4"; "n8"]]
              [ports ["rack"]] 6);
    ("node", mkInfo [ports ["loc1"; "loc2"; "loc3"; "loc4"]] [[None]] 7) ].

Definition parts_paper : list (string * PartTypeInfo) :=
  [ ("station", mkInfo [[None]] [ports ["ground"]] 0);
    ("antenna", mkInfo [ports ["ground"]] [ports ["focus"]] 1);
    ("feed", mkInfo [ports ["input"]] [ports ["terminals"]] 2);
    ("front-end", mkInfo [ports ["input"]] [ports ["e"]; ports ["n"]] 3);
    ("cable-feed75",
       mkInfo [ports ["ea"]; ports ["na"]] [ports ["eb"]; ports ["nb"]] 4);
    ("cable-post-amp(in)", mkInfo [ports ["a"]] [ports ["b"]] 5);
    ("post-amp",
       mkInfo [ports ["ea"]; ports ["na"]] [ports ["eb"]; ports ["nb"]] 6);
    ("cable-post-amp(out)", mkInfo [ports ["a"]] [ports ["b"]] 7);
    ("cable-receiverator", mkInfo [ports ["a"]] [ports ["b"]] 8);
    ("cable-container", mkInfo [ports ["a"]] [ports ["b"]] 9);
    ("f-engine", mkInfo [ports ["input"]] [[None]] 10) ].

Definition parts_rfi : list (string * PartTypeInfo) :=
  [ ("station", mkInfo [[None]] [ports ["ground"]] 0);
    ("antenna", mkInfo [ports ["ground"]] [ports ["focus"]] 1);
    ("feed", mkInfo [ports ["input"]] [ports ["terminals"]] 2);
    ("temp-cable",
       mkInfo [ports ["ea"]; ports ["na"]] [ports ["eb"]; ports ["nb"]] 3);
    ("snap",
       mkInfo [ports ["e2"; "e6"; "e10"]; ports ["n0"; "n4"; "n8"]]
              [ports ["rack"]] 4);
    ("node", mkInfo [ports ["loc1"; "loc2"; "loc3"; "loc4"]] [[None]] 5) ].

Definition parts_test : list (string * PartTypeInfo) :=
  [ ("vapor", mkInfo [[None]] [[None]] 0) ].

Definition port_def : gmap string (gmap string PartTypeInfo) :=
  list_to_map
    [ ("parts_hera", list_to_map parts_hera);
      ("parts_paper", list_to_map parts_paper);
      ("parts_rfi", list_to_map parts_rfi);
      ("parts_test", list_to_map parts_test) ].

Definition checking_order : list string :=
  ["parts_hera"; "parts_rfi"; "parts_paper"; "parts_test"].

Definition sys_init {V : Type} (husys : list string) (v0 : V)
  : gmap string V :=
  foldl (fun y x => <[x := v0]> y) ∅ husys.

Definition all_pols : gmap string (list string) :=
  <["parts_rfi" := ["e"; "n"]]>
    (<["parts_paper" := ["e"; "n"]]>
       (<["parts_hera" := ["e"; "n"]]> (sys_init checking_order []))).

Definition single_pol_labeled_parts : gmap string (list string) :=
  <["parts_paper" :=
      ["cable-post-amp(in)"; "cable-post-amp(out)"; "cable-receiverator"]]>
    (sys_init checking_order []).

(** [full_connection_path]: per hookup type, the part types in the order of
    their positions. *)
Definition ordered_path (defs : gmap string PartTypeInfo) : gmap Z string :=
  foldl (fun op kv => <[position kv.2 := kv.1]> op) ∅ (map_to_list defs).

Definition path_of (defs : gmap string PartTypeInfo) : list string :=
  let op := ordered_path defs in
  let sorted_keys := merge_sort Z.le (fst <$> map_to_list op) in
  omap (fun k => op !! k) sorted_keys.

Definition full_connection_path : gmap string (list string) :=
  path_of <$> port_def.

(** The module-level names that [next_connection] reads.  The tables are
    constants of the module; [this_hookup_type] and [pind] are set by
    [setup]. *)
Record Globals : Type := mkGlobals {
  g_port_def : gmap string (gmap string PartTypeInfo);
  g_full_connection_path : gmap string (list string);
  g_single_pol_labeled_parts : gmap string (list string);
  this_hookup_type : option string;
  pind : gmap string nat
}.

(** [pind] after the loop of [setup] over [all_pols[this_hookup_type]]. *)
Definition pind_of (pols : list string) : gmap string nat :=
  (foldl (fun acc p => (<[lower p := acc.2]> acc.1, S acc.2)) (∅, 0%nat)
     pols).1.

(** The globals once [setup] has chosen [hookup_type]. *)
Definition globals_after_setup (hookup_type : string) : Globals :=
  {| g_port_def := port_def;
     g_full_connection_path := full_connection_path;
     g_single_pol_labeled_parts := single_pol_labeled_parts;
     this_hookup_type := Some hookup_type;
     pind := pind_of (default [] (all_pols !! hookup_type)) |}.

Inductive Direction : Type := Up | Down.

#[global] Instance Direction_eq_dec : EqDecision Direction.
Proof. solve_decision. Defined.

Inductive Put : Type := In_ | Out_.

(** The four dictionaries of [_D]. *)
Definition D_port (d : Direction) : Put :=
  match d with Up => Out_ | Down => In_ end.
Definition D_this (d : Direction) : Direction :=
  match d with Up => Down | Down => Up end.
Definition D_next (d : Direction) : Direction := d.
Definition D_arrow (d : Direction) : Z :=
  match d with Up => -1 | Down => 1 end.

(** [getattr(opc, '{}stream_{}put_port'.format(stream, put))]: a connection
    has the attributes [upstream_output_port] and [downstream_input_port]. *)
Definition stream_put_port (stream : Direction) (put : Put) (opc : Connection)
  : res string :=
  match stream, put with
  | Up, Out_ => Ok (upstream_output_port opc)
  | Down, In_ => Ok (downstream_input_port opc)
  | _, _ => Raise AttributeError
  end.

(** The part objects [A] and [B[i]]: only [hpn] and [part_type] are read. *)
Record Part : Type := mkPart {
  hpn : string;
  part_type : string
}.

(** [current]: the direction of the walk, the polarization and the port the
    walk is following. *)
Record Current : Type := mkCurrent {
  direction : Direction;
  pol : string;
  port : string
}.

(** An element of the local list [options]: [Namespace(this, next, option)]. *)
Record Opt : Type := mkOpt {
  opt_this : string;
  opt_next : string;
  opt_option : Connection
}.

(** [d[this_hookup_type]]: before [setup], [this_hookup_type] is [None],
    which is a key of none of the tables. *)
Definition by_hookup_type {V : Type} (g : Globals) (d : gmap string V)
  : res V :=
  match this_hookup_type g with
  | Some ht => dict_get d ht
  | None => Raise KeyError
  end.

(** [info[side]] for [side] one of ['up'] and ['down']. *)
Definition side_ports (info : PartTypeInfo) (side : Direction)
  : list (list (option string)) :=
  match side with Up => up info | Down => down info end.

(** [part.hpn[-1].lower() if part_type in single_pol_labeled_parts[...]
    else ''] *)
Definition prefix_of (single : list string) (part_type_name : string)
  (part_hpn : string) : res string :=
  if bool_decide (part_type_name ∈ single)
  then let* c := str_last part_hpn in Ok (lower c)
  else Ok "".

(** The outcome of the [for] loop over [connection_options]: it returns a
    connection from inside the loop, or it ends with the list [options]. *)
Inductive LoopOutcome : Type :=
| Returned (opc : Connection)
| Collected (options : list Opt).

Section Loop.
Variable single : list string.
Variable current : Current.
Variable B : list Part.
Variable next_part_type : string.
Variable len_connection_options : nat.
Variable len_next_side : nat.
Variable prefix_this : string.

Fixpoint options_loop (i : nat) (connection_options : list Connection)
  (options : list Opt) : res LoopOutcome :=
  match connection_options with
  | [] => Ok (Collected options)
  | opc :: rest =>
      let* Bi := list_get B i in
      if negb (String.eqb (part_type Bi) next_part_type)
      then options_loop (S i) rest options
      else
        let* prefix_next := prefix_of single next_part_type (hpn Bi) in
        if (len_connection_options =? 1)%nat || (len_next_side =? 1)%nat
        then Ok (Returned opc)
        else
          let* this_side := stream_put_port (D_this (direction current))
                        (D_port (D_this (direction current))) opc in
          let* next_side := stream_put_port (D_next (direction current))
                        (D_port (D_next (direction current))) opc in
          let this_port := prefix_this +:+ this_side in
          let next_port := prefix_next +:+ next_side in
          let* c0 := str_first next_port in
          if String.eqb c0 "@"
          then options_loop (S i) rest options
          else options_loop (S i) rest
                 (options ++ [mkOpt this_port next_port opc])
      end.
End Loop.

(** [opt.next in allowed_next_ports]; the name is unbound when the next part
    type does not have two port groups on the facing side. *)
Definition next_in_allowed (allowed_next_ports : option (list (option string)))
  (next_port : string) : res bool :=
  match allowed_next_ports with
  | None => Raise UnboundLocalError
  | Some allowed => Ok (bool_decide (Some next_port ∈ allowed))
  end.

(** First pass: the specific port sets. *)
Fixpoint first_pass (current : Current)
  (allowed_next_ports : option (list (option string))) (options : list Opt)
  : res (option Connection) :=
  match options with
  | [] => Ok None
  | opt :: rest =>
      if String.eqb (port current) (opt_this opt)
      then
        let* ok := next_in_allowed allowed_next_ports (opt_next opt) in
        if ok then Ok (Some (opt_option opt))
        else first_pass current allowed_next_ports rest
      else first_pass current allowed_next_ports rest
  end.

(** Second pass: the leading polarization character. *)
Fixpoint second_pass (current : Current)
  (allowed_next_ports : option (list (option string))) (options : list Opt)
  : res (option Connection) :=
  match options with
  | [] => Ok None
  | opt :: rest =>
      let* p0 := str_first (pol current) in
      let* t0 := str_first (opt_this opt) in
      if String.eqb p0 t0
      then
        let* ok := next_in_allowed allowed_next_ports (opt_next opt) in
        if ok then Ok (Some (opt_option opt))
        else second_pass current allowed_next_ports rest
      else second_pass current allowed_next_ports rest
  end.

(** [next_connection(connection_options, current, A, B)]; the result is
    [None] or one of the options. *)
Definition next_connection (g : Globals) (connection_options : list Connection)
  (current : Current) (A : Part) (B : list Part) : res (option Connection) :=
  let* defs := by_hookup_type g (g_port_def g) in
  let* this_part_type_info := dict_get defs (part_type A) in
  let next_part_position :=
    position this_part_type_info + D_arrow (direction current) in
  let* full_path := by_hookup_type g (g_full_connection_path g) in
  if (next_part_position <? 0)
     || (next_part_position >? Z.of_nat (length full_path) - 1)
  then Ok None
  else
    let* next_part_type := list_get full_path (Z.to_nat next_part_position) in
    let* next_part_type_info := dict_get defs next_part_type in
    let next_side := side_ports next_part_type_info (D_this (direction current)) in
    let* allowed_next_ports :=
      (if (length next_side =? 2)%nat
       then
         let* i := dict_get (pind g) (pol current) in
         let* allowed := list_get next_side i in
         Ok (Some allowed)
       else Ok None) in
    let* single := by_hookup_type g (g_single_pol_labeled_parts g) in
    let* prefix_this := prefix_of single (part_type A) (hpn A) in
    let* outcome := options_loop single current B next_part_type
                (length connection_options) (length next_side) prefix_this
                0%nat connection_options [] in
    match outcome with
    | Returned opc => Ok (Some opc)
    | Collected options =>
        let* r := first_pass current allowed_next_ports options in
        match r with
        | Some opc => Ok (Some opc)
        | None => second_pass current allowed_next_ports options
        end
    end.

(** [find_hookup_type(part_type, hookup_type)].  A hookup type that is a key
    of [port_def] is returned as it is; with [None] the hookup types of
    [checking_order] are tried in order; anything else raises [ValueError].
    The tables are passed as for [next_connection]. *)
Fixpoint find_in_order (pd : gmap string (gmap string PartTypeInfo))
  (part_type_name : string) (order : list string) : res (option string) :=
  match order with
  | [] => Ok None
  | hookup_type :: rest =>
      let* defs := dict_get pd hookup_type in
      match defs !! part_type_name with
      | Some _ => Ok (Some hookup_type)
      | None => find_in_order pd part_type_name rest
      end
  end.

Definition find_hookup_type (pd : gmap string (gmap string PartTypeInfo))
  (order : list string) (part_type_name : string)
  (hookup_type : option string) : res string :=
  match hookup_type with
  | Some ht =>
      match pd !! ht with
      | Some _ => Ok ht
      | None => Raise ValueError
      end
  | None =>
      let* found := find_in_order pd part_type_name order in
      match found with
      | Some ht => Ok ht
      | None => Raise ValueError
      end
  end.

(** The part dossier [setup] reads: the part and the ports of its
    connections ([part.connections.input_ports] and [.output_ports]). *)
Record PartDossier : Type := mkPartDossier {
  d_part : Part;
  input_ports : list string;
  output_ports : list string
}.

(** What [setup] returns: a list of polarizations or ports, [None], or the
    port query itself (a string). *)
Inductive SetupResult : Type :=
| PolList (pols : list string)
| NoPols
| PolString (port_query : string).

(** The loop [for i, _p in enumerate(...): pind[_p] = i] on the existing
    dictionary [pind]. *)
Definition pind_update (pind0 : gmap string nat) (pols : list string)
  : gmap string nat :=
  (foldl (fun acc p => (<[lower p := acc.2]> acc.1, S acc.2)) (pind0, 0%nat)
     pols).1.

(** [consolidated_ports[dir]]: the port groups of one side, concatenated. *)
Definition consolidated (groups : list (list (option string)))
  : list (option string) :=
  concat groups.

Definition empty_catalog : gmap string (list string) :=
  {[ "e" := []; "n" := []; "a" := []; "o" := [] ]}.

(** [catalog[key].append(cp)] *)
Definition catalog_append (catalog : gmap string (list string))
  (key cp : string) : res (gmap string (list string)) :=
  let* l := dict_get catalog key in
  Ok (<[key := l ++ [cp]]> catalog).

(** The body of the loop over the connected ports of one side. *)
Definition catalog_step (all_pols_lo : list string)
  (consolidated_ports : list (option string))
  (catalog : gmap string (list string)) (cp : string)
  : res (gmap string (list string)) :=
  let cp := lower cp in
  if negb (bool_decide (Some cp ∈ consolidated_ports)) then Ok catalog
  else
    let* c0 := str_first cp in
    let cp_poldes := if bool_decide (c0 ∈ all_pols_lo) then c0 else "o" in
    let* catalog :=
      (if bool_decide (cp_poldes ∈ all_pols_lo)
       then catalog_append catalog "a" cp
       else Ok catalog) in
    catalog_append catalog cp_poldes cp.

(** [setup(part, port_query, hookup_type)]: the globals after the call and
    what the call returns or raises.  [all_pols_table] is the module's
    [all_pols] and [order] its [checking_order]. *)
Definition setup (g : Globals) (all_pols_table : gmap string (list string))
  (order : list string) (part : PartDossier) (port_query : string)
  (hookup_type : option string) : Globals * res SetupResult :=
  match
    (match hookup_type with
     | None => find_hookup_type (g_port_def g) order (part_type (d_part part)) None
     | Some ht => Ok ht
     end)
  with
  | Raise e => (g, Raise e)
  | Ok ht =>
      match all_pols_table !! ht with
      | None =>
          (mkGlobals (g_port_def g) (g_full_connection_path g)
             (g_single_pol_labeled_parts g) (Some ht) (pind g),
           Raise KeyError)
      | Some pols =>
          let g' :=
            mkGlobals (g_port_def g) (g_full_connection_path g)
              (g_single_pol_labeled_parts g) (Some ht)
              (pind_update (pind g) pols) in
          let all_pols_lo := lower <$> pols in
          let port_query := lower port_query in
          (g',
           if negb (bool_decide (port_query ∈ all_pols_lo ++ ["all"]))
           then Raise ValueError
           else
             let* single := dict_get (g_single_pol_labeled_parts g') ht in
             if bool_decide (part_type (d_part part) ∈ single) then
               let* c := str_last (hpn (d_part part)) in
               let en_part_pol := lower c in
               if String.eqb port_query "all"
                  || String.eqb en_part_pol port_query
               then Ok (PolList [en_part_pol])
               else Ok NoPols
             else
               let* defs := dict_get (g_port_def g') ht in
               let* info := dict_get defs (part_type (d_part part)) in
               let* cat_up :=
                 for_each (catalog_step all_pols_lo (consolidated (up info)))
                   (input_ports part) empty_catalog in
               let* cat_down :=
                 for_each (catalog_step all_pols_lo (consolidated (down info)))
                   (output_ports part) empty_catalog in
               let* q0 := str_first port_query in
               let* up_ports := dict_get cat_up q0 in
               let* dn_ports := dict_get cat_down q0 in
               if (length up_ports + length dn_ports =? 0)%nat then
                 if String.eqb port_query "all" then Ok (PolList all_pols_lo)
                 else Ok (PolString port_query)
               else if (length dn_ports <? length up_ports)%nat
               then Ok (PolList up_ports)
               else Ok (PolList dn_ports))
      end
  end.


End cm_sysdef.

(** ** [cm_utils]

    Modelled from the spec: [cm_utils._is_active] is called by the traversal
    and by the revision queries but [cm_utils.py] is not part of this
    development.  Section 4.2, step 2: a record is active at the as-of date
    when start <= as-of and (stop is null or stop >= as-of).  The functions
    below take the activity test as a parameter; this definition serves for
    the concrete scenarios. *)
Definition is_active_spec (at_date start : Z) (stop : option Z) : bool :=
  (start <=? at_date)
  && match stop with None => true | Some t => at_date <=? t end.

(** ** The traversal ([cm_hookup.py]) *)

Module cm_hookup.

Section Traversal.
(** [PC.both_pols], [cm_utils._is_active], the rows of the connections
    table in the order the query yields them, and [self.at_date]. *)
Variable both_pols : list string.
Variable is_active : Z -> Z -> option Z -> bool.
Variable session : list Connection.
Variable at_date : Z.

(** [Hookup.__check_next_port] *)
Definition check_next_port (next_part option_port pol : string)
  (lenopt : nat) : res bool :=
  if (lenopt =? 1)%nat then
    if String.eqb (upper (str_take 3 next_part)) "PAM" then
      let* c0 := str_first option_port in
      if negb (String.eqb (lower c0) (lower pol)) then Ok false
      else Ok true
    else Ok true
  else if bool_decide (lower pol ∈ both_pols) then
    let* p :=
      (if bool_decide (lower option_port ∈ ["a"; "b"])
       then let* c := str_last next_part in Ok (lower c)
       else
         let* c0 := str_first option_port in
         if bool_decide (lower c0 ∈ both_pols) then Ok (lower c0)
         else Ok pol) in
    Ok (String.eqb p pol)
  else Raise ValueError.

(** The two queries of [__get_next_connection], each followed by the
    activity filter. *)
Definition options_up (part rev : string) : list Connection :=
  List.filter
    (fun conn =>
       String.eqb (upper (downstream_part conn)) (upper part)
       && String.eqb (upper (down_part_rev conn)) (upper rev)
       && is_active at_date (start_date conn) (stop_date conn))
    session.

Definition options_down (part rev : string) : list Connection :=
  List.filter
    (fun conn =>
       String.eqb (upper (upstream_part conn)) (upper part)
       && String.eqb (upper (up_part_rev conn)) (upper rev)
       && is_active at_date (start_date conn) (stop_date conn))
    session.

(** The check of one option in the given direction. *)
Definition check_option (direction pol : string) (lenopt : nat)
  (opc : Connection) : res bool :=
  if String.eqb (lower direction) "up"
  then check_next_port (upstream_part opc) (upstream_output_port opc) pol
         lenopt
  else check_next_port (downstream_part opc) (downstream_input_port opc) pol
         lenopt.

(** The [for ... break] loop over several options. *)
Fixpoint first_passing (direction pol : string) (lenopt : nat)
  (options : list Connection) : res (option Connection) :=
  match options with
  | [] => Ok None
  | opc :: rest =>
      let* ok := check_option direction pol lenopt opc in
      if ok then Ok (Some opc)
      else first_passing direction pol lenopt rest
  end.

(** [Hookup.__get_next_connection] *)
Definition get_next_connection (direction part rev pol : string)
  : res (option Connection) :=
  let options :=
    if String.eqb (lower direction) "up" then options_up part rev
    else if String.eqb (lower direction) "down" then options_down part rev
    else [] in
  match options with
  | [] => Ok None
  | [opc] =>
      let* ok := check_option direction pol (length options) opc in
      if ok then Ok (Some opc) else Ok None
  | _ => first_passing direction pol (length options) options
  end.

(** The two lists a walk appends to: [self.upstream], [self.downstream]. *)
Record Legs : Type := mkLegs {
  upstream : list Connection;
  downstream : list Connection
}.

(** [Hookup.__recursive_go].  The recursion of the source has no measure;
    [fuel] bounds the number of nested calls, and [None] means that the
    call at depth [fuel] was still going on. *)
Fixpoint recursive_go (fuel : nat) (direction part rev pol : string)
  (legs : Legs) : option (res Legs) :=
  match fuel with
  | O => None
  | S fuel' =>
      match get_next_connection direction part rev pol with
      | Raise e => Some (Raise e)
      | Ok None => Some (Ok legs)
      | Ok (Some conn) =>
          if String.eqb direction "up"
          then recursive_go fuel' direction (upstream_part conn)
                 (up_part_rev conn) pol
                 (mkLegs (upstream legs ++ [conn]) (downstream legs))
          else recursive_go fuel' direction (downstream_part conn)
                 (down_part_rev conn) pol
                 (mkLegs (upstream legs) (downstream legs ++ [conn]))
      end
  end.

(** [Hookup.__follow_hookup_stream] *)
Definition follow_hookup_stream (fuel : nat) (part rev pol : string)
  : option (res (list Connection)) :=
  match recursive_go fuel "up" part rev pol (mkLegs [] []) with
  | None => None
  | Some (Raise e) => Some (Raise e)
  | Some (Ok legs1) =>
      match recursive_go fuel "down" part rev pol legs1 with
      | None => None
      | Some (Raise e) => Some (Raise e)
      | Some (Ok legs2) =>
          Some (Ok (reverse (upstream legs2) ++ downstream legs2))
      end
  end.

(** The part types along a chain as [__get_part_types_found] reads them:
    the upstream part of every connection, then the downstream part of the
    last one.  [part_type_for] stands for [handling.get_part_type_for]
    followed by [lower]. *)
Definition chain_part_types (part_type_for : string -> string)
  (huco : list Connection) : list string :=
  match last huco with
  | None => []
  | Some c_last =>
      (part_type_for ∘ upstream_part <$> huco)
        ++ [part_type_for (downstream_part c_last)]
  end.
End Traversal.

Section Tables.
(** [PC.both_pols] and [self.handling.get_part_type_for]. *)
Variable both_pols : list string.
Variable get_part_type_for : string -> string.

(** [Hookup.__get_pols_to_do], on [part['part'].hpn]. *)
Definition get_pols_to_do (part_hpn port_query : string) : res (list string) :=
  let single_pol_parts_paper := ["RI"; "RO"; "CR"] in
  let port_query := lower port_query in
  if String.eqb port_query "all" then
    if bool_decide (upper (str_take 2 part_hpn) ∈ single_pol_parts_paper)
    then let* c := str_last part_hpn in Ok [lower c]
    else Ok both_pols
  else if bool_decide (port_query ∈ both_pols) then Ok [port_query]
  else Raise ValueError.

(** One round of [__get_part_types_found]: the part type of [part_name] is
    cached and appended to the list when it is not there yet. *)
Definition note_part_type
  (acc : gmap string string * list string) (part_name : string)
  : gmap string string * list string :=
  let part_type_name := lower (get_part_type_for part_name) in
  (<[part_name := part_type_name]> acc.1,
   if bool_decide (part_type_name ∈ acc.2) then acc.2
   else acc.2 ++ [part_type_name]).

(** [Hookup.__get_part_types_found]: [self.part_type_cache] and the list
    after the call. *)
Definition get_part_types_found (part_type_cache : gmap string string)
  (huco : list Connection) (part_types_found : list string)
  : gmap string string * list string :=
  match last huco with
  | None => (part_type_cache, part_types_found)
  | Some c_last =>
      note_part_type
        (foldl (fun acc c => note_part_type acc (upstream_part c))
           (part_type_cache, part_types_found) huco)
        (downstream_part c_last)
  end.
End Tables.


End cm_hookup.

(** ** Revisions ([cm_revisions.py])

    A revision as the [Namespace(hpn, rev, started, ended)] the queries
    build; [ended] is [None] for an open revision. *)

Record Revision : Type := mkRevision {
  r_hpn : string;
  rev : string;
  started : Z;
  ended : option Z
}.

#[global] Instance Revision_eq_dec : EqDecision Revision.
Proof. solve_decision. Defined.

Module cm_revisions.

(** [part_connect.get_part_revisions(hpn, session)] returns a dictionary
    keyed by revision with its ['started'] and ['ended'] dates; it is the
    argument [revisions] below. *)

(** [sorted(revisions.keys())] *)
Definition sorted_keys {V : Type} (revisions : gmap string V) : list string :=
  merge_sort String.le (fst <$> map_to_list revisions).

(** [get_all_revisions] *)
Definition get_all_revisions (hpn : string)
  (revisions : gmap string (Z * option Z)) : list Revision :=
  omap (fun r => (fun se => mkRevision hpn r se.1 se.2) <$> revisions !! r)
       (sorted_keys revisions).

Section Active.
Variable is_active : Z -> Z -> option Z -> bool.

(** The loop of [get_active_revision] over the sorted keys. *)
Definition active_revisions (hpn : string) (at_date : Z)
  (revisions : gmap string (Z * option Z)) : list Revision :=
  List.filter (fun r => is_active at_date (started r) (ended r))
    (get_all_revisions hpn revisions).

(** [get_active_revision].  With more than one active revision the
    function evaluates [warning.warn(s)]; the module imports [warnings] and
    binds no name [warning], so that evaluation raises [NameError]. *)
Definition get_active_revision (hpn : string) (at_date : Z)
  (revisions : gmap string (Z * option Z)) : res (list Revision) :=
  let return_active := active_revisions hpn at_date revisions in
  if (1 <? length return_active)%nat then Raise NameError
  else Ok return_active.
End Active.

(** [get_last_revision] reports the same kind of anomaly (several open
    revisions) with [warnings.warn] and goes on; its result is the list
    together with the warnings issued.  [far_past] and [far_future] are
    [cm_utils._get_astropytime('<')] and [('>')]. *)
Section Last.
Variables far_past far_future : Z.

Definition last_step (hpn : string) (revisions : gmap string (Z * option Z))
  (acc : Z * list Revision * option string) (r : string)
  : Z * list Revision * option string :=
  let '(latest_end, no_end, latest_rev) := acc in
  match revisions !! r with
  | None => acc
  | Some (s, None) =>
      (far_future, no_end ++ [mkRevision hpn r s None], latest_rev)
  | Some (s, Some end_date) =>
      if end_date >? latest_end then (end_date, no_end, Some r)
      else acc
  end.

Definition get_last_revision (hpn : string)
  (revisions : gmap string (Z * option Z))
  : res (list Revision * list string) :=
  let keys := fst <$> map_to_list revisions in
  match keys with
  | [] => Ok ([], [])
  | _ =>
      let '(_, no_end, latest_rev) :=
        foldl (last_step hpn revisions) (far_past, [], None) keys in
      if (0 <? length no_end)%nat then
        if (1 <? length no_end)%nat then
          Ok (no_end,
              ["Warning:  " +:+ hpn
               +:+ " has multiple open revisions.  Returning all open."])
        else Ok (no_end, [])
      else
        match latest_rev with
        | None => Raise UnboundLocalError
        | Some r =>
            match revisions !! r with
            | Some (s, e) => Ok ([mkRevision hpn r s e], [])
            | None => Raise KeyError
            end
        end
  end.
End Last.

(** [check_part_for_overlapping_revisions] of [cm_revisions].  The loop
    replaces the [ended] of a revision in place, so the list is threaded
    through the iterations and the pairs are kept as indices into it.
    [far_future] is [cm_utils._get_astropytime('>')]. *)
Section Overlap.
Variable far_future : Z.

Definition overlap_step (i j : nat)
  (acc : list Revision * list (nat * nat))
  : res (list Revision * list (nat * nat)) :=
  let '(revisions, overlap) := acc in
  if (j <=? i)%nat then Ok acc
  else
    let* r1 := list_get revisions i in
    let* r2 := list_get revisions j in
    let first_one := if started r1 <=? started r2 then i else j in
    let second_one := if started r1 >? started r2 then i else j in
    let* f := list_get revisions first_one in
    let revisions :=
      match ended f with
      | None =>
          <[first_one := mkRevision (r_hpn f) (rev f) (started f)
                           (Some far_future)]> revisions
      | Some _ => revisions
      end in
    let* f := list_get revisions first_one in
    let* s := list_get revisions second_one in
    match ended f with
    | None => Raise TypeError
    | Some f_ended =>
        if started s >? f_ended then Ok (revisions, overlap ++ [(i, j)])
        else Ok (revisions, overlap)
    end.

Definition overlap_loops (revisions : list Revision)
  : res (list Revision * list (nat * nat)) :=
  for_each
    (fun acc i =>
       for_each (fun acc j => overlap_step i j acc)
         (seq 0 (length revisions)) acc)
    (seq 0 (length revisions)) (revisions, []).

(** With a non-empty [overlap] the function calls
    [show_revisions(overlapping_revs_in_single_list, session)]; the
    function [show_revisions(rev_list)] takes one argument, so the call
    raises [TypeError]. *)
Definition check_part_for_overlapping_revisions (revisions : list Revision)
  : res (list (Revision * Revision)) :=
  let* out := overlap_loops revisions in
  match out.2 with
  | [] => Ok []
  | _ => Raise TypeError
  end.
End Overlap.

(** [get_particular_revision] *)
Definition get_particular_revision (hpn rq : string)
  (revisions : gmap string (Z * option Z)) : list Revision :=
  match revisions !! rq with
  | Some (start_date, end_date) => [mkRevision hpn rq start_date end_date]
  | None => []
  end.


End cm_revisions.

(** ** Health checks ([cm_health.py]) *)

Module cm_health.

(** An interval [[low, high]]; [high] can be [None]. *)
Definition Interval : Type := Z * option Z.

(** [max([x for x in interval[0] + interval[1] if x is not None]) + 100] *)
Definition maxx (i0 i1 : Interval) : Z :=
  let highs := option_list i0.2 ++ option_list i1.2 in
  foldr Z.max (Z.max i0.1 i1.1) highs + 100.

(** [check_for_overlap]: open highs are set to [maxx], then the two strict
    comparisons. *)
Definition check_for_overlap (i0 i1 : Interval) : bool :=
  let m := maxx i0 i1 in
  let h0 := default m i0.2 in
  let h1 := default m i1.2 in
  (h0 >? i1.1) && (h1 >? i0.1).

Section Revisions.
(** [cm_utils.get_stopdate] is not part of this development; it is applied
    to the [ended] of each revision. *)
Variable get_stopdate : option Z -> option Z.

(** The pairs ([revisions[i]], [revisions[j]]) with [j < i], in the order
    of the two nested loops. *)
Fixpoint pairs_below (earlier : list Revision) (rest : list Revision)
  : list (Revision * Revision) :=
  match rest with
  | [] => []
  | ri :: rest' =>
      ((fun rj => (ri, rj)) <$> earlier) ++ pairs_below (earlier ++ [ri]) rest'
  end.

Definition overlapping (p : Revision * Revision) : bool :=
  check_for_overlap (started p.1, get_stopdate (ended p.1))
                    (started p.2, get_stopdate (ended p.2)).

Definition warning_for (hpn : string) (ol : Revision * Revision) : string :=
  rev ol.1 +:+ " and " +:+ rev ol.2
    +:+ " are overlapping revisions of part " +:+ hpn.

(** [check_part_for_overlapping_revisions]: the list [overlap] and the
    warnings issued; [revisions] is [cm_revisions.get_all_revisions(hpn)]. *)
Definition check_part_for_overlapping_revisions (hpn : string)
  (revisions : list Revision)
  : list (Revision * Revision) * list string :=
  let overlap := List.filter overlapping (pairs_below [] revisions) in
  (overlap, warning_for hpn <$> overlap).
End Revisions.

(** *** [Connections]: duplicate and existing connections *)

(** [':'.join(x.lower() for x in fields)] *)
Fixpoint join_lower (fields : list string) : string :=
  match fields with
  | [] => ""
  | [x] => lower x
  | x :: rest => lower x +:+ ":" +:+ join_lower rest
  end.

(** The key of a connection in [conndict]. *)
Definition connection_key (c : Connection) : string :=
  join_lower [upstream_part c; up_part_rev c; upstream_output_port c;
              downstream_part c; down_part_rev c; downstream_input_port c].

(** The attributes [ingest_conndb] fills. *)
Record Ingested : Type := mkIngested {
  conndict : gmap string (list Connection);
  multiples : gset string;
  num_connections : nat
}.

Definition ingest_step (acc : Ingested) (c : Connection) : Ingested :=
  let k := connection_key c in
  {| conndict := <[k := default [] (conndict acc !! k) ++ [c]]> (conndict acc);
     multiples :=
       match conndict acc !! k with
       | Some _ => {[k]} ∪ multiples acc
       | None => multiples acc
       end;
     num_connections := S (num_connections acc) |}.

(** [Connections.ingest_conndb] on the rows of the connections table. *)
Definition ingest_conndb (session : list Connection) : Ingested :=
  foldl ingest_step (mkIngested ∅ ∅ 0) session.

(** The pairs ([l[i]], [l[j]]) with [j < i], in the order of the two nested
    loops over [range(len(l))] and [range(i)]. *)
Fixpoint index_pairs {V : Type} (earlier rest : list V) : list (V * V) :=
  match rest with
  | [] => []
  | x :: rest' =>
      ((fun y => (x, y)) <$> earlier) ++ index_pairs (earlier ++ [x]) rest'
  end.

Definition conns_overlap (p : Connection * Connection) : bool :=
  check_for_overlap (start_gpstime p.1, stop_gpstime p.1)
                    (start_gpstime p.2, stop_gpstime p.2).

(** [Connections.check_for_duplicate_connections]: the list [duplicates].
    The keys of [multiples] are visited in the order [elements] gives. *)
Definition check_for_duplicate_connections (session : list Connection)
  : res (list (Connection * Connection)) :=
  let ing := ingest_conndb session in
  for_each
    (fun duplicates k =>
       let* conns := dict_get (conndict ing) k in
       Ok (duplicates ++ List.filter conns_overlap (index_pairs [] conns)))
    (elements (multiples ing)) [].

(** [Connections.check_for_existing_connection]; [is_active] is
    [cm_utils.is_active] and [connection] the list of the six fields. *)
Definition check_for_existing_connection
  (is_active : Z -> Z -> option Z -> bool) (session : list Connection)
  (connection : list string) (at_date : Z) : bool :=
  let k := join_lower connection in
  match conndict (ingest_conndb session) !! k with
  | None => false
  | Some conns =>
      existsb (fun c => is_active at_date (start_gpstime c) (stop_gpstime c))
        conns
  end.


End cm_health.

(** ** Scenarios

    Concrete data used by the examples below. *)

Definition conn (up_part out_port down_part in_port : string)
  (start : Z) (stop : option Z) : Connection :=
  mkConnection up_part "A" out_port down_part "A" in_port start stop.

(** Section 8, end-to-end scenario: [A1:out1 -> B1:in1 [0,100]] and
    [B1:out1 -> C1:in1 [0, null]]. *)
Definition scenario_chain : list Connection :=
  [conn "A1" "out1" "B1" "in1" 0 (Some 100);
   conn "B1" "out1" "C1" "in1" 0 None].

Definition scenario_dict : HookupDict :=
  {| hookup := {[ "A1:A" := {[ "e" := scenario_chain ]} ]};
     fully_connected := ∅;
     parts_epoch := Some {| epoch := Some "parts_abc";
                            path := Some ["a"; "b"; "c"] |};
     columns := ["a"; "b"; "c"];
     timing := ∅;
     levels := ∅ |}.

(** ** Specification-side definitions *)

(** The window in the spec's words: the latest of the segment start times
    and the earliest of the non-null segment stop times, null when no segment
    has a stop time. *)
Definition latest_start_of (chain : list Connection) (s : Z) : Prop :=
  (exists c, c ∈ chain /\ start_gpstime c = s) /\
  forall c, c ∈ chain -> start_gpstime c <= s.

Definition earliest_stop_of (chain : list Connection) (e : option Z) : Prop :=
  match e with
  | None => forall c, c ∈ chain -> stop_gpstime c = None
  | Some t =>
      (exists c, c ∈ chain /\ stop_gpstime c = Some t) /\
      forall c t', c ∈ chain -> stop_gpstime c = Some t' -> t <= t'
  end.

(** *** The selector in the spec's words

    Section 4.2, steps 4 and 5, read on the data [next_connection] works on:
    a candidate is a connection option paired with its far part [B[i]]. *)

Import cm_sysdef.

(** The first character of a string and its last one, as strings; the empty
    string has neither. *)
Definition first_char (s : string) : string :=
  match s with
  | EmptyString => ""
  | String a _ => String a EmptyString
  end.

Fixpoint last_char (s : string) : string :=
  match s with
  | EmptyString => ""
  | String a EmptyString => String a EmptyString
  | String _ rest => last_char rest
  end.

(** The port of a connection on the side of the current part, and the port
    on the side of the part the walk moves to. *)
Definition this_side_port (d : Direction) (opc : Connection) : string :=
  match d with
  | Up => downstream_input_port opc
  | Down => upstream_output_port opc
  end.

Definition far_side_port (d : Direction) (opc : Connection) : string :=
  match d with
  | Up => upstream_output_port opc
  | Down => downstream_input_port opc
  end.

(** The polarization letter that single-pol-labelled parts carry at the end
    of their name, put in front of their port names. *)
Definition pol_prefix (single : list string) (part_type_name part_hpn : string)
  : string :=
  if bool_decide (part_type_name ∈ single) then lower (last_char part_hpn)
  else "".

Section Selector.
Variable single : list string.
Variable current : Current.
Variable A : Part.
Variable next_part_type : string.
Variable allowed : list (option string).

Definition candidate_opt (cand : Connection * Part) : Opt :=
  {| opt_this :=
       pol_prefix single (part_type A) (hpn A)
         +:+ this_side_port (direction current) cand.1;
     opt_next :=
       pol_prefix single next_part_type (hpn cand.2)
         +:+ far_side_port (direction current) cand.1;
     opt_option := cand.1 |}.

(** The far part has the next part type of the path. *)
Definition of_next_type (cand : Connection * Part) : bool :=
  String.eqb (part_type cand.2) next_part_type.

(** A candidate the two passes look at: its far part has the next part
    type and its far-side port does not begin with ['@']. *)
Definition eligible (cand : Connection * Part) : bool :=
  of_next_type cand
  && negb (String.eqb (first_char (opt_next (candidate_opt cand))) "@").

(** Rule (a): the this-side port is the port being followed and the
    far-side port is an allowed next port. *)
Definition exact_port_match (o : Opt) : bool :=
  String.eqb (port current) (opt_this o)
  && bool_decide (Some (opt_next o) ∈ allowed).

(** Rule (b): the this-side port begins with the polarization character and
    the far-side port is an allowed next port. *)
Definition pol_char_match (o : Opt) : bool :=
  String.eqb (first_char (pol current)) (first_char (opt_this o))
  && bool_decide (Some (opt_next o) ∈ allowed).

Definition two_pass_select (candidates : list (Connection * Part))
  : option Connection :=
  let opts := candidate_opt <$> List.filter eligible candidates in
  match List.find exact_port_match opts with
  | Some o => Some (opt_option o)
  | None => opt_option <$> List.find pol_char_match opts
  end.

(** Without a port check: the first candidate of the next part type. *)
Definition first_of_next_type (candidates : list (Connection * Part))
  : option Connection :=
  fst <$> List.find of_next_type candidates.
End Selector.

(** The pairs ([connection_options[k]], [B[k]]) from index [i] on; the
    candidates of a step are [candidates_from 0]. *)
Definition candidates_from (i : nat) (connection_options : list Connection)
  (B : list Part) : list (Connection * Part) :=
  zip connection_options (drop i B).

(** Well-formed candidates: every far part has a name, and every option has
    a port on the far side and on this side. *)
Definition named (cands : list (Connection * Part)) : Prop :=
  Forall (fun cand => hpn cand.2 <> "") cands.
Definition far_ported (d : Direction) (cands : list (Connection * Part))
  : Prop :=
  Forall (fun cand => far_side_port d cand.1 <> "") cands.
Definition this_ported (d : Direction) (cands : list (Connection * Part))
  : Prop :=
  Forall (fun cand => this_side_port d cand.1 <> "") cands.

(** How [allowed_next_ports] is bound: the facing side [next_side] of the
    next part type has two port groups and the polarization selects one of
    them, or it has another number of groups and the name stays unbound. *)
Definition allowed_bound (g : Globals) (current : Current)
  (next_side : list (list (option string)))
  (allowed : option (list (option string))) : Prop :=
  match allowed with
  | Some ports =>
      length next_side = 2%nat /\
      exists k, pind g !! pol current = Some k /\ next_side !! k = Some ports
  | None => length next_side <> 2%nat
  end.

(** An option the loop returns or collects sits at some index [i + k] of the
    list, and the far part at that index has the next part type. *)
Definition at_next_type (B : list Part) (next_part_type : string) (i : nat)
  (opts : list Connection) (opc : Connection) : Prop :=
  exists k Bk,
    opts !! k = Some opc /\ B !! (i + k)%nat = Some Bk /\
    part_type Bk = next_part_type.

(** *** Scenarios for the traversal and the selector *)

Definition both_pols : list string := ["e"; "n"].

(** Two connections that form a cycle: [X1 -> Y1] and [Y1 -> X1], both
    open-ended. *)
Definition cyclic_session : list Connection :=
  [conn "X1" "e" "Y1" "ea" 0 None;
   conn "Y1" "eb" "X1" "ea" 0 None].

(** A front-end followed by two cables in a row. *)
Definition fe_to_cable : Connection := conn "FE1" "e" "CBL1" "ea" 0 None.
Definition cable_to_cable : Connection := conn "CBL1" "eb" "CBL2" "ea" 0 None.
Definition two_cables_session : list Connection :=
  [fe_to_cable; cable_to_cable].

Definition two_cables_part_type (part : string) : string :=
  if String.eqb part "FE1" then "front-end" else "cable-rfof".

(** A front-end whose only connection goes to the [n] input of a cable. *)
Definition fe_to_n_input : Connection := conn "FE1" "n" "CBL2" "na" 0 None.

(** A station with two connections to antennas through ports that the
    topology does not list. *)
Definition station_options : list Connection :=
  [conn "HH1" "x" "A1" "bogus" 0 None; conn "HH1" "y" "A2" "bogus" 0 None].
Definition station_far_parts : list Part :=
  [mkPart "A1" "antenna"; mkPart "A2" "antenna"].

(** A front-end with its two outputs connected, the [n] one listed first. *)
Definition front_end_options : list Connection :=
  [conn "FE1" "n" "CBL2" "na" 0 None; conn "FE1" "e" "CBL1" "ea" 0 None].
Definition front_end_far_parts : list Part :=
  [mkPart "CBL2" "cable-rfof"; mkPart "CBL1" "cable-rfof"].

(** *** Scenarios for the revisions *)

Definition rev_100_200 : Revision := mkRevision "P" "A" 100 (Some 200).
Definition rev_150_300 : Revision := mkRevision "P" "B" 150 (Some 300).
Definition rev_200_300 : Revision := mkRevision "P" "C" 200 (Some 300).
Definition rev_250_300 : Revision := mkRevision "P" "D" 250 (Some 300).

(** Two revisions of one part that are both open. *)
Definition two_open_revisions : gmap string (Z * option Z) :=
  {[ "A" := (0, None); "B" := (50, None) ]}.

(** The only reason for which [__get_next_connection] turns down a single
    option: the far part is a PAM (its name begins with [PAM]) and the first
    character of the far-side port is not the polarization, compared without
    regard to case. *)
Definition pam_port_mismatch (next_part option_port pol : string) : bool :=
  String.eqb (upper (str_take 3 next_part)) "PAM"
  && negb (String.eqb (lower (first_char option_port)) (lower pol)).

(** ** Hookup entries ([cm_dossier.py]) *)

Module cm_dossier.

(** The attributes of a [HookupEntry] that are keyed on the port, and the two
    tables of its [sysdef] that the methods below read. *)
Record HookupEntry : Type := mkHookupEntry {
  e_hookup : gmap string (list Connection);
  e_fully_connected : gmap string bool;
  e_hookup_type : gmap string (option string);
  e_columns : gmap string (list string);
  e_timing : gmap string (Z * option Z);
  sysdef_checking_order : list string;
  sysdef_full_connection_path : gmap string (list string)
}.

(** The search for the hookup type whose path holds every part type found.
    The inner loop reads [full_connection_path[sp]] once per part type, so a
    missing key raises only when there is a part type to look at.  [False]
    and the empty name both count as "not found". *)
Fixpoint conforming_type (fcp : gmap string (list string))
  (part_types_found : list string) (order : list string)
  : res (option string) :=
  match order with
  | [] => Ok None
  | sp :: rest =>
      match part_types_found with
      | [] => Ok (Some sp)
      | _ =>
          let* p := dict_get fcp sp in
          if forallb (fun pt => bool_decide (pt ∈ p)) part_types_found
          then Ok (Some sp)
          else conforming_type fcp part_types_found rest
      end
  end.

(** [HookupEntry.get_hookup_type_and_column_headers]: the entry after the
    call and whether the call raised. *)
Definition get_hookup_type_and_column_headers (entry : HookupEntry)
  (port : string) (part_types_found : list string)
  : HookupEntry * res unit :=
  let reset :=
    mkHookupEntry (e_hookup entry) (e_fully_connected entry)
      (<[port := None]> (e_hookup_type entry))
      (<[port := []]> (e_columns entry))
      (e_timing entry) (sysdef_checking_order entry)
      (sysdef_full_connection_path entry) in
  match part_types_found with
  | [] => (reset, Ok tt)
  | _ =>
      match conforming_type (sysdef_full_connection_path entry)
              part_types_found (sysdef_checking_order entry) with
      | Raise e => (reset, Raise e)
      | Ok None => (reset, Ok tt)
      | Ok (Some is_this_one) =>
          if String.eqb is_this_one "" then (reset, Ok tt)
          else
            match sysdef_full_connection_path entry !! is_this_one with
            | None =>
                (mkHookupEntry (e_hookup entry) (e_fully_connected entry)
                   (<[port := Some is_this_one]> (e_hookup_type entry))
                   (<[port := []]> (e_columns entry))
                   (e_timing entry) (sysdef_checking_order entry)
                   (sysdef_full_connection_path entry),
                 Raise KeyError)
            | Some p =>
                (mkHookupEntry (e_hookup entry) (e_fully_connected entry)
                   (<[port := Some is_this_one]> (e_hookup_type entry))
                   (<[port :=
                        List.filter
                          (fun c => bool_decide (c ∈ part_types_found)) p]>
                      (e_columns entry))
                   (e_timing entry) (sysdef_checking_order entry)
                   (sysdef_full_connection_path entry),
                 Ok tt)
            end
      end
  end.

(** [full_hookup_length] of [add_timing_and_fully_connected]. *)
Definition entry_full_hookup_length (entry : HookupEntry) (port : string)
  : res Z :=
  let* ht := dict_get (e_hookup_type entry) port in
  match ht with
  | Some name =>
      let* p := dict_get (sysdef_full_connection_path entry) name in
      Ok (Z.of_nat (length p) - 1)
  | None => Ok (-1)
  end.

(** [HookupEntry.add_timing_and_fully_connected]: the entry after the call
    and whether the call raised.  [timing] and [fully_connected] are assigned
    before [columns[port]] is read. *)
Definition add_timing_and_fully_connected (entry : HookupEntry) (port : string)
  : HookupEntry * res unit :=
  match entry_full_hookup_length entry port with
  | Raise e => (entry, Raise e)
  | Ok full_hookup_length =>
      match e_hookup entry !! port with
      | None => (entry, Raise KeyError)
      | Some chain =>
          let timing' := <[port := hookup_timing chain]> (e_timing entry) in
          let fully' :=
            <[port := Z.eqb (Z.of_nat (length chain)) full_hookup_length]>
              (e_fully_connected entry) in
          match e_columns entry !! port with
          | None =>
              (mkHookupEntry (e_hookup entry) fully' (e_hookup_type entry)
                 (e_columns entry) timing' (sysdef_checking_order entry)
                 (sysdef_full_connection_path entry),
               Raise KeyError)
          | Some cols =>
              (mkHookupEntry (e_hookup entry) fully' (e_hookup_type entry)
                 (<[port := cols ++ ["start"; "stop"]]> (e_columns entry))
                 timing' (sysdef_checking_order entry)
                 (sysdef_full_connection_path entry),
               Ok tt)
          end
      end
  end.

End cm_dossier.

(** *** Chains in the spec's words

    A connection leads from its upstream part and revision to its downstream
    part and revision; part names and revisions are compared without regard
    to case, as the queries of the traversal do. *)

Definition same_part (part1 rev1 part2 rev2 : string) : Prop :=
  upper part1 = upper part2 /\ upper rev1 = upper rev2.

(** [l] is a walk downstream that starts at ([part], [rev]). *)
Fixpoint linked_down (part rev : string) (l : list Connection) : Prop :=
  match l with
  | [] => True
  | c :: rest =>
      same_part (upstream_part c) (up_part_rev c) part rev /\
      linked_down (downstream_part c) (down_part_rev c) rest
  end.

(** [l] is a walk upstream that starts at ([part], [rev]). *)
Fixpoint linked_up (part rev : string) (l : list Connection) : Prop :=
  match l with
  | [] => True
  | c :: rest =>
      same_part (downstream_part c) (down_part_rev c) part rev /\
      linked_up (upstream_part c) (up_part_rev c) rest
  end.

(** Where a walk downstream (upstream) from ([part], [rev]) ends. *)
Definition end_of_down (part rev : string) (l : list Connection)
  : string * string :=
  match last l with
  | Some c => (downstream_part c, down_part_rev c)
  | None => (part, rev)
  end.

Definition end_of_up (part rev : string) (l : list Connection)
  : string * string :=
  match last l with
  | Some c => (upstream_part c, up_part_rev c)
  | None => (part, rev)
  end.

(** Every connection of the chain ends where the next one begins. *)
Fixpoint contiguous (l : list Connection) : Prop :=
  match l with
  | [] => True
  | c :: rest =>
      match rest with
      | [] => True
      | c' :: _ =>
          same_part (downstream_part c) (down_part_rev c)
                    (upstream_part c') (up_part_rev c')
      end /\ contiguous rest
  end.

(** A row of the connections table that is active at the as-of date. *)
Definition active_row (is_active : Z -> Z -> option Z -> bool)
  (session : list Connection) (at_date : Z) (c : Connection) : Prop :=
  c ∈ session /\ is_active at_date (start_date c) (stop_date c) = true.

(** *** Tables in the spec's words *)

(** Every chain of a hookup dictionary, whatever its part key and
    polarization. *)
Definition chain_of (hd : HookupDict) (chain : list Connection) : Prop :=
  exists akey pkey, lookup2 (hookup hd) akey pkey = Some chain.

(** The earlier of two stop times, a null one standing for "never". *)
Definition opt_min (a b : option Z) : option Z :=
  match a, b with
  | None, _ => b
  | _, None => a
  | Some x, Some y => Some (Z.min x y)
  end.

(** The intersection of two timing windows. *)
Definition window_meet (w1 w2 : Z * option Z) : Z * option Z :=
  (Z.max w1.1 w2.1, opt_min w1.2 w2.2).

(** The chains of a table, part by part and polarization by polarization,
    in the order of the two nested loops. *)
Definition chains_in_order (hk : gmap string (gmap string (list Connection)))
  : list (list Connection) :=
  concat ((fun item => snd <$> map_to_list item.2) <$> map_to_list hk).

(** The list of part types only grows at its end and stays free of
    duplicates; the cache maps every part noted to its lowered part type. *)
Definition noted (get_part_type_for : string -> string)
  (parts : list string)
  (before after : gmap string string * list string) : Prop :=
  (NoDup before.2 -> NoDup after.2) /\
  before.2 `prefix_of` after.2 /\
  (forall part, part ∈ parts ->
     after.1 !! part = Some (lower (get_part_type_for part)) /\
     lower (get_part_type_for part) ∈ after.2) /\
  (forall pt, pt ∈ after.2 ->
     pt ∈ before.2 \/
     exists part, part ∈ parts /\ pt = lower (get_part_type_for part)).

(** The parts along a chain: the upstream part of every connection, then the
    downstream part of the last one. *)
Definition chain_parts (huco : list Connection) : list string :=
  match last huco with
  | None => []
  | Some c_last => (upstream_part <$> huco) ++ [downstream_part c_last]
  end.

(** *** Scenario for the hookup entries *)

Definition scenario_entry : cm_dossier.HookupEntry :=
  cm_dossier.mkHookupEntry {[ "e" := scenario_chain ]} ∅ ∅ ∅ ∅
    ["parts_abc"] {[ "parts_abc" := ["a"; "b"; "c"] ]}.

(** Three revisions of one part, the last one open. *)
Definition three_revisions : gmap string (Z * option Z) :=
  {[ "B" := (200, Some 300); "A" := (100, Some 200); "C" := (300, None) ]}.

(** Two closed revisions of one part. *)
Definition closed_revisions : gmap string (Z * option Z) :=
  {[ "B" := (200, Some 300); "A" := (100, Some 200) ]}.

(** The open revision stored under [r], if there is one. *)
Definition open_revision (hpn : string)
  (revisions : gmap string (Z * option Z)) (r : string) : option Revision :=
  match revisions !! r with
  | Some (s, None) => Some (mkRevision hpn r s None)
  | _ => None
  end.

(** *** Connections in the spec's words *)

(** The rows of the table whose key is [k], in table order. *)
Definition rows_with (k : string) (session : list Connection)
  : list Connection :=
  List.filter (fun c => String.eqb (cm_health.connection_key c) k) session.
Arguments rows_with : simpl never.

(** [b] stands before [a] in [l]. *)
Definition before {V : Type} (l : list V) (b a : V) : Prop :=
  exists i j, (j < i)%nat /\ l !! j = Some b /\ l !! i = Some a.

(** A list as a dictionary value: a key is present only with a non-empty
    list. *)
Definition nonempty_opt {V : Type} (l : list V) : option (list V) :=
  match l with
  | [] => None
  | _ => Some l
  end.

(** *** Scenario for [setup] *)

(** The globals before any call of [setup]. *)
Definition globals_at_import : Globals :=
  mkGlobals port_def full_connection_path single_pol_labeled_parts None ∅.

Definition snap_dossier : PartDossier :=
  mkPartDossier (mkPart "SNPA000001" "snap") ["e2"; "n0"] ["rack"].

(** The hookup type [setup] works with: the one supplied, else the one
    [find_hookup_type] finds for the part type. *)
Definition resolved_hookup_type (g : Globals) (order : list string)
  (part : PartDossier) (hookup_type : option string) : res string :=
  match hookup_type with
  | None =>
      find_hookup_type (g_port_def g) order (part_type (d_part part)) None
  | Some ht => Ok ht
  end.

(** * Properties *)

(** ** Generic facts about the result monad and loops *)

Lemma bind_ok {A B : Type} (m : res A) (k : A -> res B) (b : B) :
  bind m k = Ok b <-> exists a, m = Ok a /\ k a = Ok b.
Proof.
  destruct m as [a|e]; simpl; split.
  - intros H. exists a. split; [reflexivity | exact H].
  - intros (a' & Ha & Hk). injection Ha as ->. exact Hk.
  - intros H. discriminate H.
  - intros (a' & Ha & _). discriminate Ha.
Qed.

(** ** The table annotations of [cm_hookup] *)

Lemma lookup2_fmap {V W : Type} (f : V -> W)
  (d : gmap string (gmap string V)) (akey pkey : string) :
  lookup2 (fmap (M := gmap string) (fmap (M := gmap string) f) d) akey pkey
  = f <$> lookup2 d akey pkey.
Proof.
  unfold lookup2. rewrite lookup_fmap.
  destruct (d !! akey) as [inner|]; simpl; [|reflexivity].
  apply lookup_fmap.
Qed.

(** [__get_hookup] annotates the table only when [__get_column_headers]
    found columns, and then an epoch has been inferred: ['parts_epoch'] holds
    the path of one of the epochs, and that path contains every part type
    found. *)
Lemma find_epoch_found (fcp : list (string * list string))
  (part_types_found : list string) (sp : string) (p : list string) :
  find_epoch fcp part_types_found = Some (sp, p) ->
  (sp, p) ∈ fcp /\ forall pt, pt ∈ part_types_found -> pt ∈ p.
Proof.
  induction fcp as [|[sp' p'] rest IH]; simpl; [discriminate|].
  destruct (all_in part_types_found p') eqn:Hall.
  - intros [= -> ->]. split; [apply list_elem_of_here|].
    intros pt Hpt. unfold all_in in Hall.
    rewrite forallb_forall in Hall.
    apply list_elem_of_In, Hall in Hpt.
    apply bool_decide_eq_true in Hpt. exact Hpt.
  - intros Hrest. destruct (IH Hrest) as [Hin Hsub].
    split; [apply list_elem_of_further, Hin | exact Hsub].
Qed.

Lemma columns_imply_path (fcp : list (string * list string))
  (part_types_found : list string) :
  (get_column_headers fcp part_types_found).1 <> [] ->
  exists sp p,
    (get_column_headers fcp part_types_found).2
    = Some {| epoch := Some sp; path := Some p |} /\
    (sp, p) ∈ fcp /\
    forall pt, pt ∈ part_types_found -> pt ∈ p.
Proof.
  unfold get_column_headers.
  destruct part_types_found as [|pt0 found]; [intros H; contradiction|].
  destruct (find_epoch fcp (pt0 :: found)) as [[sp p]|] eqn:Hfind;
    [|intros H; contradiction].
  destruct (String.eqb sp ""); [intros H; contradiction|].
  intros _. exists sp, p. split; [reflexivity|].
  apply find_epoch_found, Hfind.
Qed.

(** C10.  For a hookup dictionary whose ['hookup'] mapping is empty,
    [is_fully_connected] returns [True] when [any_or_all] is ['all'] and
    [False] for every other value of [any_or_all]. *)
Theorem is_fully_connected_empty (hd : HookupDict) (any_or_all : string) :
  hookup hd = ∅ ->
  (any_or_all = "all" -> is_fully_connected hd any_or_all = Ok true) /\
  (any_or_all <> "all" -> is_fully_connected hd any_or_all = Ok false).
Proof.
  intros Hempty. unfold is_fully_connected.
  rewrite Hempty, map_to_list_empty. simpl. split.
  - intros ->. reflexivity.
  - intros Hne. apply String.eqb_neq in Hne. rewrite Hne. reflexivity.
Qed.

Lemma is_fully_connected_empty_witness :
  hookup get_empty_hookup_dict = ∅ /\
  is_fully_connected get_empty_hookup_dict "all" = Ok true /\
  is_fully_connected get_empty_hookup_dict "any" = Ok false.
Proof.
  split; [reflexivity|].
  split.
  - apply (is_fully_connected_empty get_empty_hookup_dict "all");
      reflexivity.
  - apply (is_fully_connected_empty get_empty_hookup_dict "any");
      [reflexivity | discriminate].
Defined.

(** C6.  Once an epoch with path [p] has been inferred, the flag stored for
    every (part, polarization) entry of the hookup is true if and only if the
    number of connections of its chain equals the length of [p] minus one. *)
Theorem fully_connected_flag_iff (hd : HookupDict) (pe : PartsEpoch)
  (p : list string) (akey pkey : string) (chain : list Connection) :
  parts_epoch hd = Some pe ->
  path pe = Some p ->
  lookup2 (hookup hd) akey pkey = Some chain ->
  exists hd' flag,
    add_hookup_timing_and_flags hd = Ok hd' /\
    lookup2 (fully_connected hd') akey pkey = Some flag /\
    (flag = true <-> Z.of_nat (length chain) = Z.of_nat (length p) - 1).
Proof.
  intros Hpe Hpath Hchain.
  unfold add_hookup_timing_and_flags, full_hookup_length.
  rewrite Hpe, Hpath. simpl.
  eexists _, _. split; [reflexivity|]. simpl. split.
  - rewrite lookup2_fmap, Hchain. reflexivity.
  - apply Z.eqb_eq.
Qed.

Lemma fully_connected_flag_iff_witness :
  exists hd' flag,
    add_hookup_timing_and_flags scenario_dict = Ok hd' /\
    lookup2 (fully_connected hd') "A1:A" "e" = Some flag /\
    (flag = true <->
     Z.of_nat (length scenario_chain) = Z.of_nat (length ["a"; "b"; "c"]) - 1).
Proof.
  apply (fully_connected_flag_iff scenario_dict
           {| epoch := Some "parts_abc"; path := Some ["a"; "b"; "c"] |}
           ["a"; "b"; "c"] "A1:A" "e" scenario_chain);
    reflexivity.
Defined.

(** The flag at every chain length from 0 to the path length minus one, for a
    path of length 4: only the chain of three connections is fully
    connected. *)
Example flags_for_path_of_four :
  let flag_of (n : nat) :=
    let hd := {| hookup := {[ "P:A" := {[ "e" := replicate n (conn "x" "o" "y" "i" 0 None) ]} ]};
                 fully_connected := ∅;
                 parts_epoch := Some {| epoch := Some "four";
                                        path := Some ["a"; "b"; "c"; "d"] |};
                 columns := ["a"]; timing := ∅; levels := ∅ |} in
    match add_hookup_timing_and_flags hd with
    | Ok hd' => lookup2 (fully_connected hd') "P:A" "e"
    | Raise _ => None
    end in
  flag_of <$> [0; 1; 2; 3]%nat
  = [Some false; Some false; Some false; Some true].
Proof. vm_compute. reflexivity. Qed.

(** *** The timing window *)

Lemma timing_loop_start (pol : list Connection) (s0 : Z) (e0 : option Z) :
  let s := (timing_loop pol s0 e0).1 in
  s0 <= s /\
  (forall c, c ∈ pol -> start_gpstime c <= s) /\
  (s = s0 \/ exists c, c ∈ pol /\ start_gpstime c = s).
Proof.
  revert s0 e0. induction pol as [|c rest IH]; intros s0 e0; simpl.
  - split; [lia|]. split; [|left; reflexivity].
    intros c Hc. inversion Hc.
  - match goal with
    | |- context [timing_loop rest ?s1 ?e1] =>
        specialize (IH s1 e1); set (s1' := s1) in *; set (e1' := e1) in *
    end.
    destruct IH as (Hle & Hub & Hwit).
    assert (Hs1 : s0 <= s1' /\ start_gpstime c <= s1' /\
                  (s1' = s0 \/ s1' = start_gpstime c)).
    { subst s1'. destruct (Z.gtb_spec (start_gpstime c) s0); lia. }
    split; [lia|]. split.
    + intros c' Hc'. apply elem_of_cons in Hc' as [-> | Hin]; [lia|].
      apply Hub, Hin.
    + destruct Hwit as [Heq | (c' & Hin & Heq)].
      * destruct Hs1 as (_ & _ & [Hs | Hs]).
        -- left. lia.
        -- right. exists c. split; [apply list_elem_of_here | lia].
      * right. exists c'. split; [apply list_elem_of_further, Hin | exact Heq].
Qed.

Lemma timing_loop_stop (pol : list Connection) (s0 : Z) (e0 : option Z) :
  match (timing_loop pol s0 e0).2 with
  | None => e0 = None /\ forall c, c ∈ pol -> stop_gpstime c = None
  | Some t =>
      (e0 = Some t \/ exists c, c ∈ pol /\ stop_gpstime c = Some t) /\
      (forall t0, e0 = Some t0 -> t <= t0) /\
      forall c t', c ∈ pol -> stop_gpstime c = Some t' -> t <= t'
  end.
Proof.
  revert s0 e0. induction pol as [|c rest IH]; intros s0 e0; simpl.
  - destruct e0 as [t|].
    + split; [left; reflexivity|]. split.
      * intros t0 [= ->]. lia.
      * intros c t' Hc. inversion Hc.
    + split; [reflexivity|]. intros c Hc. inversion Hc.
  - match goal with
    | |- context [timing_loop rest ?s1 ?e1] =>
        specialize (IH s1 e1); set (e1' := e1) in *
    end.
    destruct (timing_loop rest _ e1').2 as [t|].
    + destruct IH as (Hwit & Hacc & Hlow).
      assert (He1 : (e1' = e0 /\ stop_gpstime c = None) \/
                    (exists sc, stop_gpstime c = Some sc /\
                       ((e1' = Some sc /\ forall t0, e0 = Some t0 -> sc <= t0) \/
                        (e1' = e0 /\ exists t0, e0 = Some t0 /\ t0 <= sc)))).
      { subst e1'. destruct (stop_gpstime c) as [sc|]; [|left; auto].
        right. exists sc. split; [reflexivity|].
        destruct e0 as [t0|].
        - destruct (Z.ltb_spec sc t0).
          + left. split; [reflexivity|]. intros ? [= <-]. lia.
          + right. split; [reflexivity|]. exists t0. split; [reflexivity|lia].
        - left. split; [reflexivity|]. intros ? [=]. }
      split; [|split].
      * destruct Hwit as [Heq | (c' & Hin & Heq)].
        -- destruct He1 as [[He _] | (sc & Hsc & [[He _] | [He _]])].
           ++ left. congruence.
           ++ right. exists c. split; [apply list_elem_of_here | congruence].
           ++ left. congruence.
        -- right. exists c'. split; [apply list_elem_of_further, Hin | exact Heq].
      * intros t0 Ht0.
        destruct He1 as [[He _] | (sc & Hsc & [[He Hle] | [He _]])].
        -- apply Hacc. congruence.
        -- specialize (Hacc sc He). specialize (Hle t0 Ht0). lia.
        -- apply Hacc. congruence.
      * intros c' t' Hc' Hstop.
        apply elem_of_cons in Hc' as [-> | Hin]; [|eapply Hlow; eauto].
        destruct He1 as [[_ Hn] | (sc & Hsc & [[He _] | [He (t0 & Ht0 & Hle)]])].
        -- congruence.
        -- specialize (Hacc sc He). assert (sc = t') by congruence. lia.
        -- assert (Het0 : e1' = Some t0) by congruence.
           specialize (Hacc t0 Het0). assert (sc = t') by congruence. lia.
    + destruct IH as (He1 & Hnone).
      assert (e0 = None /\ stop_gpstime c = None) as [He0 Hc].
      { subst e1'. destruct (stop_gpstime c) as [sc|]; [|auto].
        destruct e0 as [t0|]; [|discriminate].
        destruct (sc <? t0); discriminate. }
      split; [exact He0|].
      intros c' Hc'. apply elem_of_cons in Hc' as [-> | Hin]; auto.
Qed.

(** C7.  The timing stored for a chain of the hookup is the window
    [latest start, earliest non-null stop]: with GPS start times (which are
    not negative), the start is an upper bound of the segment starts that one
    segment attains, the stop is the least non-null segment stop, and the
    stop is null exactly when every segment's stop is null. *)
Theorem timing_window_of_chain (hd : HookupDict) (pe : PartsEpoch)
  (p : list string) (akey pkey : string) (chain : list Connection) :
  parts_epoch hd = Some pe ->
  path pe = Some p ->
  lookup2 (hookup hd) akey pkey = Some chain ->
  (forall c, c ∈ chain -> 0 <= start_gpstime c) ->
  exists hd' s e,
    add_hookup_timing_and_flags hd = Ok hd' /\
    lookup2 (timing hd') akey pkey = Some (s, e) /\
    (chain <> [] -> latest_start_of chain s) /\
    (forall c, c ∈ chain -> start_gpstime c <= s) /\
    earliest_stop_of chain e.
Proof.
  intros Hpe Hpath Hchain Hnonneg.
  unfold add_hookup_timing_and_flags, full_hookup_length.
  rewrite Hpe, Hpath. simpl.
  eexists. exists (hookup_timing chain).1, (hookup_timing chain).2.
  split; [reflexivity|]. simpl. split.
  { rewrite lookup2_fmap, Hchain. simpl. f_equal.
    destruct (hookup_timing chain); reflexivity. }
  unfold hookup_timing.
  pose proof (timing_loop_start chain 0 None) as (_ & Hub & Hwit).
  pose proof (timing_loop_stop chain 0 None) as Hstop.
  split; [|split].
  - intros Hne. split; [|exact Hub].
    destruct Hwit as [Hzero | Hex]; [|exact Hex].
    destruct chain as [|c rest]; [contradiction|].
    exists c. split; [apply list_elem_of_here|].
    assert (Hc : c ∈ c :: rest) by apply list_elem_of_here.
    pose proof (Hnonneg c Hc). pose proof (Hub c Hc). lia.
  - exact Hub.
  - unfold earliest_stop_of.
    destruct (timing_loop chain 0 None).2 as [t|].
    + destruct Hstop as ([Hno | Hex] & _ & Hlow); [discriminate|].
      split; assumption.
    + destruct Hstop as [_ Hnone]. exact Hnone.
Qed.

Lemma timing_window_of_chain_witness :
  exists hd' s e,
    add_hookup_timing_and_flags scenario_dict = Ok hd' /\
    lookup2 (timing hd') "A1:A" "e" = Some (s, e) /\
    (scenario_chain <> [] -> latest_start_of scenario_chain s) /\
    (forall c, c ∈ scenario_chain -> start_gpstime c <= s) /\
    earliest_stop_of scenario_chain e.
Proof.
  apply (timing_window_of_chain scenario_dict
           {| epoch := Some "parts_abc"; path := Some ["a"; "b"; "c"] |}
           ["a"; "b"; "c"] "A1:A" "e" scenario_chain);
    try reflexivity.
  intros c Hc. unfold scenario_chain in Hc.
  repeat (apply elem_of_cons in Hc as [-> | Hc]; [simpl; lia|]).
  inversion Hc.
Defined.

(** The end-to-end scenario of the spec: hop intervals [0,100] and [0,null]
    give the window [0, 100], and the chain is fully connected for the path
    [a, b, c]. *)
Example scenario_window :
  match add_hookup_timing_and_flags scenario_dict with
  | Ok hd' =>
      lookup2 (timing hd') "A1:A" "e" = Some (0, Some 100) /\
      lookup2 (fully_connected hd') "A1:A" "e" = Some true
  | Raise _ => False
  end.
Proof. vm_compute. split; reflexivity. Qed.

(** Outside the hypothesis of C7: a chain without segments gets the window
    [0, null], and a negative start time is replaced by 0. *)
Example window_floor :
  hookup_timing [] = (0, None) /\
  hookup_timing [conn "x" "o" "y" "i" (-5) None] = (0, None).
Proof. split; reflexivity. Qed.

(** ** The cache check *)

(** With the file found, the version table read and not empty, the check
    answers "not fresh" without opening the file when the file is older than
    the marker, and otherwise passes on what loading the stored as-of date
    raises or combines the three tests. *)
Lemma check_hookup_cache_file_spec {Time : Type} {AT : AstroTime Time}
  (mtime at_date marker : Time) (minutes : Z) (versions : list Time)
  (load_at_date : res Time) :
  last versions = Some marker ->
  check_hookup_cache_file (StatOk mtime) (Ok versions) load_at_date at_date
    minutes
  = if time_lt mtime marker then Ok false
    else
      let* cached := load_at_date in
      Ok ((time_gt cached marker && time_gt at_date marker)
          || time_within cached at_date minutes).
Proof.
  intros Hlast. unfold check_hookup_cache_file, latest_update_time.
  simpl. rewrite Hlast. simpl.
  destruct (time_lt mtime marker); [reflexivity|].
  destruct load_at_date as [cached|e]; simpl; [|reflexivity].
  destruct (time_gt cached marker && time_gt at_date marker); simpl;
    [reflexivity|].
  destruct (time_within cached at_date minutes); reflexivity.
Qed.

Lemma set_hookup_cache_unforced {Time : Type} {AT : AstroTime Time}
  (stat : StatResult Time) (cm_versions : res (list Time))
  (load_at_date : res Time) (at_date : Time) (get_hookup : res HookupDict)
  (write : HookupDict -> res unit) (read : res HookupDict)
  (in_memory : option HookupDict) :
  set_hookup_cache false stat cm_versions load_at_date at_date get_hookup
    write read in_memory
  = let* fresh := check_hookup_cache_file stat cm_versions load_at_date
               at_date default_contemporaneous_minutes in
    if fresh then use_hookup_cache read in_memory
    else recompute_hookup_cache get_hookup write.
Proof.
  unfold set_hookup_cache.
  destruct (check_hookup_cache_file stat cm_versions load_at_date at_date
              default_contemporaneous_minutes) as [[|]|e]; reflexivity.
Qed.

(** C3, as the claim states it, fails: the two as-of dates are 100 s apart
    (inside the 5 minute window, and the tolerance test succeeds), both
    precede the change marker 2000, and the marker is newer than the cache
    file (modified at 1000); the check answers "not fresh" and [get] takes
    the recompute branch, here with a table already in memory and a
    recomputation and a write that succeed. *)
Lemma cache_within_tolerance_yet_stale :
  let mtime := 1000 in
  let cached := 500 in
  let at_date := 600 in
  let marker := 2000 in
  Z.abs (cached - at_date) < 60 * default_contemporaneous_minutes /\
  time_within (AstroTime := whole_seconds) cached at_date
    default_contemporaneous_minutes = true /\
  cached < marker /\ at_date < marker /\ mtime < marker /\
  check_hookup_cache_file (AT := whole_seconds) (StatOk mtime) (Ok [marker])
    (Ok cached) at_date default_contemporaneous_minutes = Ok false /\
  set_hookup_cache (AT := whole_seconds) false (StatOk mtime) (Ok [marker])
    (Ok cached) at_date (Ok scenario_dict) (fun _ => Ok tt)
    (Ok get_empty_hookup_dict) (Some get_empty_hookup_dict)
  = Ok (Recompute, scenario_dict).
Proof. vm_compute. repeat split; reflexivity. Qed.

(** C3, amended.  With the cache file found, [marker] the latest
    database-change marker and [cached] the as-of date stored in the file,
    the cache entry is fresh exactly when the test
    [file_mod_time < cm_hash_time] fails (the file is not older than the
    marker) and either both as-of dates test later than the marker or the
    tolerance test [abs(cached - at_date) < TimeDelta(5 minutes)] succeeds,
    each test as [astropy] evaluates it.  [get] without [force_new] then
    keeps the table in memory or reads the file, without calling
    [__get_hookup], exactly when the entry is fresh, and otherwise takes the
    recompute branch ([__get_hookup], then the write, either of which may
    raise).  Whenever the marker is newer than the cache file the entry is
    stale and [get] takes the recompute branch, whatever the as-of dates and
    whether or not the file can be opened and loaded. *)
Theorem cache_fresh_iff {Time : Type} {AT : AstroTime Time}
  (mtime cached at_date marker : Time) (versions : list Time)
  (get_hookup : res HookupDict) (write : HookupDict -> res unit)
  (read : res HookupDict) (in_memory : option HookupDict) :
  last versions = Some marker ->
  let fresh :=
    time_lt mtime marker = false /\
    ((time_gt cached marker = true /\ time_gt at_date marker = true) \/
     time_within cached at_date default_contemporaneous_minutes = true) in
  let check load :=
    check_hookup_cache_file (StatOk mtime) (Ok versions) load at_date
      default_contemporaneous_minutes in
  let get load :=
    set_hookup_cache false (StatOk mtime) (Ok versions) load at_date
      get_hookup write read in_memory in
  (check (Ok cached) = Ok true <-> fresh) /\
  (check (Ok cached) = Ok false <-> ~ fresh) /\
  (fresh -> get (Ok cached) = use_hookup_cache read in_memory) /\
  (~ fresh -> get (Ok cached) = recompute_hookup_cache get_hookup write) /\
  (time_lt mtime marker = true ->
   forall load,
     check load = Ok false /\
     get load = recompute_hookup_cache get_hookup write).
Proof.
  intros Hlast fresh check get.
  assert (Hcheck : forall load,
             check load
             = if time_lt mtime marker then Ok false
               else
                 let* c := load in
                 Ok ((time_gt c marker && time_gt at_date marker)
                     || time_within c at_date
                          default_contemporaneous_minutes)).
  { intros load. apply check_hookup_cache_file_spec, Hlast. }
  assert (Hget : forall load,
             get load
             = let* fresh := check load in
               if fresh then use_hookup_cache read in_memory
               else recompute_hookup_cache get_hookup write).
  { intros load. apply set_hookup_cache_unforced. }
  assert (Hfresh : check (Ok cached) = Ok true <-> fresh).
  { rewrite Hcheck. unfold fresh. simpl.
    destruct (time_lt mtime marker); simpl.
    { split; [discriminate | intros [H _]; discriminate H]. }
    destruct (time_gt cached marker), (time_gt at_date marker),
      (time_within cached at_date default_contemporaneous_minutes);
      simpl; split;
      try (intros _; split; [reflexivity|]; tauto);
      try reflexivity;
      try discriminate;
      intros [_ [[H1 H2] | H3]]; discriminate. }
  assert (Hstale : check (Ok cached) = Ok false <-> ~ fresh).
  { rewrite <- Hfresh. rewrite Hcheck. simpl.
    destruct (time_lt mtime marker); simpl.
    { split; [intros _; discriminate | reflexivity]. }
    destruct ((time_gt cached marker && time_gt at_date marker)
              || time_within cached at_date default_contemporaneous_minutes);
      split;
      [discriminate
      |intros Hn; exfalso; apply Hn; reflexivity
      |intros _; discriminate
      |reflexivity]. }
  split; [exact Hfresh|]. split; [exact Hstale|].
  split; [|split].
  - intros Hf. apply Hfresh in Hf. rewrite Hget, Hf. reflexivity.
  - intros Hn. apply Hstale in Hn. rewrite Hget, Hn. reflexivity.
  - intros Hold load.
    assert (Hc : check load = Ok false).
    { rewrite Hcheck, Hold. reflexivity. }
    split; [exact Hc|]. rewrite Hget, Hc. reflexivity.
Qed.

Lemma cache_fresh_iff_witness :
  let fresh :=
    Z.ltb 3000 2000 = false /\
    ((Z.gtb 500 2000 = true /\ Z.gtb 600 2000 = true) \/
     (Z.abs (500 - 600) <? 60 * default_contemporaneous_minutes) = true) in
  let check load :=
    check_hookup_cache_file (AT := whole_seconds) (StatOk 3000)
      (Ok [1000; 2000]) load 600 default_contemporaneous_minutes in
  let get load :=
    set_hookup_cache (AT := whole_seconds) false (StatOk 3000)
      (Ok [1000; 2000]) load 600 (Ok get_empty_hookup_dict)
      (fun _ => Ok tt) (Ok scenario_dict) None in
  last [1000; 2000] = Some 2000 /\
  (check (Ok 500) = Ok true <-> fresh) /\
  (check (Ok 500) = Ok false <-> ~ fresh) /\
  (fresh -> get (Ok 500) = Ok (ReadFromFile, scenario_dict)) /\
  (~ fresh ->
   get (Ok 500) = Ok (Recompute, get_empty_hookup_dict)) /\
  (Z.ltb 3000 2000 = true ->
   forall load,
     check load = Ok false /\
     get load = Ok (Recompute, get_empty_hookup_dict)).
Proof.
  split; [reflexivity|].
  apply (cache_fresh_iff (AT := whole_seconds) 3000 500 600 2000
           [1000; 2000] (Ok get_empty_hookup_dict) (fun _ => Ok tt)
           (Ok scenario_dict) None).
  reflexivity.
Defined.

(** The same file and version table seen from three pairs of as-of dates:
    100 s apart and both before the marker (fresh by the tolerance test),
    both after the marker and a day apart (fresh), and a day apart on either
    side of the marker (stale). *)
Example cache_check_scenarios :
  let check cached at_date :=
    check_hookup_cache_file (AT := whole_seconds) (StatOk 3000)
      (Ok [1000; 2000]) (Ok cached) at_date default_contemporaneous_minutes in
  check 500 600 = Ok true /\
  check 2500 88900 = Ok true /\
  check 1500 87900 = Ok false.
Proof. vm_compute. repeat split; reflexivity. Qed.

(** [force_new] recomputes whatever the state of the file, without running
    the check, and a missing cache file ([errno] 2) is never fresh. *)
Lemma set_hookup_cache_forced {Time : Type} {AT : AstroTime Time}
  (stat : StatResult Time) (cm_versions : res (list Time))
  (load_at_date : res Time) (at_date : Time) (get_hookup : res HookupDict)
  (write : HookupDict -> res unit) (read : res HookupDict)
  (in_memory : option HookupDict) :
  set_hookup_cache true stat cm_versions load_at_date at_date get_hookup
    write read in_memory
  = recompute_hookup_cache get_hookup write /\
  set_hookup_cache false (StatError 2) cm_versions load_at_date at_date
    get_hookup write read in_memory
  = recompute_hookup_cache get_hookup write.
Proof. split; reflexivity. Qed.

(** ** The selector [cm_sysdef.next_connection] *)

Lemma str_first_ok (s : string) : s <> "" -> str_first s = Ok (first_char s).
Proof. destruct s; [contradiction | reflexivity]. Qed.

Lemma str_last_ok (s : string) : s <> "" -> str_last s = Ok (last_char s).
Proof.
  induction s as [|a s IH]; [contradiction|].
  intros _. destruct s as [|b s]; [reflexivity|].
  simpl in *. apply IH. discriminate.
Qed.

Lemma append_nonempty_r (p s : string) : s <> "" -> p +:+ s <> "".
Proof. destruct p; simpl; [auto | discriminate]. Qed.

Lemma prefix_of_ok (single : list string) (pt h : string) :
  h <> "" -> prefix_of single pt h = Ok (pol_prefix single pt h).
Proof.
  intros Hh. unfold prefix_of, pol_prefix.
  destruct (bool_decide (pt ∈ single)); [|reflexivity].
  rewrite (str_last_ok h Hh). reflexivity.
Qed.

Lemma stream_put_port_this (d : Direction) (opc : Connection) :
  stream_put_port (D_this d) (D_port (D_this d)) opc
  = Ok (this_side_port d opc).
Proof. destruct d; reflexivity. Qed.

Lemma stream_put_port_next (d : Direction) (opc : Connection) :
  stream_put_port (D_next d) (D_port (D_next d)) opc
  = Ok (far_side_port d opc).
Proof. destruct d; reflexivity. Qed.

Lemma first_pass_find (current : Current) (allowed : list (option string))
  (options : list Opt) :
  first_pass current (Some allowed) options
  = Ok (opt_option <$> List.find (exact_port_match current allowed) options).
Proof.
  induction options as [|o rest IH]; [reflexivity|].
  simpl. unfold exact_port_match at 1.
  destruct (String.eqb (port current) (opt_this o)); simpl; [|exact IH].
  destruct (bool_decide (Some (opt_next o) ∈ allowed)); [reflexivity | exact IH].
Qed.

Lemma second_pass_find (current : Current) (allowed : list (option string))
  (options : list Opt) :
  pol current <> "" ->
  Forall (fun o => opt_this o <> "") options ->
  second_pass current (Some allowed) options
  = Ok (opt_option <$> List.find (pol_char_match current allowed) options).
Proof.
  intros Hpol Hthis.
  induction Hthis as [|o rest Ho Hrest IH]; [reflexivity|].
  simpl. rewrite (str_first_ok _ Hpol), (str_first_ok _ Ho). simpl.
  unfold pol_char_match at 1.
  destruct (String.eqb (first_char (pol current)) (first_char (opt_this o)));
    simpl; [|exact IH].
  destruct (bool_decide (Some (opt_next o) ∈ allowed)); [reflexivity | exact IH].
Qed.

Lemma drop_lookup_cons {V : Type} (l : list V) (i : nat) (n : nat) :
  length (drop i l) = S n ->
  exists x, l !! i = Some x /\ drop i l = x :: drop (S i) l.
Proof.
  intros Hlen.
  destruct (l !! i) as [x|] eqn:Hx.
  - exists x. split; [reflexivity|]. apply drop_S, Hx.
  - apply lookup_ge_None in Hx. rewrite length_drop in Hlen. lia.
Qed.

Section Loop.
Variable single : list string.
Variable current : Current.
Variable A : Part.
Variable B : list Part.
Variable next_part_type : string.

(** With several options and two port groups the loop collects the
    eligible candidates and returns from inside for none. *)
Lemma options_loop_collects (n_opts n_side : nat) (opts : list Connection) :
  forall (i : nat) (acc : list Opt),
  n_opts <> 1%nat -> n_side <> 1%nat ->
  length (drop i B) = length opts ->
  named (candidates_from i opts B) ->
  far_ported (direction current) (candidates_from i opts B) ->
  options_loop single current B next_part_type n_opts n_side
    (pol_prefix single (part_type A) (hpn A)) i opts acc
  = Ok (Collected
          (acc ++ (candidate_opt single current A next_part_type
                     <$> List.filter (eligible single current A next_part_type)
                           (candidates_from i opts B)))).
Proof.
  induction opts as [|opc rest IH]; intros i acc Hn Hs Hlen Hnamed Hfar.
  - unfold candidates_from. simpl. rewrite app_nil_r. reflexivity.
  - destruct (drop_lookup_cons B i (length rest) Hlen) as (Bi & HBi & Hdrop).
    unfold candidates_from in *. rewrite Hdrop in *.
    simpl in Hnamed, Hfar.
    apply Forall_cons in Hnamed as [HBi_named Hnamed].
    apply Forall_cons in Hfar as [Hopc_far Hfar].
    simpl in Hlen. injection Hlen as Hlen.
    specialize (IH (S i)).
    simpl. unfold list_get. rewrite HBi. simpl.
    unfold eligible at 1, of_next_type at 1. simpl.
    destruct (String.eqb (part_type Bi) next_part_type) eqn:Htype; simpl.
    + rewrite (prefix_of_ok _ _ _ HBi_named). simpl.
      rewrite (proj2 (Nat.eqb_neq _ _) Hn), (proj2 (Nat.eqb_neq _ _) Hs). simpl.
      rewrite stream_put_port_this, stream_put_port_next. simpl.
      rewrite (str_first_ok _ (append_nonempty_r _ _ Hopc_far)). simpl.
      destruct (String.eqb _ "@") eqn:Hat; simpl.
      * apply IH; assumption.
      * rewrite IH by assumption. rewrite <- app_assoc. reflexivity.
    + apply IH; assumption.
Qed.

(** With a single option, or a single port group on the facing side of the
    next part type, the loop returns the first candidate of the next part
    type and collects nothing. *)
Lemma options_loop_returns (n_opts n_side : nat) (opts : list Connection)
  (prefix_this : string) :
  forall (i : nat),
  (n_opts = 1%nat \/ n_side = 1%nat) ->
  length (drop i B) = length opts ->
  named (candidates_from i opts B) ->
  options_loop single current B next_part_type n_opts n_side prefix_this
    i opts []
  = Ok (match first_of_next_type next_part_type (candidates_from i opts B)
        with
        | Some opc => Returned opc
        | None => Collected []
        end).
Proof.
  induction opts as [|opc rest IH]; intros i Hone Hlen Hnamed.
  - reflexivity.
  - destruct (drop_lookup_cons B i (length rest) Hlen) as (Bi & HBi & Hdrop).
    unfold candidates_from in *. rewrite Hdrop in *.
    simpl in Hnamed. apply Forall_cons in Hnamed as [HBi_named Hnamed].
    simpl in Hlen. injection Hlen as Hlen.
    specialize (IH (S i) Hone Hlen Hnamed).
    simpl. unfold list_get. rewrite HBi. simpl.
    unfold first_of_next_type, of_next_type at 1. simpl.
    destruct (String.eqb (part_type Bi) next_part_type) eqn:Htype; simpl.
    + rewrite (prefix_of_ok _ _ _ HBi_named). simpl.
      assert (Hor : (n_opts =? 1)%nat || (n_side =? 1)%nat = true).
      { destruct Hone as [-> | ->]; simpl; [reflexivity|].
        apply orb_true_r. }
      rewrite Hor. reflexivity.
    + exact IH.
Qed.
End Loop.

Section NextConnection.
Variable g : Globals.
Variable current : Current.
Variable A : Part.
Variable B : list Part.
Variable connection_options : list Connection.

(** The tables of the hookup type chosen by [setup] and the entry of the
    current part type. *)
Variable ht : string.
Variable defs : gmap string PartTypeInfo.
Variable info : PartTypeInfo.
Variable full_path : list string.
Variable single : list string.
Hypothesis Hht : this_hookup_type g = Some ht.
Hypothesis Hdefs : g_port_def g !! ht = Some defs.
Hypothesis Hinfo : defs !! part_type A = Some info.
Hypothesis Hpath : g_full_connection_path g !! ht = Some full_path.
Hypothesis Hsingle : g_single_pol_labeled_parts g !! ht = Some single.

Let next_part_position : Z := position info + D_arrow (direction current).

(** The boundary rule: a next position outside [0, path length) gives no
    next connection, whatever the options are. *)
Lemma next_connection_outside_path :
  next_part_position < 0 \/ Z.of_nat (length full_path) <= next_part_position ->
  next_connection g connection_options current A B = Ok None.
Proof.
  intros Hout. unfold next_connection, by_hookup_type, dict_get.
  rewrite Hht, Hdefs. cbn [bind]. rewrite Hinfo, Hpath. cbn [bind].
  fold next_part_position.
  destruct (Z.ltb_spec next_part_position 0) as [Hneg | Hpos];
    [reflexivity|].
  destruct (Z.gtb_spec next_part_position (Z.of_nat (length full_path) - 1));
    [reflexivity | lia].
Qed.

(** The next part type of the path and its entry. *)
Variable next_part_type : string.
Variable next_info : PartTypeInfo.
Hypothesis Hpos : 0 <= next_part_position.
Hypothesis Hnext : full_path !! Z.to_nat next_part_position = Some next_part_type.
Hypothesis Hnext_info : defs !! next_part_type = Some next_info.

Let next_side : list (list (option string)) :=
  side_ports next_info (D_this (direction current)).

Lemma next_connection_unfold (allowed : option (list (option string))) :
  allowed_bound g current next_side allowed ->
  hpn A <> "" ->
  next_connection g connection_options current A B
  = let* outcome :=
      options_loop single current B next_part_type
        (length connection_options) (length next_side)
        (pol_prefix single (part_type A) (hpn A)) 0 connection_options [] in
    match outcome with
    | Returned opc => Ok (Some opc)
    | Collected options =>
        let* r := first_pass current allowed options in
        match r with
        | Some opc => Ok (Some opc)
        | None => second_pass current allowed options
        end
    end.
Proof.
  intros Hallowed HA. unfold next_connection, by_hookup_type, dict_get.
  rewrite Hht, Hdefs. cbn [bind]. rewrite Hinfo, Hpath. cbn [bind].
  fold next_part_position.
  pose proof (lookup_lt_Some _ _ _ Hnext) as Hlt.
  destruct (Z.ltb_spec next_part_position 0) as [Hneg | _]; [lia|].
  destruct (Z.gtb_spec next_part_position (Z.of_nat (length full_path) - 1))
    as [Hbig | _]; [lia|].
  cbn [orb]. unfold list_get at 1. rewrite Hnext. cbn [bind].
  rewrite Hnext_info. cbn [bind]. fold next_side.
  rewrite Hsingle. cbn [bind].
  rewrite (prefix_of_ok _ _ _ HA).
  destruct allowed as [ports|]; simpl in Hallowed.
  - destruct Hallowed as (Hlen & k & Hk & Hports).
    rewrite Hlen. cbn [Nat.eqb bind]. rewrite Hk. cbn [bind].
    unfold list_get. rewrite Hports. reflexivity.
  - apply Nat.eqb_neq in Hallowed. rewrite Hallowed. reflexivity.
Qed.
Let cands : list (Connection * Part) :=
  candidates_from 0 connection_options B.

Lemma collected_this_nonempty (l : list (Connection * Part)) :
  this_ported (direction current) l ->
  Forall (fun o => opt_this o <> "")
    (candidate_opt single current A next_part_type
       <$> List.filter (eligible single current A next_part_type) l).
Proof.
  intros Hthis. apply Forall_forall. intros o Ho.
  apply list_elem_of_fmap in Ho as (cand & -> & Hin).
  apply list_elem_of_In, filter_In in Hin as [Hin _].
  apply list_elem_of_In in Hin.
  unfold this_ported in Hthis. rewrite Forall_forall in Hthis.
  simpl. apply append_nonempty_r, Hthis, Hin.
Qed.

(** C2, amended.  When several candidates remain at a step:
    - if the facing side of the next part type has two port groups, of
      which the polarization selects [allowed], the selector looks at the
      candidates whose far part has the next part type and whose far-side
      port does not begin with ['@'], returns the first of them (in the
      order of the supplied list) whose this-side port equals the current
      port and whose far-side port is in [allowed], otherwise the first
      whose this-side port begins with the polarization character and
      whose far-side port is in [allowed], and otherwise [None], without
      raising;
    - if it has a single port group, the selector returns the first
      candidate whose far part has the next part type, without a port
      check, and [None] when there is none. *)
Theorem next_connection_two_passes :
  hpn A <> "" ->
  pol current <> "" ->
  length B = length connection_options ->
  named cands ->
  far_ported (direction current) cands ->
  this_ported (direction current) cands ->
  (1 < length connection_options)%nat ->
  (forall allowed,
     allowed_bound g current next_side (Some allowed) ->
     next_connection g connection_options current A B
     = Ok (two_pass_select single current A next_part_type allowed cands)) /\
  (length next_side = 1%nat ->
   next_connection g connection_options current A B
   = Ok (first_of_next_type next_part_type cands)).
Proof.
  intros HA Hpol HB Hnamed Hfar Hthis Hmany. split.
  - intros allowed Hallowed.
    rewrite (next_connection_unfold (Some allowed) Hallowed HA).
    rewrite (options_loop_collects single current A B next_part_type).
    + cbn [bind app]. rewrite first_pass_find. cbn [bind].
      unfold two_pass_select. fold cands.
      destruct (List.find (exact_port_match current allowed) _) as [o|];
        [reflexivity|].
      cbn [fmap option_fmap option_map].
      apply second_pass_find; [exact Hpol|].
      apply collected_this_nonempty, Hthis.
    + lia.
    + destruct Hallowed as [Hlen _]. fold next_side. lia.
    + rewrite drop_0. exact HB.
    + exact Hnamed.
    + exact Hfar.
  - intros Hone.
    assert (Hallowed : allowed_bound g current next_side None).
    { simpl. lia. }
    rewrite (next_connection_unfold None Hallowed HA).
    rewrite (options_loop_returns single current B next_part_type).
    + fold cands. destruct (first_of_next_type next_part_type cands);
        reflexivity.
    + right. exact Hone.
    + rewrite drop_0. exact HB.
    + exact Hnamed.
Qed.

(** With exactly one option the selector makes no port or polarization
    check: the option is returned when its far part has the next part type
    of the path. *)
Lemma next_connection_single (opc : Connection) (Bi : Part)
  (allowed : option (list (option string))) :
  connection_options = [opc] ->
  B = [Bi] ->
  hpn A <> "" ->
  hpn Bi <> "" ->
  allowed_bound g current next_side allowed ->
  next_connection g connection_options current A B
  = Ok (if String.eqb (part_type Bi) next_part_type then Some opc else None).
Proof.
  intros Hopts HB HA HBi Hallowed.
  rewrite (next_connection_unfold allowed Hallowed HA).
  rewrite (options_loop_returns single current B next_part_type).
  - rewrite Hopts, HB. unfold first_of_next_type, candidates_from.
    simpl. unfold of_next_type. simpl.
    destruct (String.eqb (part_type Bi) next_part_type); simpl;
      [reflexivity|].
    destruct allowed; reflexivity.
  - left. rewrite Hopts. reflexivity.
  - rewrite Hopts, HB. reflexivity.
  - rewrite Hopts, HB. unfold candidates_from, named. simpl.
    constructor; [exact HBi | constructor].
Qed.
End NextConnection.

(** *** Every connection the selector returns advances along the path *)

Lemma dict_get_ok {V : Type} (d : gmap string V) (k : string) (v : V) :
  dict_get d k = Ok v -> d !! k = Some v.
Proof. unfold dict_get. destruct (d !! k); congruence. Qed.

Lemma list_get_ok {V : Type} (l : list V) (i : nat) (v : V) :
  list_get l i = Ok v -> l !! i = Some v.
Proof. unfold list_get. destruct (l !! i); congruence. Qed.

Lemma by_hookup_type_ok {V : Type} (g : Globals) (d : gmap string V) (v : V) :
  by_hookup_type g d = Ok v ->
  exists ht, this_hookup_type g = Some ht /\ d !! ht = Some v.
Proof.
  unfold by_hookup_type. destruct (this_hookup_type g) as [ht|]; [|discriminate].
  intros H. exists ht. split; [reflexivity | apply dict_get_ok, H].
Qed.

Lemma at_next_type_shift (B : list Part) (next_part_type : string) (i : nat)
  (o : Connection) (rest : list Connection) (opc : Connection) :
  at_next_type B next_part_type (S i) rest opc ->
  at_next_type B next_part_type i (o :: rest) opc.
Proof.
  intros (k & Bk & Hk & HB & Ht). exists (S k), Bk.
  split; [exact Hk|]. split; [|exact Ht].
  replace (i + S k)%nat with (S i + k)%nat by lia. exact HB.
Qed.

Lemma options_loop_sound (single : list string) (current : Current)
  (B : list Part) (next_part_type : string) (n_opts n_side : nat)
  (prefix_this : string) (opts : list Connection) :
  forall (i : nat) (acc : list Opt) (out : LoopOutcome),
  options_loop single current B next_part_type n_opts n_side prefix_this
    i opts acc = Ok out ->
  match out with
  | Returned opc => at_next_type B next_part_type i opts opc
  | Collected l =>
      forall o, o ∈ l ->
        o ∈ acc \/ at_next_type B next_part_type i opts (opt_option o)
  end.
Proof.
  induction opts as [|opc rest IH]; intros i acc out Hloop.
  - simpl in Hloop. injection Hloop as <-. intros o Ho. left. exact Ho.
  - simpl in Hloop. apply bind_ok in Hloop as (Bi & HBi & Hloop).
    apply list_get_ok in HBi.
    destruct (String.eqb (part_type Bi) next_part_type) eqn:Htype;
      simpl in Hloop.
    + apply String.eqb_eq in Htype.
      assert (Hhere : at_next_type B next_part_type i (opc :: rest) opc).
      { exists 0%nat, Bi. rewrite Nat.add_0_r. auto. }
      apply bind_ok in Hloop as (prefix_next & _ & Hloop).
      destruct ((n_opts =? 1)%nat || (n_side =? 1)%nat).
      { injection Hloop as <-. exact Hhere. }
      apply bind_ok in Hloop as (this_side & _ & Hloop).
      apply bind_ok in Hloop as (next_side & _ & Hloop).
      apply bind_ok in Hloop as (c0 & _ & Hloop).
      destruct (String.eqb c0 "@").
      * specialize (IH _ _ _ Hloop). destruct out as [r | l].
        -- apply at_next_type_shift, IH.
        -- intros o Ho. destruct (IH o Ho) as [Hacc | Hat]; [left; exact Hacc|].
           right. apply at_next_type_shift, Hat.
      * specialize (IH _ _ _ Hloop). destruct out as [r | l].
        -- apply at_next_type_shift, IH.
        -- intros o Ho. destruct (IH o Ho) as [Hacc | Hat].
           ++ apply elem_of_app in Hacc as [Hacc | Hnew]; [left; exact Hacc|].
              apply list_elem_of_singleton in Hnew as ->. right. exact Hhere.
           ++ right. apply at_next_type_shift, Hat.
    + specialize (IH _ _ _ Hloop). destruct out as [r | l].
      * apply at_next_type_shift, IH.
      * intros o Ho. destruct (IH o Ho) as [Hacc | Hat]; [left; exact Hacc|].
        right. apply at_next_type_shift, Hat.
Qed.

Lemma first_pass_sound (current : Current)
  (allowed : option (list (option string))) (options : list Opt)
  (opc : Connection) :
  first_pass current allowed options = Ok (Some opc) ->
  exists o, o ∈ options /\ opt_option o = opc.
Proof.
  induction options as [|o rest IH]; simpl; [discriminate|].
  intros H.
  destruct (String.eqb (port current) (opt_this o)).
  - apply bind_ok in H as (ok & _ & H). destruct ok.
    + injection H as <-. exists o. split; [apply list_elem_of_here | reflexivity].
    + destruct (IH H) as (o' & Hin & Ho'). exists o'.
      split; [apply list_elem_of_further, Hin | exact Ho'].
  - destruct (IH H) as (o' & Hin & Ho'). exists o'.
    split; [apply list_elem_of_further, Hin | exact Ho'].
Qed.

Lemma second_pass_sound (current : Current)
  (allowed : option (list (option string))) (options : list Opt)
  (opc : Connection) :
  second_pass current allowed options = Ok (Some opc) ->
  exists o, o ∈ options /\ opt_option o = opc.
Proof.
  induction options as [|o rest IH]; simpl; [discriminate|].
  intros H.
  apply bind_ok in H as (p0 & _ & H). apply bind_ok in H as (t0 & _ & H).
  destruct (String.eqb p0 t0).
  - apply bind_ok in H as (ok & _ & H). destruct ok.
    + injection H as <-. exists o. split; [apply list_elem_of_here | reflexivity].
    + destruct (IH H) as (o' & Hin & Ho'). exists o'.
      split; [apply list_elem_of_further, Hin | exact Ho'].
  - destruct (IH H) as (o' & Hin & Ho'). exists o'.
    split; [apply list_elem_of_further, Hin | exact Ho'].
Qed.

(** Whatever [next_connection] returns is one of the options, its far part
    [B[i]] has the part type that the path lists right after (downstream) or
    right before (upstream) the position of the current part type, and that
    position lies inside the path. *)
Lemma next_connection_advances (g : Globals)
  (connection_options : list Connection) (current : Current) (A : Part)
  (B : list Part) (opc : Connection) :
  next_connection g connection_options current A B = Ok (Some opc) ->
  exists ht defs info full_path i Bi,
    this_hookup_type g = Some ht /\
    g_port_def g !! ht = Some defs /\
    defs !! part_type A = Some info /\
    g_full_connection_path g !! ht = Some full_path /\
    connection_options !! i = Some opc /\
    B !! i = Some Bi /\
    0 <= position info + D_arrow (direction current)
      < Z.of_nat (length full_path) /\
    full_path !! Z.to_nat (position info + D_arrow (direction current))
    = Some (part_type Bi).
Proof.
  unfold next_connection. intros H.
  apply bind_ok in H as (defs & Hdefs & H).
  apply by_hookup_type_ok in Hdefs as (ht & Hht & Hdefs).
  apply bind_ok in H as (info & Hinfo & H). apply dict_get_ok in Hinfo.
  apply bind_ok in H as (full_path & Hpath & H).
  apply by_hookup_type_ok in Hpath as (ht' & Hht' & Hpath).
  assert (ht' = ht) as -> by congruence.
  set (pos := position info + D_arrow (direction current)) in *.
  destruct (Z.ltb_spec pos 0) as [Hneg | Hpos]; [discriminate|].
  destruct (Z.gtb_spec pos (Z.of_nat (length full_path) - 1)) as [Hbig | Hin];
    [discriminate|].
  cbn [orb] in H.
  apply bind_ok in H as (next_part_type & Hnext & H).
  apply list_get_ok in Hnext.
  apply bind_ok in H as (next_info & _ & H).
  apply bind_ok in H as (allowed & _ & H).
  apply bind_ok in H as (single & _ & H).
  apply bind_ok in H as (prefix_this & _ & H).
  apply bind_ok in H as (outcome & Hloop & H).
  apply options_loop_sound in Hloop.
  assert (Hat : at_next_type B next_part_type 0 connection_options opc).
  { destruct outcome as [r | l].
    - injection H as <-. exact Hloop.
    - apply bind_ok in H as (r & Hfirst & H).
      assert (Hsel : exists o, o ∈ l /\ opt_option o = opc).
      { destruct r as [r|].
        - injection H as <-. eapply first_pass_sound, Hfirst.
        - eapply second_pass_sound, H. }
      destruct Hsel as (o & Ho & <-).
      destruct (Hloop o Ho) as [Hnil | Hat]; [inversion Hnil | exact Hat]. }
  destruct Hat as (k & Bk & Hk & HBk & Htype).
  exists ht, defs, info, full_path, k, Bk.
  repeat (split; [assumption|]).
  split; [lia|]. rewrite Htype. exact Hnext.
Qed.

(** C2, as the claim states it, fails.  Going down from a station, the next
    part type (antenna) has a single port group on its facing side.  With two
    candidates whose this-side ports ([x], [y]) are not the current port
    ([ground]) and do not begin with the polarization character, and whose
    far-side port ([bogus]) is in no port group of the antenna, neither pass
    of the claim is satisfied; the selector returns the first candidate
    instead of [None]. *)
Lemma two_passes_skipped_for_single_group :
  let g := globals_after_setup "parts_hera" in
  let current := mkCurrent Down "e" "ground" in
  let A := mkPart "HH1" "station" in
  (exists c1 c2,
     station_options = [c1; c2] /\
     next_connection g station_options current A station_far_parts
     = Ok (Some c1) /\
     this_side_port Down c1 <> port current /\
     first_char (this_side_port Down c1) <> first_char (pol current) /\
     forall allowed,
       two_pass_select [] current A "antenna" allowed
         (candidates_from 0 station_options station_far_parts) = None) /\
  (forall group,
     group ∈ [ports ["ground"]; ports ["focus"]] ->
     Some "bogus" ∉ group).
Proof.
  split.
  - eexists _, _. split; [reflexivity|].
    split; [vm_compute; reflexivity|].
    split; [discriminate|]. split; [discriminate|].
    intros allowed. reflexivity.
  - intros group Hgroup.
    repeat (apply elem_of_cons in Hgroup as [-> | Hgroup];
            [vm_compute; intros H;
             repeat (apply elem_of_cons in H as [H | H]; [discriminate|]);
             inversion H|]).
    inversion Hgroup.
Qed.

Lemma next_connection_two_passes_witness :
  next_connection (globals_after_setup "parts_hera") front_end_options
    (mkCurrent Down "e" "e") (mkPart "FE1" "front-end") front_end_far_parts
  = Ok (Some (conn "FE1" "e" "CBL1" "ea" 0 None)).
Proof.
  pose proof
    (next_connection_two_passes (globals_after_setup "parts_hera")
       (mkCurrent Down "e" "e") (mkPart "FE1" "front-end")
       front_end_far_parts front_end_options
       "parts_hera" (list_to_map parts_hera)
       (mkInfo [ports ["input"]] [ports ["e"]; ports ["n"]] 3)
       ["station"; "antenna"; "feed"; "front-end"; "cable-rfof"; "post-amp";
        "snap"; "node"]
       []) as Hthm.
  specialize (Hthm eq_refl).
  specialize (Hthm ltac:(vm_compute; reflexivity)).
  specialize (Hthm ltac:(vm_compute; reflexivity)).
  specialize (Hthm ltac:(vm_compute; reflexivity)).
  specialize (Hthm ltac:(vm_compute; reflexivity)).
  specialize (Hthm "cable-rfof"
                (mkInfo [ports ["ea"]; ports ["na"]]
                        [ports ["eb"]; ports ["nb"]] 4)).
  specialize (Hthm ltac:(simpl; lia)).
  specialize (Hthm ltac:(reflexivity)).
  specialize (Hthm ltac:(vm_compute; reflexivity)).
  specialize (Hthm ltac:(discriminate)).
  specialize (Hthm ltac:(discriminate)).
  specialize (Hthm ltac:(reflexivity)).
  specialize (Hthm ltac:(repeat constructor; discriminate)).
  specialize (Hthm ltac:(repeat constructor; discriminate)).
  specialize (Hthm ltac:(repeat constructor; discriminate)).
  specialize (Hthm ltac:(simpl; lia)).
  destruct Hthm as [Htwo _].
  rewrite (Htwo (ports ["ea"])).
  - reflexivity.
  - split; [reflexivity|]. exists 0%nat. split; [vm_compute|]; reflexivity.
Defined.

(** ** Steps with a single candidate *)

Lemma check_next_port_single (pols : list string)
  (next_part option_port pol : string) :
  option_port <> "" ->
  cm_hookup.check_next_port pols next_part option_port pol 1
  = Ok (negb (pam_port_mismatch next_part option_port pol)).
Proof.
  intros Hport. unfold cm_hookup.check_next_port, pam_port_mismatch.
  change (1 =? 1)%nat with true. cbv iota.
  destruct (String.eqb (upper (str_take 3 next_part)) "PAM"); [|reflexivity].
  rewrite (str_first_ok _ Hport). cbn [bind andb].
  destruct (String.eqb (lower (first_char option_port)) (lower pol));
    reflexivity.
Qed.

(** C4, as the claim states it, fails.  The single candidate of a front-end
    goes to the [n] input of a cable ([na]) while the walk follows
    polarization [e] from a port ([bogus]) that is not a this-side port of a
    front-end: the candidate's polarization does not match and the origin
    port is not topologically valid, yet both [__get_next_connection] and
    [next_connection] accept the candidate. *)
Lemma single_candidate_unchecked :
  let current := mkCurrent Down "e" "bogus" in
  cm_hookup.get_next_connection both_pols is_active_spec [fe_to_n_input] 10
    "down" "FE1" "A" "e" = Ok (Some fe_to_n_input) /\
  next_connection (globals_after_setup "parts_hera") [fe_to_n_input] current
    (mkPart "FE1" "front-end") [mkPart "CBL2" "cable-rfof"]
  = Ok (Some fe_to_n_input) /\
  first_char (far_side_port Down fe_to_n_input) <> pol current /\
  first_char (this_side_port Down fe_to_n_input) <> pol current /\
  (forall group, group ∈ [ports ["e"]; ports ["n"]] ->
                 Some (port current) ∉ group).
Proof.
  split; [vm_compute; reflexivity|].
  split; [vm_compute; reflexivity|].
  split; [discriminate|]. split; [discriminate|].
  intros group Hgroup.
  repeat (apply elem_of_cons in Hgroup as [-> | Hgroup];
          [vm_compute; intros H;
           repeat (apply elem_of_cons in H as [H | H]; [discriminate|]);
           inversion H|]).
  inversion Hgroup.
Qed.

(** C4, amended.  When exactly one candidate remains at a step it is accepted
    without a check against the port sets of the topology:
    - [Hookup.__get_next_connection] accepts it unless the far part's name
      begins with [PAM] and the first character of the far-side port differs
      from the polarization (case-insensitively);
    - [cm_sysdef.next_connection] accepts it exactly when its far part has
      the next part type of the path. *)
Theorem single_candidate_acceptance :
  (forall (pols : list string) (is_active : Z -> Z -> option Z -> bool)
          (session : list Connection) (at_date : Z)
          (part rev pol : string) (opc : Connection),
     (cm_hookup.options_up is_active session at_date part rev = [opc] ->
      upstream_output_port opc <> "" ->
      cm_hookup.get_next_connection pols is_active session at_date
        "up" part rev pol
      = Ok (if pam_port_mismatch (upstream_part opc)
                 (upstream_output_port opc) pol
            then None else Some opc)) /\
     (cm_hookup.options_down is_active session at_date part rev = [opc] ->
      downstream_input_port opc <> "" ->
      cm_hookup.get_next_connection pols is_active session at_date
        "down" part rev pol
      = Ok (if pam_port_mismatch (downstream_part opc)
                 (downstream_input_port opc) pol
            then None else Some opc))) /\
  (forall (g : Globals) (current : Current) (A Bi : Part) (opc : Connection)
          (ht : string) (defs : gmap string PartTypeInfo)
          (info : PartTypeInfo) (full_path single : list string)
          (next_part_type : string) (next_info : PartTypeInfo)
          (allowed : option (list (option string))),
     this_hookup_type g = Some ht ->
     g_port_def g !! ht = Some defs ->
     defs !! part_type A = Some info ->
     g_full_connection_path g !! ht = Some full_path ->
     g_single_pol_labeled_parts g !! ht = Some single ->
     0 <= position info + D_arrow (direction current) ->
     full_path !! Z.to_nat (position info + D_arrow (direction current))
     = Some next_part_type ->
     defs !! next_part_type = Some next_info ->
     hpn A <> "" ->
     hpn Bi <> "" ->
     allowed_bound g current
       (side_ports next_info (D_this (direction current))) allowed ->
     next_connection g [opc] current A [Bi]
     = Ok (if String.eqb (part_type Bi) next_part_type
           then Some opc else None)).
Proof.
  split.
  - intros pols is_active session at_date part rev pol opc. split.
    + intros Hopts Hport. unfold cm_hookup.get_next_connection.
      change (String.eqb (lower "up") "up") with true. cbv iota.
      rewrite Hopts. unfold cm_hookup.check_option.
      change (String.eqb (lower "up") "up") with true. cbv iota.
      change (length [opc]) with 1%nat.
      rewrite (check_next_port_single _ _ _ _ Hport). simpl.
      destruct (pam_port_mismatch _ _ _); reflexivity.
    + intros Hopts Hport. unfold cm_hookup.get_next_connection.
      change (String.eqb (lower "down") "up") with false.
      change (String.eqb (lower "down") "down") with true. cbv iota.
      rewrite Hopts. unfold cm_hookup.check_option.
      change (String.eqb (lower "down") "up") with false. cbv iota.
      change (length [opc]) with 1%nat.
      rewrite (check_next_port_single _ _ _ _ Hport). simpl.
      destruct (pam_port_mismatch _ _ _); reflexivity.
  - intros g current A Bi opc ht defs info full_path single next_part_type
      next_info allowed Hht Hdefs Hinfo Hpath Hsingle Hpos Hnext Hnext_info
      HA HBi Hallowed.
    exact (next_connection_single g current A [Bi] [opc] ht defs info
             full_path single Hht Hdefs Hinfo Hpath Hsingle next_part_type
             next_info Hpos Hnext Hnext_info opc Bi allowed eq_refl eq_refl
             HA HBi Hallowed).
Qed.

Lemma single_candidate_acceptance_witness :
  cm_hookup.get_next_connection both_pols is_active_spec [fe_to_n_input] 10
    "down" "FE1" "A" "e" = Ok (Some fe_to_n_input) /\
  next_connection (globals_after_setup "parts_hera") [fe_to_n_input]
    (mkCurrent Down "e" "bogus") (mkPart "FE1" "front-end")
    [mkPart "CBL2" "cable-rfof"]
  = Ok (Some fe_to_n_input).
Proof.
  destruct single_candidate_acceptance as [Hhookup Hsysdef]. split.
  - destruct (Hhookup both_pols is_active_spec [fe_to_n_input] 10
                "FE1" "A" "e" fe_to_n_input) as [_ Hdown].
    rewrite Hdown; [reflexivity | vm_compute; reflexivity | discriminate].
  - rewrite (Hsysdef (globals_after_setup "parts_hera")
               (mkCurrent Down "e" "bogus") (mkPart "FE1" "front-end")
               (mkPart "CBL2" "cable-rfof") fe_to_n_input
               "parts_hera" (list_to_map parts_hera)
               (mkInfo [ports ["input"]] [ports ["e"]; ports ["n"]] 3)
               ["station"; "antenna"; "feed"; "front-end"; "cable-rfof";
                "post-amp"; "snap"; "node"]
               [] "cable-rfof"
               (mkInfo [ports ["ea"]; ports ["na"]]
                       [ports ["eb"]; ports ["nb"]] 4)
               (Some (ports ["ea"]))).
    + reflexivity.
    + reflexivity.
    + vm_compute; reflexivity.
    + vm_compute; reflexivity.
    + vm_compute; reflexivity.
    + vm_compute; reflexivity.
    + simpl; lia.
    + reflexivity.
    + vm_compute; reflexivity.
    + discriminate.
    + discriminate.
    + split; [reflexivity|]. exists 0%nat. split; [vm_compute|]; reflexivity.
Defined.

(** The one case in which a single candidate is turned down by the
    traversal: the far part is a PAM and the port is of the other
    polarization. *)
Example single_candidate_pam :
  let to_pam := conn "CBL1" "eb" "PAM75" "na" 0 None in
  cm_hookup.get_next_connection both_pols is_active_spec [to_pam] 10
    "down" "CBL1" "A" "e" = Ok None /\
  cm_hookup.get_next_connection both_pols is_active_spec [to_pam] 10
    "down" "CBL1" "A" "n" = Ok (Some to_pam).
Proof. split; vm_compute; reflexivity. Qed.

(** ** The traversal of [cm_hookup] *)

(** C1.  On the cyclic connection data [X1 -> Y1 -> X1] the downstream walk
    from [X1] accepts a connection at every step and never returns: whatever
    the number of nested calls allowed, the call at that depth is still going
    on.  [__get_next_connection] does not consult the path of the topology,
    so no boundary stops the walk. *)
Theorem recursive_go_cycle_never_returns :
  forall (fuel : nat) (legs : cm_hookup.Legs),
    cm_hookup.recursive_go both_pols is_active_spec cyclic_session 10 fuel
      "down" "X1" "A" "e" legs = None.
Proof.
  assert (Hboth : forall fuel legs,
    cm_hookup.recursive_go both_pols is_active_spec cyclic_session 10 fuel
      "down" "X1" "A" "e" legs = None /\
    cm_hookup.recursive_go both_pols is_active_spec cyclic_session 10 fuel
      "down" "Y1" "A" "e" legs = None).
  { induction fuel as [|fuel IH]; intros legs; [split; reflexivity|].
    split.
    - change (cm_hookup.recursive_go both_pols is_active_spec cyclic_session
                10 fuel "down" "Y1" "A" "e"
                (cm_hookup.mkLegs (cm_hookup.upstream legs)
                   (cm_hookup.downstream legs
                      ++ [conn "X1" "e" "Y1" "ea" 0 None])) = None).
      apply IH.
    - change (cm_hookup.recursive_go both_pols is_active_spec cyclic_session
                10 fuel "down" "X1" "A" "e"
                (cm_hookup.mkLegs (cm_hookup.upstream legs)
                   (cm_hookup.downstream legs
                      ++ [conn "Y1" "eb" "X1" "ea" 0 None])) = None).
      apply IH. }
  intros fuel legs. apply Hboth.
Qed.

(** On the same part names without the back edge the walk does return, after
    one step. *)
Example recursive_go_without_cycle :
  cm_hookup.recursive_go both_pols is_active_spec
    [conn "X1" "e" "Y1" "ea" 0 None] 10 5 "down" "X1" "A" "e"
    (cm_hookup.mkLegs [] [])
  = Some (Ok (cm_hookup.mkLegs [] [conn "X1" "e" "Y1" "ea" 0 None])).
Proof. vm_compute. reflexivity. Qed.

(** C5.  The walk from the front-end [FE1] resolves the chain
    [FE1 -> CBL1 -> CBL2], in which the part type [cable-rfof] occurs twice:
    the step from a cable to another cable is accepted.  The selector of
    [cm_sysdef] turns the same step down, since the far part does not have
    the next part type of the path. *)
Theorem follow_hookup_stream_repeats_part_type :
  cm_hookup.follow_hookup_stream both_pols is_active_spec two_cables_session
    10 5 "FE1" "A" "e"
  = Some (Ok [fe_to_cable; cable_to_cable]) /\
  cm_hookup.chain_part_types two_cables_part_type
    [fe_to_cable; cable_to_cable]
  = ["front-end"; "cable-rfof"; "cable-rfof"] /\
  ~ NoDup (cm_hookup.chain_part_types two_cables_part_type
             [fe_to_cable; cable_to_cable]) /\
  next_connection (globals_after_setup "parts_hera") [cable_to_cable]
    (mkCurrent Down "e" "eb") (mkPart "CBL1" "cable-rfof")
    [mkPart "CBL2" "cable-rfof"] = Ok None.
Proof.
  split; [vm_compute; reflexivity|].
  split; [reflexivity|].
  split; [|vm_compute; reflexivity].
  change (cm_hookup.chain_part_types two_cables_part_type
            [fe_to_cable; cable_to_cable])
    with ["front-end"; "cable-rfof"; "cable-rfof"].
  intros Hnodup. apply NoDup_cons in Hnodup as [_ Hnodup].
  apply NoDup_cons in Hnodup as [Hnotin _].
  apply Hnotin. apply list_elem_of_here.
Qed.

(** ** Overlapping revisions *)

(** [cm_health.check_for_overlap] holds exactly when each window ends after
    the other one starts, an open window never ending. *)
Lemma check_for_overlap_spec (l0 l1 : Z) (h0 h1 : option Z) :
  cm_health.check_for_overlap (l0, h0) (l1, h1) = true <->
  (match h0 with None => True | Some t => l1 < t end) /\
  (match h1 with None => True | Some t => l0 < t end).
Proof.
  unfold cm_health.check_for_overlap, cm_health.maxx. simpl.
  rewrite andb_true_iff, !Z.gtb_lt.
  destruct h0 as [t0|], h1 as [t1|]; simpl; lia.
Qed.

(** The check of [cm_health] on the revisions of one part: a pair is reported
    exactly when its two windows overlap. *)
Lemma health_overlapping_spec (r1 r2 : Revision) :
  cm_health.overlapping (fun e => e) (r1, r2) = true <->
  (match ended r1 with None => True | Some t => started r2 < t end) /\
  (match ended r2 with None => True | Some t => started r1 < t end).
Proof. unfold cm_health.overlapping. simpl. apply check_for_overlap_spec. Qed.

(** C8.  [cm_health] reports the windows [100, 200] and [150, 300] as
    overlapping and the touching windows [100, 200] and [200, 300] as not
    overlapping.  [cm_revisions.check_part_for_overlapping_revisions] does
    not: it reports nothing for [100, 200] and [150, 300], and for the
    disjoint windows [100, 200] and [250, 300] it finds an "overlap" and then
    raises [TypeError] in its call of [show_revisions]. *)
Theorem overlapping_revisions_checks :
  cm_health.check_for_overlap (100, Some 200) (150, Some 300) = true /\
  cm_health.check_for_overlap (100, Some 200) (200, Some 300) = false /\
  cm_health.check_part_for_overlapping_revisions (fun e => e) "P"
    [rev_100_200; rev_150_300]
  = ([(rev_150_300, rev_100_200)],
     ["B and A are overlapping revisions of part P"]) /\
  cm_health.check_part_for_overlapping_revisions (fun e => e) "P"
    [rev_100_200; rev_200_300] = ([], []) /\
  cm_revisions.check_part_for_overlapping_revisions 1000000
    [rev_100_200; rev_150_300] = Ok [] /\
  cm_revisions.overlap_loops 1000000 [rev_100_200; rev_250_300]
  = Ok ([rev_100_200; rev_250_300], [(0%nat, 1%nat)]) /\
  cm_revisions.check_part_for_overlapping_revisions 1000000
    [rev_100_200; rev_250_300] = Raise TypeError.
Proof. repeat split; vm_compute; reflexivity. Qed.

(** ** Active revisions *)

Lemma two_distinct_elements {V : Type} (l : list V) (x y : V) :
  x ∈ l -> y ∈ l -> x <> y -> (1 < length l)%nat.
Proof.
  intros Hx Hy Hne.
  destruct l as [|a [|b rest]]; simpl; [inversion Hx | | lia].
  apply list_elem_of_singleton in Hx, Hy. congruence.
Qed.

Lemma get_all_revisions_elem (hpn r : string)
  (revisions : gmap string (Z * option Z)) (s : Z) (e : option Z) :
  revisions !! r = Some (s, e) ->
  mkRevision hpn r s e ∈ cm_revisions.get_all_revisions hpn revisions.
Proof.
  intros Hr. unfold cm_revisions.get_all_revisions.
  apply list_elem_of_omap. exists r. split.
  - unfold cm_revisions.sorted_keys. rewrite merge_sort_Permutation.
    apply list_elem_of_fmap. exists (r, (s, e)). split; [reflexivity|].
    apply elem_of_map_to_list, Hr.
  - rewrite Hr. reflexivity.
Qed.

(** With two revisions of a part active at the as-of date,
    [get_active_revision] raises [NameError] and returns nothing. *)
Lemma get_active_revision_several
  (is_active : Z -> Z -> option Z -> bool) (hpn : string) (at_date : Z)
  (revisions : gmap string (Z * option Z))
  (r1 r2 : string) (s1 s2 : Z) (e1 e2 : option Z) :
  r1 <> r2 ->
  revisions !! r1 = Some (s1, e1) ->
  revisions !! r2 = Some (s2, e2) ->
  is_active at_date s1 e1 = true ->
  is_active at_date s2 e2 = true ->
  cm_revisions.get_active_revision is_active hpn at_date revisions
  = Raise NameError.
Proof.
  intros Hne H1 H2 Ha1 Ha2. unfold cm_revisions.get_active_revision.
  assert (Hlen : (1 < length (cm_revisions.active_revisions is_active hpn
                                at_date revisions))%nat).
  { apply (two_distinct_elements _ (mkRevision hpn r1 s1 e1)
             (mkRevision hpn r2 s2 e2)).
    - apply list_elem_of_In, filter_In. split; [|exact Ha1].
      apply list_elem_of_In, get_all_revisions_elem, H1.
    - apply list_elem_of_In, filter_In. split; [|exact Ha2].
      apply list_elem_of_In, get_all_revisions_elem, H2.
    - intros Heq. apply Hne. congruence. }
  apply Nat.ltb_lt in Hlen. rewrite Hlen. reflexivity.
Qed.

(** With at most one active revision the list of active revisions is
    returned. *)
Lemma get_active_revision_at_most_one
  (is_active : Z -> Z -> option Z -> bool) (hpn : string) (at_date : Z)
  (revisions : gmap string (Z * option Z)) :
  (length (cm_revisions.active_revisions is_active hpn at_date revisions)
   <= 1)%nat ->
  cm_revisions.get_active_revision is_active hpn at_date revisions
  = Ok (cm_revisions.active_revisions is_active hpn at_date revisions).
Proof.
  intros Hlen. unfold cm_revisions.get_active_revision.
  destruct (Nat.ltb_spec 1 (length (cm_revisions.active_revisions is_active
                                      hpn at_date revisions)));
    [lia | reflexivity].
Qed.

(** C9.  A part with two open revisions [A] and [B]: both are active at the
    as-of date 100, and [get_active_revision] raises [NameError] instead of
    returning the two revisions with a warning; [get_last_revision] on the
    same data returns both revisions and one warning. *)
Theorem get_active_revision_two_open :
  cm_revisions.active_revisions is_active_spec "P" 100 two_open_revisions
  = [mkRevision "P" "A" 0 None; mkRevision "P" "B" 50 None] /\
  cm_revisions.get_active_revision is_active_spec "P" 100 two_open_revisions
  = Raise NameError /\
  cm_revisions.get_last_revision (-1) 1000000 "P" two_open_revisions
  = Ok ([mkRevision "P" "A" 0 None; mkRevision "P" "B" 50 None],
        ["Warning:  P has multiple open revisions.  Returning all open."]).
Proof. repeat split; vm_compute; reflexivity. Qed.

(** * Further properties of the code *)

(** ** The traversal: what a walk is made of *)

Section TraversalFacts.
Variable pols : list string.
Variable is_active : Z -> Z -> option Z -> bool.
Variable session : list Connection.
Variable at_date : Z.

Lemma options_up_elem (part rev : string) (c : Connection) :
  c ∈ cm_hookup.options_up is_active session at_date part rev ->
  active_row is_active session at_date c /\
  same_part (downstream_part c) (down_part_rev c) part rev.
Proof.
  unfold cm_hookup.options_up. intros Hc.
  apply list_elem_of_In, filter_In in Hc as [Hin Hcond].
  apply andb_true_iff in Hcond as [Hcond Hact].
  apply andb_true_iff in Hcond as [Hpart Hrev].
  apply String.eqb_eq in Hpart, Hrev.
  split; [split; [apply list_elem_of_In, Hin | exact Hact]|].
  split; assumption.
Qed.

Lemma options_down_elem (part rev : string) (c : Connection) :
  c ∈ cm_hookup.options_down is_active session at_date part rev ->
  active_row is_active session at_date c /\
  same_part (upstream_part c) (up_part_rev c) part rev.
Proof.
  unfold cm_hookup.options_down. intros Hc.
  apply list_elem_of_In, filter_In in Hc as [Hin Hcond].
  apply andb_true_iff in Hcond as [Hcond Hact].
  apply andb_true_iff in Hcond as [Hpart Hrev].
  apply String.eqb_eq in Hpart, Hrev.
  split; [split; [apply list_elem_of_In, Hin | exact Hact]|].
  split; assumption.
Qed.

Lemma first_passing_elem (direction pol : string) (lenopt : nat)
  (options : list Connection) (c : Connection) :
  cm_hookup.first_passing pols direction pol lenopt options = Ok (Some c) ->
  c ∈ options.
Proof.
  induction options as [|opc rest IH]; simpl; [discriminate|].
  intros H. apply bind_ok in H as (ok & _ & H). destruct ok.
  - injection H as <-. apply list_elem_of_here.
  - apply list_elem_of_further, IH, H.
Qed.

(** What [__get_next_connection] returns is one of the options of the
    direction asked for. *)
Lemma get_next_connection_option (direction part rev pol : string)
  (c : Connection) :
  cm_hookup.get_next_connection pols is_active session at_date
    direction part rev pol = Ok (Some c) ->
  (lower direction = "up" /\
   c ∈ cm_hookup.options_up is_active session at_date part rev) \/
  (lower direction = "down" /\
   c ∈ cm_hookup.options_down is_active session at_date part rev).
Proof.
  unfold cm_hookup.get_next_connection.
  destruct (String.eqb (lower direction) "up") eqn:Hup.
  - apply String.eqb_eq in Hup. intros H. left. split; [exact Hup|].
    destruct (cm_hookup.options_up _ _ _ _ _) as [|o1 [|o2 rest]];
      [discriminate | |].
    + apply bind_ok in H as (ok & _ & H).
      destruct ok; [|discriminate]. injection H as <-.
      apply list_elem_of_here.
    + eapply first_passing_elem, H.
  - destruct (String.eqb (lower direction) "down") eqn:Hdown;
      [|discriminate].
    apply String.eqb_eq in Hdown. intros H. right. split; [exact Hdown|].
    destruct (cm_hookup.options_down _ _ _ _ _) as [|o1 [|o2 rest]];
      [discriminate | |].
    + apply bind_ok in H as (ok & _ & H).
      destruct ok; [|discriminate]. injection H as <-.
      apply list_elem_of_here.
    + eapply first_passing_elem, H.
Qed.

(** Whatever [__get_next_connection] returns is a row of the
    connections table that is active at the as-of date and is incident on
    the queried part and revision (compared without regard to case): on its
    downstream side when going up, on its upstream side when going down. *)
Lemma get_next_connection_incident (direction part rev pol : string)
  (c : Connection) :
  cm_hookup.get_next_connection pols is_active session at_date
    direction part rev pol = Ok (Some c) ->
  active_row is_active session at_date c /\
  ((lower direction = "up" /\
    same_part (downstream_part c) (down_part_rev c) part rev) \/
   (lower direction = "down" /\
    same_part (upstream_part c) (up_part_rev c) part rev)).
Proof.
  intros H. apply get_next_connection_option in H as [[Hd Hc] | [Hd Hc]].
  - apply options_up_elem in Hc as [Hrow Hsame].
    split; [exact Hrow | left; split; assumption].
  - apply options_down_elem in Hc as [Hrow Hsame].
    split; [exact Hrow | right; split; assumption].
Qed.

(** A walk downstream that returns: the upstream list is untouched, the
    connections appended form a walk from the starting part, each is an
    active row, and at the end of the walk there is no next connection. *)
Lemma recursive_go_down_spec (pol : string) (fuel : nat) :
  forall (part rev : string) (legs legs' : cm_hookup.Legs),
  cm_hookup.recursive_go pols is_active session at_date fuel
    "down" part rev pol legs = Some (Ok legs') ->
  cm_hookup.upstream legs' = cm_hookup.upstream legs /\
  exists added,
    cm_hookup.downstream legs' = cm_hookup.downstream legs ++ added /\
    linked_down part rev added /\
    Forall (active_row is_active session at_date) added /\
    cm_hookup.get_next_connection pols is_active session at_date "down"
      (end_of_down part rev added).1 (end_of_down part rev added).2 pol
    = Ok None.
Proof.
  induction fuel as [|fuel IH]; intros part rev legs legs' H;
    [discriminate|].
  simpl in H.
  destruct (cm_hookup.get_next_connection pols is_active session at_date
              "down" part rev pol) as [[c|]|e] eqn:Hnext.
  - change (String.eqb "down" "up") with false in H. cbv iota in H.
    apply IH in H as (Hup & added & Hdown & Hlinked & Hrows & Hend).
    simpl in Hup, Hdown. split; [exact Hup|].
    exists (c :: added).
    apply get_next_connection_incident in Hnext
      as (Hrow & [[Hd _] | [_ Hsame]]); [discriminate Hd|].
    split; [rewrite Hdown, <- app_assoc; reflexivity|].
    split; [split; assumption|].
    split; [constructor; assumption|].
    unfold end_of_down in *. rewrite last_cons.
    destruct (last added); exact Hend.
  - injection H as <-. split; [reflexivity|]. exists [].
    rewrite app_nil_r. repeat split; [constructor | exact Hnext].
  - discriminate.
Qed.

Lemma recursive_go_up_spec (pol : string) (fuel : nat) :
  forall (part rev : string) (legs legs' : cm_hookup.Legs),
  cm_hookup.recursive_go pols is_active session at_date fuel
    "up" part rev pol legs = Some (Ok legs') ->
  cm_hookup.downstream legs' = cm_hookup.downstream legs /\
  exists added,
    cm_hookup.upstream legs' = cm_hookup.upstream legs ++ added /\
    linked_up part rev added /\
    Forall (active_row is_active session at_date) added /\
    cm_hookup.get_next_connection pols is_active session at_date "up"
      (end_of_up part rev added).1 (end_of_up part rev added).2 pol
    = Ok None.
Proof.
  induction fuel as [|fuel IH]; intros part rev legs legs' H;
    [discriminate|].
  simpl in H.
  destruct (cm_hookup.get_next_connection pols is_active session at_date
              "up" part rev pol) as [[c|]|e] eqn:Hnext.
  - change (String.eqb "up" "up") with true in H. cbv iota in H.
    apply IH in H as (Hdown & added & Hup & Hlinked & Hrows & Hend).
    simpl in Hup, Hdown. split; [exact Hdown|].
    exists (c :: added).
    apply get_next_connection_incident in Hnext
      as (Hrow & [[_ Hsame] | [Hd _]]); [|discriminate Hd].
    split; [rewrite Hup, <- app_assoc; reflexivity|].
    split; [split; assumption|].
    split; [constructor; assumption|].
    unfold end_of_up in *. rewrite last_cons.
    destruct (last added); exact Hend.
  - injection H as <-. split; [reflexivity|]. exists [].
    rewrite app_nil_r. repeat split; [constructor | exact Hnext].
  - discriminate.
Qed.
End TraversalFacts.

Lemma same_part_sym (p1 r1 p2 r2 : string) :
  same_part p1 r1 p2 r2 -> same_part p2 r2 p1 r1.
Proof. intros [Hp Hr]. split; congruence. Qed.

Lemma same_part_trans (p1 r1 p2 r2 p3 r3 : string) :
  same_part p1 r1 p2 r2 -> same_part p2 r2 p3 r3 -> same_part p1 r1 p3 r3.
Proof. intros [Hp Hr] [Hp' Hr']. split; congruence. Qed.

Lemma contiguous_app (l1 l2 : list Connection) :
  contiguous l1 -> contiguous l2 ->
  (forall c c', last l1 = Some c -> head l2 = Some c' ->
     same_part (downstream_part c) (down_part_rev c)
               (upstream_part c') (up_part_rev c')) ->
  contiguous (l1 ++ l2).
Proof.
  intros H1 H2 Hlink. induction l1 as [|c rest IH]; [exact H2|].
  simpl in H1. destruct H1 as [Hhead Hrest].
  change ((c :: rest) ++ l2) with (c :: (rest ++ l2)).
  destruct rest as [|c' rest'].
  - simpl. split; [|exact H2].
    destruct l2 as [|d l2']; [exact I|].
    apply Hlink; reflexivity.
  - split; [exact Hhead|].
    apply IH; [exact Hrest|].
    intros x y Hx Hy. apply Hlink; [|exact Hy].
    rewrite last_cons. rewrite Hx. reflexivity.
Qed.

Lemma linked_down_contiguous (l : list Connection) :
  forall part rev, linked_down part rev l -> contiguous l.
Proof.
  induction l as [|c rest IH]; intros part rev H; [exact I|].
  destruct H as [_ Hrest]. split; [|eapply IH, Hrest].
  destruct rest as [|c' rest']; [exact I|].
  destruct Hrest as [Hsame _]. apply same_part_sym, Hsame.
Qed.

Lemma linked_up_contiguous (l : list Connection) :
  forall part rev, linked_up part rev l -> contiguous (reverse l).
Proof.
  induction l as [|c rest IH]; intros part rev H; [exact I|].
  destruct H as [_ Hrest]. rewrite reverse_cons.
  apply contiguous_app; [eapply IH, Hrest | split; exact I |].
  intros x y Hx Hy. injection Hy as <-.
  rewrite last_reverse in Hx.
  destruct rest as [|c' rest']; [discriminate|].
  injection Hx as <-. destruct Hrest as [Hsame _]. exact Hsame.
Qed.

(** X1.  Whatever [__get_next_connection] returns is a row of the
    connections table that is active at the as-of date and is incident on
    the queried part and revision (names compared without regard to case):
    on its downstream side when going up, on its upstream side when going
    down. *)
Theorem get_next_connection_sound (pols : list string)
  (is_active : Z -> Z -> option Z -> bool) (session : list Connection)
  (at_date : Z) (direction part rev pol : string) (c : Connection) :
  cm_hookup.get_next_connection pols is_active session at_date
    direction part rev pol = Ok (Some c) ->
  active_row is_active session at_date c /\
  ((lower direction = "up" /\
    same_part (downstream_part c) (down_part_rev c) part rev) \/
   (lower direction = "down" /\
    same_part (upstream_part c) (up_part_rev c) part rev)).
Proof. apply get_next_connection_incident. Qed.

Lemma get_next_connection_sound_witness :
  active_row is_active_spec two_cables_session 10 cable_to_cable /\
  ((lower "down" = "up" /\
    same_part (downstream_part cable_to_cable) (down_part_rev cable_to_cable)
      "cbl1" "a") \/
   (lower "down" = "down" /\
    same_part (upstream_part cable_to_cable) (up_part_rev cable_to_cable)
      "cbl1" "a")).
Proof.
  apply (get_next_connection_sound both_pols is_active_spec
           two_cables_session 10 "down" "cbl1" "a" "e" cable_to_cable).
  vm_compute. reflexivity.
Defined.

(** X2.  A chain that [__follow_hookup_stream] returns consists of rows of
    the connections table that are active at the as-of date, and it is
    contiguous: every connection ends at the part and revision at which the
    next one begins. *)
Theorem follow_hookup_stream_contiguous (pols : list string)
  (is_active : Z -> Z -> option Z -> bool) (session : list Connection)
  (at_date : Z) (fuel : nat) (part rev pol : string)
  (hu : list Connection) :
  cm_hookup.follow_hookup_stream pols is_active session at_date fuel
    part rev pol = Some (Ok hu) ->
  contiguous hu /\ Forall (active_row is_active session at_date) hu.
Proof.
  unfold cm_hookup.follow_hookup_stream. intros H.
  destruct (cm_hookup.recursive_go pols is_active session at_date fuel
              "up" part rev pol _) as [[legs1|e]|] eqn:Hup;
    [|discriminate..].
  destruct (cm_hookup.recursive_go pols is_active session at_date fuel
              "down" part rev pol legs1) as [[legs2|e]|] eqn:Hdown;
    [|discriminate..].
  injection H as <-.
  apply recursive_go_up_spec in Hup
    as (Hd1 & ups & Hu1 & Hlinked_up & Hrows_up & _).
  apply recursive_go_down_spec in Hdown
    as (Hu2 & downs & Hd2 & Hlinked_down & Hrows_down & _).
  simpl in Hd1, Hu1. rewrite Hu2, Hu1, Hd2, Hd1. simpl. split.
  - apply contiguous_app.
    + eapply linked_up_contiguous, Hlinked_up.
    + eapply linked_down_contiguous, Hlinked_down.
    + intros c c' Hc Hc'. rewrite last_reverse in Hc.
      destruct ups as [|u ups']; [discriminate|]. injection Hc as <-.
      destruct downs as [|d downs']; [discriminate|]. injection Hc' as <-.
      destruct Hlinked_up as [Hu _]. destruct Hlinked_down as [Hd _].
      eapply same_part_trans; [exact Hu | apply same_part_sym, Hd].
  - apply Forall_app. split; [|exact Hrows_down].
    apply Forall_reverse, Hrows_up.
Qed.

Lemma follow_hookup_stream_contiguous_witness :
  contiguous [fe_to_cable; cable_to_cable] /\
  Forall (active_row is_active_spec two_cables_session 10)
    [fe_to_cable; cable_to_cable].
Proof.
  apply (follow_hookup_stream_contiguous both_pols is_active_spec
           two_cables_session 10 5 "CBL1" "A" "e").
  vm_compute. reflexivity.
Defined.

(** X3.  A chain that [__follow_hookup_stream] returns cannot be extended:
    it is a walk upstream from the seed, reversed, followed by a walk
    downstream from the seed, and [__get_next_connection] finds no next
    connection at the part where either walk ends. *)
Theorem follow_hookup_stream_maximal (pols : list string)
  (is_active : Z -> Z -> option Z -> bool) (session : list Connection)
  (at_date : Z) (fuel : nat) (part rev pol : string)
  (hu : list Connection) :
  cm_hookup.follow_hookup_stream pols is_active session at_date fuel
    part rev pol = Some (Ok hu) ->
  exists ups downs,
    hu = reverse ups ++ downs /\
    linked_up part rev ups /\ linked_down part rev downs /\
    cm_hookup.get_next_connection pols is_active session at_date "up"
      (end_of_up part rev ups).1 (end_of_up part rev ups).2 pol = Ok None /\
    cm_hookup.get_next_connection pols is_active session at_date "down"
      (end_of_down part rev downs).1 (end_of_down part rev downs).2 pol
    = Ok None.
Proof.
  unfold cm_hookup.follow_hookup_stream. intros H.
  destruct (cm_hookup.recursive_go pols is_active session at_date fuel
              "up" part rev pol _) as [[legs1|e]|] eqn:Hup;
    [|discriminate..].
  destruct (cm_hookup.recursive_go pols is_active session at_date fuel
              "down" part rev pol legs1) as [[legs2|e]|] eqn:Hdown;
    [|discriminate..].
  injection H as <-.
  apply recursive_go_up_spec in Hup
    as (Hd1 & ups & Hu1 & Hlinked_up & _ & Hend_up).
  apply recursive_go_down_spec in Hdown
    as (Hu2 & downs & Hd2 & Hlinked_down & _ & Hend_down).
  simpl in Hd1, Hu1. exists ups, downs.
  rewrite Hu2, Hu1, Hd2, Hd1. simpl. auto.
Qed.

Lemma follow_hookup_stream_maximal_witness :
  exists ups downs,
    [fe_to_cable; cable_to_cable] = reverse ups ++ downs /\
    linked_up "CBL1" "A" ups /\ linked_down "CBL1" "A" downs /\
    cm_hookup.get_next_connection both_pols is_active_spec
      two_cables_session 10 "up"
      (end_of_up "CBL1" "A" ups).1 (end_of_up "CBL1" "A" ups).2 "e"
    = Ok None /\
    cm_hookup.get_next_connection both_pols is_active_spec
      two_cables_session 10 "down"
      (end_of_down "CBL1" "A" downs).1 (end_of_down "CBL1" "A" downs).2 "e"
    = Ok None.
Proof.
  apply (follow_hookup_stream_maximal both_pols is_active_spec
           two_cables_session 10 5 "CBL1" "A" "e").
  vm_compute. reflexivity.
Defined.

(** X4.  At a branch point (two or more active options) a polarization that
    is not one of [both_pols] makes [__get_next_connection] raise
    [ValueError]; with no option at all the result is [None], whatever the
    polarization. *)
Theorem get_next_connection_invalid_pol (pols : list string)
  (is_active : Z -> Z -> option Z -> bool) (session : list Connection)
  (at_date : Z) (part rev pol : string) :
  lower pol ∉ pols ->
  ((2 <= length (cm_hookup.options_up is_active session at_date part rev))%nat
   -> cm_hookup.get_next_connection pols is_active session at_date
        "up" part rev pol = Raise ValueError) /\
  ((2 <= length (cm_hookup.options_down is_active session at_date part rev))%nat
   -> cm_hookup.get_next_connection pols is_active session at_date
        "down" part rev pol = Raise ValueError) /\
  (cm_hookup.options_up is_active session at_date part rev = [] ->
   cm_hookup.get_next_connection pols is_active session at_date
     "up" part rev pol = Ok None) /\
  (cm_hookup.options_down is_active session at_date part rev = [] ->
   cm_hookup.get_next_connection pols is_active session at_date
     "down" part rev pol = Ok None).
Proof.
  intros Hpol.
  assert (Hcheck : forall next_part option_port n,
            cm_hookup.check_next_port pols next_part option_port pol
              (S (S n)) = Raise ValueError).
  { intros next_part option_port n. unfold cm_hookup.check_next_port.
    change (S (S n) =? 1)%nat with false. cbv iota.
    rewrite (bool_decide_eq_false_2 _ Hpol). reflexivity. }
  unfold cm_hookup.get_next_connection.
  change (String.eqb (lower "up") "up") with true.
  change (String.eqb (lower "down") "up") with false.
  change (String.eqb (lower "down") "down") with true. cbv iota.
  repeat split.
  - destruct (cm_hookup.options_up _ _ _ _ _) as [|o1 [|o2 rest]];
      simpl; [lia | lia |]. intros _.
    unfold cm_hookup.check_option.
    change (String.eqb (lower "up") "up") with true. cbv iota.
    rewrite Hcheck. reflexivity.
  - destruct (cm_hookup.options_down _ _ _ _ _) as [|o1 [|o2 rest]];
      simpl; [lia | lia |]. intros _.
    unfold cm_hookup.check_option.
    change (String.eqb (lower "down") "up") with false. cbv iota.
    rewrite Hcheck. reflexivity.
  - intros ->. reflexivity.
  - intros ->. reflexivity.
Qed.

Lemma get_next_connection_invalid_pol_witness :
  cm_hookup.get_next_connection both_pols is_active_spec
    [conn "FE1" "e" "CBL1" "ea" 0 None; conn "FE1" "n" "CBL2" "na" 0 None]
    10 "down" "FE1" "A" "x" = Raise ValueError.
Proof.
  destruct (get_next_connection_invalid_pol both_pols is_active_spec
              [conn "FE1" "e" "CBL1" "ea" 0 None;
               conn "FE1" "n" "CBL2" "na" 0 None] 10 "FE1" "A" "x")
    as (_ & Hdown & _).
  - vm_compute. intros H.
    repeat (apply elem_of_cons in H as [H | H]; [discriminate|]).
    inversion H.
  - apply Hdown. vm_compute. lia.
Defined.

(** ** The selector at the ends of the path *)

(** X5.  The boundary rule of [next_connection]: for a part type registered
    in the hookup type chosen by [setup], a next position before the start
    or past the end of the path gives [None], whatever options are offered
    (going up from the first part type, going down from the last one). *)
Theorem next_connection_boundary (g : Globals) (current : Current)
  (A : Part) (B : list Part) (connection_options : list Connection)
  (ht : string) (defs : gmap string PartTypeInfo) (info : PartTypeInfo)
  (full_path : list string) :
  this_hookup_type g = Some ht ->
  g_port_def g !! ht = Some defs ->
  defs !! part_type A = Some info ->
  g_full_connection_path g !! ht = Some full_path ->
  position info + D_arrow (direction current) < 0 \/
  Z.of_nat (length full_path) <= position info + D_arrow (direction current) ->
  next_connection g connection_options current A B = Ok None.
Proof.
  intros Hht Hdefs Hinfo Hpath Hout.
  exact (next_connection_outside_path g current A B connection_options
           ht defs info full_path Hht Hdefs Hinfo Hpath Hout).
Qed.

Lemma next_connection_boundary_witness :
  next_connection (globals_after_setup "parts_hera") station_options
    (mkCurrent Down "e" "loc1") (mkPart "N1" "node") station_far_parts
  = Ok None.
Proof.
  apply (next_connection_boundary (globals_after_setup "parts_hera")
           (mkCurrent Down "e" "loc1") (mkPart "N1" "node")
           station_far_parts station_options
           "parts_hera" (list_to_map parts_hera)
           (mkInfo [ports ["loc1"; "loc2"; "loc3"; "loc4"]] [[None]] 7)
           ["station"; "antenna"; "feed"; "front-end"; "cable-rfof";
            "post-amp"; "snap"; "node"]).
  - reflexivity.
  - vm_compute; reflexivity.
  - vm_compute; reflexivity.
  - vm_compute; reflexivity.
  - right. simpl. lia.
Defined.

(** X6.  Whatever [next_connection] returns is one of the options offered,
    and the far part [B[i]] of that option has the part type that the path
    lists one position after (going down) or before (going up) the position
    of the current part type; that position lies inside the path. *)
Theorem next_connection_position_advance (g : Globals)
  (connection_options : list Connection) (current : Current) (A : Part)
  (B : list Part) (opc : Connection) :
  next_connection g connection_options current A B = Ok (Some opc) ->
  exists ht defs info full_path i Bi,
    this_hookup_type g = Some ht /\
    g_port_def g !! ht = Some defs /\
    defs !! part_type A = Some info /\
    g_full_connection_path g !! ht = Some full_path /\
    connection_options !! i = Some opc /\
    B !! i = Some Bi /\
    0 <= position info + D_arrow (direction current)
      < Z.of_nat (length full_path) /\
    full_path !! Z.to_nat (position info + D_arrow (direction current))
    = Some (part_type Bi).
Proof. apply next_connection_advances. Qed.

Lemma next_connection_position_advance_witness :
  exists ht defs info full_path i Bi,
    this_hookup_type (globals_after_setup "parts_hera") = Some ht /\
    g_port_def (globals_after_setup "parts_hera") !! ht = Some defs /\
    defs !! "front-end" = Some info /\
    g_full_connection_path (globals_after_setup "parts_hera") !! ht
    = Some full_path /\
    front_end_options !! i = Some (conn "FE1" "e" "CBL1" "ea" 0 None) /\
    front_end_far_parts !! i = Some Bi /\
    0 <= position info + 1 < Z.of_nat (length full_path) /\
    full_path !! Z.to_nat (position info + 1) = Some (part_type Bi).
Proof.
  apply (next_connection_position_advance (globals_after_setup "parts_hera")
           front_end_options (mkCurrent Down "e" "e")
           (mkPart "FE1" "front-end") front_end_far_parts
           (conn "FE1" "e" "CBL1" "ea" 0 None)).
  vm_compute. reflexivity.
Defined.

(** ** The flags and [is_fully_connected] *)

Lemma filter_length_all {V : Type} (f : V -> bool) (l : list V) :
  length (List.filter f l) = length l <-> forall x, x ∈ l -> f x = true.
Proof.
  induction l as [|x rest IH]; simpl.
  - split; [intros _ x Hx; inversion Hx | reflexivity].
  - pose proof (filter_length_le f rest) as Hle.
    destruct (f x) eqn:Hfx; simpl.
    + split.
      * intros Hlen y Hy. apply elem_of_cons in Hy as [-> | Hy]; [exact Hfx|].
        apply IH; [lia | exact Hy].
      * intros Hall. f_equal. apply IH. intros y Hy.
        apply Hall, list_elem_of_further, Hy.
    + split; [lia|].
      intros Hall. specialize (Hall x (list_elem_of_here _ _)). congruence.
Qed.

Lemma filter_length_pos {V : Type} (f : V -> bool) (l : list V) :
  (0 < length (List.filter f l))%nat <-> exists x, x ∈ l /\ f x = true.
Proof.
  induction l as [|x rest IH]; simpl.
  - split; [lia | intros (x & Hx & _); inversion Hx].
  - destruct (f x) eqn:Hfx; simpl.
    + split; [|lia]. intros _. exists x. split; [apply list_elem_of_here|auto].
    + rewrite IH. split.
      * intros (y & Hy & Hfy). exists y.
        split; [apply list_elem_of_further, Hy | exact Hfy].
      * intros (y & Hy & Hfy). apply elem_of_cons in Hy as [-> | Hy];
          [congruence|]. exists y. auto.
Qed.

Lemma chains_in_order_elem (hd : HookupDict) (chain : list Connection) :
  chain ∈ chains_in_order (hookup hd) <-> chain_of hd chain.
Proof.
  unfold chains_in_order, chain_of, lookup2.
  rewrite list_elem_of_In, in_concat. split.
  - intros (l & Hl & Hchain). apply list_elem_of_In in Hl, Hchain.
    apply list_elem_of_fmap in Hl as ([akey inner] & -> & Hitem).
    apply list_elem_of_fmap in Hchain as ([pkey ch] & -> & Hpol).
    apply elem_of_map_to_list in Hitem, Hpol.
    exists akey, pkey. rewrite Hitem. exact Hpol.
  - intros (akey & pkey & Hlook).
    destruct (hookup hd !! akey) as [inner|] eqn:Hinner; [|discriminate].
    simpl in Hlook. exists (snd <$> map_to_list inner). split.
    + apply list_elem_of_In, list_elem_of_fmap. exists (akey, inner).
      split; [reflexivity | apply elem_of_map_to_list, Hinner].
    + apply list_elem_of_In, list_elem_of_fmap. exists (pkey, chain).
      split; [reflexivity | apply elem_of_map_to_list, Hlook].
Qed.

Section Counting.
Variable f : list Connection -> bool.
Variable hk : gmap string (gmap string (list Connection)).

Let fc : gmap string (gmap string bool) :=
  fmap (M := gmap string) (fmap (M := gmap string) f) hk.

Lemma count_pol_flagged (akey : string) (inner : gmap string (list Connection))
  (l : list (string * list Connection)) :
  hk !! akey = Some inner ->
  (forall item, item ∈ l -> inner !! item.1 = Some item.2) ->
  forall acc,
    for_each (count_pol fc akey) l acc
    = Ok ((acc.1 + length (List.filter f (snd <$> l)))%nat,
          (acc.2 + length l)%nat).
Proof.
  intros Hinner. induction l as [|[pkey ch] rest IH]; intros Hitems [n m].
  - simpl. rewrite !Nat.add_0_r. reflexivity.
  - assert (Hhere : inner !! pkey = Some ch).
    { apply (Hitems (pkey, ch)), list_elem_of_here. }
    assert (Hrest : forall item, item ∈ rest -> inner !! item.1 = Some item.2).
    { intros item Hin. apply Hitems, list_elem_of_further, Hin. }
    cbn [for_each]. unfold count_pol at 1. unfold fc at 1.
    rewrite lookup_fmap, Hinner. cbn [fmap option_fmap option_map fst].
    rewrite lookup_fmap, Hhere. cbn [fmap option_fmap option_map bind].
    rewrite fmap_cons. cbn [snd List.filter].
    destruct (f ch); cbn [bind]; rewrite (IH Hrest); cbn [fst snd length];
      f_equal; f_equal; lia.
Qed.

Lemma count_part_flagged (l : list (string * gmap string (list Connection))) :
  (forall item, item ∈ l -> hk !! item.1 = Some item.2) ->
  forall acc,
    for_each (count_part fc) l acc
    = Ok ((acc.1 + length
             (List.filter f
                (concat ((fun item => snd <$> map_to_list item.2) <$> l))))%nat,
          (acc.2 + length
             (concat ((fun item => snd <$> map_to_list item.2) <$> l)))%nat).
Proof.
  induction l as [|[akey inner] rest IH]; intros Hitems [n m].
  - simpl. rewrite !Nat.add_0_r. reflexivity.
  - assert (Hhere : hk !! akey = Some inner).
    { apply (Hitems (akey, inner)), list_elem_of_here. }
    assert (Hrest : forall item, item ∈ rest -> hk !! item.1 = Some item.2).
    { intros item Hin. apply Hitems, list_elem_of_further, Hin. }
    cbn [for_each]. unfold count_part at 1. cbn [fst snd].
    rewrite (count_pol_flagged akey inner (map_to_list inner) Hhere).
    + cbn [bind]. rewrite (IH Hrest). rewrite fmap_cons.
      cbn [fst snd concat].
      rewrite List.filter_app, !length_app, length_fmap.
      f_equal; f_equal; lia.
    + intros [pkey ch] Hin. apply elem_of_map_to_list, Hin.
Qed.

Lemma is_fully_connected_counts (hd : HookupDict) (any_or_all : string) :
  hookup hd = hk ->
  fully_connected hd = fc ->
  is_fully_connected hd any_or_all
  = Ok (if String.eqb any_or_all "all"
        then Nat.eqb (length (List.filter f (chains_in_order hk)))
                     (length (chains_in_order hk))
        else Nat.ltb 0 (length (List.filter f (chains_in_order hk)))).
Proof.
  intros Hhk Hfc. unfold is_fully_connected. rewrite Hhk, Hfc.
  rewrite (count_part_flagged (map_to_list hk)).
  - cbn [bind fst snd]. rewrite !Nat.add_0_l. fold (chains_in_order hk).
    destruct (String.eqb any_or_all "all"); reflexivity.
  - intros [akey inner] Hin. apply elem_of_map_to_list, Hin.
Qed.
End Counting.

(** X7.  On a table annotated by [__add_hookup_timing_and_flags],
    [is_fully_connected] never raises; with ['all'] it holds exactly when
    every chain of the table has as many connections as the epoch path has
    part types minus one, and with any other value exactly when some chain
    has. *)
Theorem is_fully_connected_after_flags (hd hd' : HookupDict)
  (pe : PartsEpoch) (p : list string) (any_or_all : string) :
  parts_epoch hd = Some pe ->
  path pe = Some p ->
  add_hookup_timing_and_flags hd = Ok hd' ->
  let full chain := Z.of_nat (length chain) = Z.of_nat (length p) - 1 in
  exists b,
    is_fully_connected hd' any_or_all = Ok b /\
    (any_or_all = "all" ->
     (b = true <-> forall chain, chain_of hd chain -> full chain)) /\
    (any_or_all <> "all" ->
     (b = true <-> exists chain, chain_of hd chain /\ full chain)).
Proof.
  intros Hpe Hpath Hadd full.
  unfold add_hookup_timing_and_flags, full_hookup_length in Hadd.
  rewrite Hpe, Hpath in Hadd. cbn [bind] in Hadd. injection Hadd as <-.
  set (f := fun pol : list Connection =>
              Z.of_nat (length pol) =? Z.of_nat (length p) - 1).
  eexists. split.
  { apply (is_fully_connected_counts f (hookup hd)); reflexivity. }
  split.
  - intros ->. change (String.eqb "all" "all") with true. cbv iota.
    rewrite Nat.eqb_eq, filter_length_all. split.
    + intros Hall chain Hchain. apply chains_in_order_elem in Hchain.
      apply Z.eqb_eq, Hall, Hchain.
    + intros Hall chain Hchain. apply Z.eqb_eq, Hall.
      apply chains_in_order_elem, Hchain.
  - intros Hne. apply String.eqb_neq in Hne. rewrite Hne.
    rewrite Nat.ltb_lt, filter_length_pos. split.
    + intros (chain & Hchain & Hf). exists chain.
      split; [apply chains_in_order_elem, Hchain | apply Z.eqb_eq, Hf].
    + intros (chain & Hchain & Hf). exists chain.
      split; [apply chains_in_order_elem, Hchain | apply Z.eqb_eq, Hf].
Qed.

Lemma is_fully_connected_after_flags_witness :
  exists hd' b,
    add_hookup_timing_and_flags scenario_dict = Ok hd' /\
    is_fully_connected hd' "all" = Ok b /\
    (b = true <->
     forall chain, chain_of scenario_dict chain ->
       Z.of_nat (length chain) = Z.of_nat (length ["a"; "b"; "c"]) - 1).
Proof.
  assert (Hadd : exists hd', add_hookup_timing_and_flags scenario_dict = Ok hd')
    by (eexists; reflexivity).
  destruct Hadd as [hd' Hadd].
  destruct (is_fully_connected_after_flags scenario_dict hd'
              {| epoch := Some "parts_abc"; path := Some ["a"; "b"; "c"] |}
              ["a"; "b"; "c"] "all" eq_refl eq_refl Hadd)
    as (b & Hb & Hall & _).
  exists hd', b. split; [exact Hadd|]. split; [exact Hb|].
  apply Hall. reflexivity.
Defined.

(** ** Timing windows compose *)

Lemma timing_loop_app (l1 l2 : list Connection) (s : Z) (e : option Z) :
  timing_loop (l1 ++ l2) s e
  = timing_loop l2 (timing_loop l1 s e).1 (timing_loop l1 s e).2.
Proof.
  revert s e. induction l1 as [|c rest IH]; intros s e; [reflexivity|].
  simpl. apply IH.
Qed.

Lemma timing_loop_start_max (l : list Connection) :
  forall (s0 s1 : Z) (e0 e1 : option Z),
    (timing_loop l (Z.max s0 s1) e0).1 = Z.max s0 (timing_loop l s1 e1).1.
Proof.
  induction l as [|c rest IH]; intros s0 s1 e0 e1; [reflexivity|].
  simpl.
  replace (if start_gpstime c >? Z.max s0 s1 then start_gpstime c
           else Z.max s0 s1)
    with (Z.max s0 (if start_gpstime c >? s1 then start_gpstime c else s1)).
  - apply IH.
  - destruct (Z.gtb_spec (start_gpstime c) s1);
      destruct (Z.gtb_spec (start_gpstime c) (Z.max s0 s1)); lia.
Qed.

Lemma opt_min_assoc (a b c : option Z) :
  opt_min (opt_min a b) c = opt_min a (opt_min b c).
Proof.
  destruct a, b, c; simpl; try reflexivity. f_equal. lia.
Qed.

Lemma opt_min_comm (a b : option Z) : opt_min a b = opt_min b a.
Proof. destruct a, b; simpl; try reflexivity. f_equal. lia. Qed.

Lemma timing_loop_stop_min (l : list Connection) :
  forall (s0 s1 : Z) (e0 e1 : option Z),
    (timing_loop l s0 (opt_min e0 e1)).2
    = opt_min e0 (timing_loop l s1 e1).2.
Proof.
  induction l as [|c rest IH]; intros s0 s1 e0 e1; [reflexivity|].
  simpl.
  match goal with
  | |- (timing_loop rest _ ?x).2 = opt_min e0 (timing_loop rest _ ?y).2 =>
      replace x with (opt_min e0 y); [apply IH|]
  end.
  destruct (stop_gpstime c) as [t|]; [|reflexivity].
  destruct e0 as [x|], e1 as [y|]; simpl; try reflexivity.
  - destruct (Z.ltb_spec t y), (Z.ltb_spec t (Z.min x y)); f_equal; lia.
  - destruct (Z.ltb_spec t x); f_equal; lia.
Qed.

Lemma hookup_timing_start_nonneg (l : list Connection) :
  0 <= (hookup_timing l).1.
Proof. apply (timing_loop_start l 0 None). Qed.

Lemma hookup_timing_meet (l1 l2 : list Connection) :
  hookup_timing (l1 ++ l2)
  = window_meet (hookup_timing l1) (hookup_timing l2).
Proof.
  unfold hookup_timing, window_meet. rewrite timing_loop_app.
  pose proof (hookup_timing_start_nonneg l1) as Hnonneg.
  unfold hookup_timing in Hnonneg.
  rewrite (surjective_pairing (timing_loop l2 _ _)). f_equal.
  - rewrite <- (Z.max_l (timing_loop l1 0 None).1 0) at 1 by lia.
    apply timing_loop_start_max.
  - replace (timing_loop l1 0 None).2
      with (opt_min (timing_loop l1 0 None).2 None) at 1
      by (destruct (timing_loop l1 0 None).2; reflexivity).
    apply timing_loop_stop_min.
Qed.

(** X8.  The window of a chain made of two pieces is the intersection of
    the windows of the pieces: the later of the two starts and the earlier
    of the two stops, a null stop standing for "never". *)
Theorem hookup_timing_app (l1 l2 : list Connection) :
  hookup_timing (l1 ++ l2)
  = window_meet (hookup_timing l1) (hookup_timing l2).
Proof. apply hookup_timing_meet. Qed.

Lemma window_meet_swap (w1 w2 w3 : Z * option Z) :
  window_meet w1 (window_meet w2 w3) = window_meet w2 (window_meet w1 w3).
Proof.
  unfold window_meet. simpl. f_equal; [lia|].
  rewrite <- !opt_min_assoc. f_equal. apply opt_min_comm.
Qed.

(** X9.  The window of a chain does not depend on the order of its
    connections: two chains with the same connections, in any order, get the
    same window (in particular a leg and its reversal). *)
Theorem hookup_timing_permutation (l1 l2 : list Connection) :
  l1 ≡ₚ l2 -> hookup_timing l1 = hookup_timing l2.
Proof.
  induction 1 as [|x l l' _ IH|x y l|l l' l'' _ IH1 _ IH2].
  - reflexivity.
  - change (x :: l) with ([x] ++ l). change (x :: l') with ([x] ++ l').
    rewrite !hookup_timing_meet, IH. reflexivity.
  - change (y :: x :: l) with ([y] ++ ([x] ++ l)).
    change (x :: y :: l) with ([x] ++ ([y] ++ l)).
    rewrite !hookup_timing_meet. apply window_meet_swap.
  - congruence.
Qed.

Lemma hookup_timing_permutation_witness :
  hookup_timing (reverse scenario_chain) = hookup_timing scenario_chain.
Proof.
  apply (hookup_timing_permutation (reverse scenario_chain) scenario_chain).
  apply reverse_Permutation.
Defined.

(** ** Polarizations, part types and columns *)

(** X10.  [__get_pols_to_do] never fails on the part name: for the query
    ['all'] (in any case) it returns the last letter of the name, lowered,
    for the single-polarization PAPER parts (names beginning with RI, RO or
    CR) and [both_pols] otherwise; a query that is one of [both_pols] is
    returned alone; every other query raises [ValueError]. *)
Theorem get_pols_to_do_cases (pols : list string) (part_hpn port_query : string) :
  (lower port_query = "all" ->
   cm_hookup.get_pols_to_do pols part_hpn port_query
   = Ok (if bool_decide (upper (str_take 2 part_hpn) ∈ ["RI"; "RO"; "CR"])
         then [lower (last_char part_hpn)] else pols)) /\
  (lower port_query <> "all" -> lower port_query ∈ pols ->
   cm_hookup.get_pols_to_do pols part_hpn port_query
   = Ok [lower port_query]) /\
  (lower port_query <> "all" -> lower port_query ∉ pols ->
   cm_hookup.get_pols_to_do pols part_hpn port_query = Raise ValueError).
Proof.
  unfold cm_hookup.get_pols_to_do. repeat split.
  - intros ->. change (String.eqb "all" "all") with true. cbv iota.
    destruct (bool_decide_reflect
                (upper (str_take 2 part_hpn) ∈ ["RI"; "RO"; "CR"]))
      as [Hin | _]; [|reflexivity].
    assert (Hne : part_hpn <> "").
    { intros ->. simpl in Hin.
      repeat (apply elem_of_cons in Hin as [Hin | Hin]; [discriminate|]).
      inversion Hin. }
    rewrite (str_last_ok _ Hne). reflexivity.
  - intros Hne Hin. apply String.eqb_neq in Hne. rewrite Hne.
    rewrite (bool_decide_eq_true_2 _ Hin). reflexivity.
  - intros Hne Hnotin. apply String.eqb_neq in Hne. rewrite Hne.
    rewrite (bool_decide_eq_false_2 _ Hnotin). reflexivity.
Qed.

Lemma get_pols_to_do_cases_witness :
  cm_hookup.get_pols_to_do both_pols "RI4A1E" "ALL" = Ok ["e"] /\
  cm_hookup.get_pols_to_do both_pols "HH23" "N" = Ok ["n"] /\
  cm_hookup.get_pols_to_do both_pols "HH23" "x" = Raise ValueError.
Proof.
  destruct (get_pols_to_do_cases both_pols "RI4A1E" "ALL") as (Hall & _ & _).
  destruct (get_pols_to_do_cases both_pols "HH23" "N") as (_ & Hone & _).
  destruct (get_pols_to_do_cases both_pols "HH23" "x") as (_ & _ & Hbad).
  split; [rewrite Hall; reflexivity|].
  split.
  - apply Hone; [discriminate|]. vm_compute. apply list_elem_of_further,
      list_elem_of_here.
  - apply Hbad; [discriminate|]. vm_compute. intros H.
    repeat (apply elem_of_cons in H as [H | H]; [discriminate|]).
    inversion H.
Defined.

Section PartTypes.
Variable get_part_type_for : string -> string.

Let note := cm_hookup.note_part_type get_part_type_for.

Lemma note_noted (acc : gmap string string * list string) (part : string) :
  noted get_part_type_for [part] acc (note acc part).
Proof.
  unfold noted, note, cm_hookup.note_part_type. simpl.
  destruct (bool_decide_reflect (lower (get_part_type_for part) ∈ acc.2))
    as [Hin | Hnotin]; simpl.
  - split; [auto|]. split; [reflexivity|]. split.
    + intros p Hp. apply list_elem_of_singleton in Hp as ->.
      split; [apply lookup_insert_eq | exact Hin].
    + intros pt Hpt. left. exact Hpt.
  - split.
    { intros Hnd. apply NoDup_app. split; [exact Hnd|]. split.
      - intros x Hx Hx'. apply list_elem_of_singleton in Hx' as ->.
        contradiction.
      - apply NoDup_singleton. }
    split; [apply prefix_app_r; reflexivity|]. split.
    + intros p Hp. apply list_elem_of_singleton in Hp as ->.
      split; [apply lookup_insert_eq|].
      apply elem_of_app. right. apply list_elem_of_here.
    + intros pt Hpt. apply elem_of_app in Hpt as [Hpt | Hpt]; [left; exact Hpt|].
      apply list_elem_of_singleton in Hpt as ->. right. exists part.
      split; [apply list_elem_of_here | reflexivity].
Qed.

Lemma noted_trans (parts1 parts2 : list string)
  (a b c : gmap string string * list string) :
  noted get_part_type_for parts1 a b ->
  (forall part, part ∈ parts1 ->
     b.1 !! part = Some (lower (get_part_type_for part)) ->
     c.1 !! part = Some (lower (get_part_type_for part))) ->
  noted get_part_type_for parts2 b c ->
  noted get_part_type_for (parts1 ++ parts2) a c.
Proof.
  intros (Hnd1 & Hpre1 & Hparts1 & Hsrc1) Hkeep (Hnd2 & Hpre2 & Hparts2 & Hsrc2).
  split; [auto|]. split; [etrans; eassumption|]. split.
  - intros part Hpart. apply elem_of_app in Hpart as [Hpart | Hpart].
    + destruct (Hparts1 part Hpart) as [Hcache Hin]. split.
      * apply Hkeep; assumption.
      * destruct Hpre2 as [k ->]. apply elem_of_app. left. exact Hin.
    + apply Hparts2, Hpart.
  - intros pt Hpt. destruct (Hsrc2 pt Hpt) as [Hb | (part & Hpart & ->)].
    + destruct (Hsrc1 pt Hb) as [Ha | (part & Hpart & ->)]; [left; exact Ha|].
      right. exists part. split; [|reflexivity].
      apply elem_of_app. left. exact Hpart.
    + right. exists part. split; [|reflexivity].
      apply elem_of_app. right. exact Hpart.
Qed.

Lemma note_keeps (acc : gmap string string * list string) (part part' : string) :
  acc.1 !! part = Some (lower (get_part_type_for part)) ->
  (note acc part').1 !! part = Some (lower (get_part_type_for part)).
Proof.
  intros H. unfold note, cm_hookup.note_part_type. simpl.
  destruct (decide (part' = part)) as [-> | Hne].
  - apply lookup_insert_eq.
  - rewrite lookup_insert_ne by exact Hne. exact H.
Qed.

Lemma fold_note_keeps (parts : list string) (part : string) :
  forall acc,
    acc.1 !! part = Some (lower (get_part_type_for part)) ->
    (foldl note acc parts).1 !! part = Some (lower (get_part_type_for part)).
Proof.
  induction parts as [|r rest IH]; intros acc Hacc; [exact Hacc|].
  simpl. apply IH, note_keeps, Hacc.
Qed.

Lemma fold_note_noted (parts : list string) :
  forall acc, noted get_part_type_for parts acc (foldl note acc parts).
Proof.
  induction parts as [|part rest IH]; intros acc.
  - simpl. split; [auto|]. split; [reflexivity|]. split.
    + intros p Hp. inversion Hp.
    + intros pt Hpt. left. exact Hpt.
  - change (part :: rest) with ([part] ++ rest) at 1. simpl.
    apply (noted_trans [part] rest acc (note acc part)).
    + apply note_noted.
    + intros p _ Hp. apply fold_note_keeps, Hp.
    + apply IH.
Qed.
End PartTypes.

Lemma foldl_note_upstream (get_part_type_for : string -> string)
  (huco : list Connection) :
  forall acc,
    foldl (fun acc c =>
             cm_hookup.note_part_type get_part_type_for acc (upstream_part c))
      acc huco
    = foldl (cm_hookup.note_part_type get_part_type_for) acc
        (upstream_part <$> huco).
Proof.
  induction huco as [|c rest IH]; intros acc; [reflexivity|].
  simpl. apply IH.
Qed.

(** X11.  [__get_part_types_found] extends the list of part types at its
    end only and adds no duplicate; afterwards the list holds exactly the
    part types it held before and the (lowered) part types of the parts
    along the chain, and the cache maps each of those parts to its part
    type.  An empty chain changes nothing. *)
Theorem get_part_types_found_spec (get_part_type_for : string -> string)
  (part_type_cache : gmap string string) (huco : list Connection)
  (part_types_found : list string) :
  let after :=
    cm_hookup.get_part_types_found get_part_type_for part_type_cache huco
      part_types_found in
  (NoDup part_types_found -> NoDup after.2) /\
  part_types_found `prefix_of` after.2 /\
  (forall part, part ∈ chain_parts huco ->
     after.1 !! part = Some (lower (get_part_type_for part))) /\
  (forall pt, pt ∈ after.2 <->
     pt ∈ part_types_found \/
     exists part, part ∈ chain_parts huco /\
                  pt = lower (get_part_type_for part)) /\
  (huco = [] -> after = (part_type_cache, part_types_found)).
Proof.
  unfold cm_hookup.get_part_types_found, chain_parts.
  destruct (last huco) as [c_last|] eqn:Hlast; [cbv zeta | simpl].
  - assert (Hnoted :
      noted get_part_type_for
        ((upstream_part <$> huco) ++ [downstream_part c_last])
        (part_type_cache, part_types_found)
        (cm_hookup.note_part_type get_part_type_for
           (foldl (cm_hookup.note_part_type get_part_type_for)
              (part_type_cache, part_types_found) (upstream_part <$> huco))
           (downstream_part c_last))).
    { apply (noted_trans get_part_type_for (upstream_part <$> huco)
               [downstream_part c_last] _
               (foldl (cm_hookup.note_part_type get_part_type_for)
                  (part_type_cache, part_types_found)
                  (upstream_part <$> huco))).
      - apply fold_note_noted.
      - intros part _ Hpart. apply note_keeps. exact Hpart.
      - apply note_noted. }
    rewrite <- foldl_note_upstream in Hnoted.
    destruct Hnoted as (Hnd & Hpre & Hparts & Hsrc).
    split; [exact Hnd|]. split; [exact Hpre|]. split.
    { intros part Hpart. apply Hparts, Hpart. }
    split.
    + intros pt. split; [apply Hsrc|].
      intros [Hfound | (part & Hpart & ->)].
      * destruct Hpre as [k ->]. apply elem_of_app. left. exact Hfound.
      * apply Hparts, Hpart.
    + intros ->. discriminate Hlast.
  - split; [auto|]. split; [reflexivity|]. split.
    { intros part Hpart. inversion Hpart. }
    split; [|reflexivity].
    intros pt. split; [left; assumption|].
    intros [Hfound | (part & Hpart & _)]; [exact Hfound | inversion Hpart].
Qed.

Lemma filter_sublist {V : Type} (f : V -> bool) (l : list V) :
  List.filter f l `sublist_of` l.
Proof.
  induction l as [|x rest IH]; simpl; [constructor|].
  destruct (f x); [apply sublist_skip | apply sublist_cons]; exact IH.
Qed.

(** X12.  When [__get_column_headers] returns columns, they are a
    sub-sequence of the path of the epoch it reports (so they come in path
    order), and the columns are exactly the part types found. *)
Theorem get_column_headers_columns (fcp : list (string * list string))
  (part_types_found : list string) :
  (get_column_headers fcp part_types_found).1 <> [] ->
  exists sp p,
    (get_column_headers fcp part_types_found).2
    = Some {| epoch := Some sp; path := Some p |} /\
    (sp, p) ∈ fcp /\
    (get_column_headers fcp part_types_found).1 `sublist_of` p /\
    forall pt,
      pt ∈ (get_column_headers fcp part_types_found).1
      <-> pt ∈ part_types_found.
Proof.
  unfold get_column_headers.
  destruct part_types_found as [|pt0 found]; [intros H; contradiction|].
  destruct (find_epoch fcp (pt0 :: found)) as [[sp p]|] eqn:Hfind;
    [|intros H; contradiction].
  destruct (String.eqb sp ""); [intros H; contradiction|].
  intros _. exists sp, p. split; [reflexivity|].
  apply find_epoch_found in Hfind as [Hin Hsub].
  split; [exact Hin|]. split; [apply filter_sublist|].
  intros pt. simpl. rewrite list_elem_of_In, filter_In, <- list_elem_of_In.
  rewrite bool_decide_eq_true. split; [tauto|].
  intros Hpt. split; [apply Hsub, Hpt | exact Hpt].
Qed.

Lemma get_column_headers_columns_witness :
  exists sp p,
    (get_column_headers [("one", ["a"; "b"]); ("two", ["a"; "b"; "c"])]
       ["c"; "a"]).2
    = Some {| epoch := Some sp; path := Some p |} /\
    (sp, p) ∈ [("one", ["a"; "b"]); ("two", ["a"; "b"; "c"])] /\
    (get_column_headers [("one", ["a"; "b"]); ("two", ["a"; "b"; "c"])]
       ["c"; "a"]).1 `sublist_of` p /\
    forall pt,
      pt ∈ (get_column_headers
              [("one", ["a"; "b"]); ("two", ["a"; "b"; "c"])] ["c"; "a"]).1
      <-> pt ∈ ["c"; "a"].
Proof.
  apply (get_column_headers_columns
           [("one", ["a"; "b"]); ("two", ["a"; "b"; "c"])] ["c"; "a"]).
  vm_compute. discriminate.
Defined.

(** ** Hookup entries of [cm_dossier] *)

Lemma conforming_type_ok (fcp : gmap string (list string))
  (found : list string) (order : list string) :
  found <> [] ->
  (forall sp, sp ∈ order -> is_Some (fcp !! sp)) ->
  exists r,
    cm_dossier.conforming_type fcp found order = Ok r /\
    match r with
    | Some sp =>
        sp ∈ order /\
        exists p, fcp !! sp = Some p /\ forall pt, pt ∈ found -> pt ∈ p
    | None => True
    end.
Proof.
  intros Hfound. induction order as [|sp rest IH]; intros Hall.
  - exists None. split; [reflexivity | exact I].
  - destruct found as [|pt0 found']; [contradiction|].
    destruct (Hall sp (list_elem_of_here _ _)) as [p Hp].
    cbn [cm_dossier.conforming_type]. unfold dict_get. rewrite Hp.
    cbn [bind].
    destruct (forallb (fun pt => bool_decide (pt ∈ p)) (pt0 :: found'))
      eqn:Hforall.
    + exists (Some sp). split; [reflexivity|].
      split; [apply list_elem_of_here|]. exists p. split; [exact Hp|].
      intros pt Hpt. rewrite forallb_forall in Hforall.
      apply list_elem_of_In, Hforall in Hpt.
      apply bool_decide_eq_true in Hpt. exact Hpt.
    + destruct IH as (r & Hr & Hspec).
      { intros sp' Hsp'. apply Hall, list_elem_of_further, Hsp'. }
      exists r. split; [exact Hr|].
      destruct r as [sp'|]; [|exact I].
      destruct Hspec as [Hin Hrest].
      split; [apply list_elem_of_further, Hin | exact Hrest].
Qed.

(** X13.  For an entry that has a chain under [port] and whose sysdef lists
    a path for every hookup type of its checking order,
    [get_hookup_type_and_column_headers] followed by
    [add_timing_and_fully_connected] raises nothing; afterwards the timing
    of [port] is the window of the chain, its columns end with ['start'] and
    ['stop'], and its flag is true exactly when a hookup type was found and
    the chain has as many connections as the path of that type has part
    types minus one.  Without a hookup type the flag is false. *)
Theorem entry_headers_then_flags (entry : cm_dossier.HookupEntry)
  (port : string) (part_types_found : list string)
  (chain : list Connection) :
  cm_dossier.e_hookup entry !! port = Some chain ->
  (forall sp, sp ∈ cm_dossier.sysdef_checking_order entry ->
     is_Some (cm_dossier.sysdef_full_connection_path entry !! sp)) ->
  let step1 :=
    cm_dossier.get_hookup_type_and_column_headers entry port
      part_types_found in
  let step2 := cm_dossier.add_timing_and_fully_connected step1.1 port in
  step1.2 = Ok tt /\ step2.2 = Ok tt /\
  cm_dossier.e_timing step2.1 !! port = Some (hookup_timing chain) /\
  (exists cols,
     cm_dossier.e_columns step1.1 !! port = Some cols /\
     cm_dossier.e_columns step2.1 !! port = Some (cols ++ ["start"; "stop"])) /\
  match cm_dossier.e_hookup_type step1.1 !! port with
  | Some (Some sp) =>
      exists p,
        cm_dossier.sysdef_full_connection_path entry !! sp = Some p /\
        (forall pt, pt ∈ part_types_found -> pt ∈ p) /\
        cm_dossier.e_fully_connected step2.1 !! port
        = Some (Z.of_nat (length chain) =? Z.of_nat (length p) - 1)
  | Some None =>
      cm_dossier.e_fully_connected step2.1 !! port = Some false
  | None => False
  end.
Proof.
  intros Hchain Hpaths.
  assert (Hnone : forall cols,
    let e1 :=
      cm_dossier.mkHookupEntry (cm_dossier.e_hookup entry)
        (cm_dossier.e_fully_connected entry)
        (<[port := None]> (cm_dossier.e_hookup_type entry))
        (<[port := cols]> (cm_dossier.e_columns entry))
        (cm_dossier.e_timing entry) (cm_dossier.sysdef_checking_order entry)
        (cm_dossier.sysdef_full_connection_path entry) in
    let step2 := cm_dossier.add_timing_and_fully_connected e1 port in
    step2.2 = Ok tt /\
    cm_dossier.e_timing step2.1 !! port = Some (hookup_timing chain) /\
    (exists cols',
       cm_dossier.e_columns e1 !! port = Some cols' /\
       cm_dossier.e_columns step2.1 !! port
       = Some (cols' ++ ["start"; "stop"])) /\
    cm_dossier.e_fully_connected step2.1 !! port = Some false).
  { intros cols e1 step2. subst step2 e1.
    unfold cm_dossier.add_timing_and_fully_connected,
      cm_dossier.entry_full_hookup_length, dict_get.
    repeat first [rewrite lookup_insert_eq | rewrite Hchain | progress simpl].
    split; [reflexivity|]. split; [reflexivity|].
    split; [exists cols; split; reflexivity|].
    f_equal. apply Z.eqb_neq. lia. }
  unfold cm_dossier.get_hookup_type_and_column_headers.
  destruct part_types_found as [|pt0 found'].
  { pose proof (Hnone []) as Hn. cbv zeta in Hn. cbv zeta.
    cbn [fst snd cm_dossier.e_hookup_type]. rewrite lookup_insert_eq.
    destruct Hn as (H2 & Ht & Hc & Hf). auto. }
  destruct (conforming_type_ok
              (cm_dossier.sysdef_full_connection_path entry)
              (pt0 :: found') (cm_dossier.sysdef_checking_order entry))
    as (r & Hr & Hspec); [discriminate | exact Hpaths |].
  rewrite Hr. destruct r as [sp|].
  - destruct Hspec as (_ & p & Hp & Hsub).
    destruct (String.eqb sp "") eqn:Hempty.
    { pose proof (Hnone []) as Hn. cbv zeta in Hn. cbv zeta.
      cbn [fst snd cm_dossier.e_hookup_type]. rewrite lookup_insert_eq.
      destruct Hn as (H2 & Ht & Hc & Hf). auto. }
    rewrite Hp. cbv zeta. cbn [fst snd].
    unfold cm_dossier.add_timing_and_fully_connected,
      cm_dossier.entry_full_hookup_length, dict_get.
    repeat first [rewrite lookup_insert_eq | rewrite Hchain | rewrite Hp
                 | progress simpl].
    split; [reflexivity|]. split; [reflexivity|]. split; [reflexivity|].
    split; [eexists; split; reflexivity|].
    exists p. split; [reflexivity|]. split; [exact Hsub | reflexivity].
  - pose proof (Hnone []) as Hn. cbv zeta in Hn. cbv zeta.
    cbn [fst snd cm_dossier.e_hookup_type]. rewrite lookup_insert_eq.
    destruct Hn as (H2 & Ht & Hc & Hf). auto.
Qed.

Lemma entry_headers_then_flags_witness :
  (cm_dossier.add_timing_and_fully_connected
     (cm_dossier.get_hookup_type_and_column_headers scenario_entry "e"
        ["a"; "b"; "c"]).1 "e").2 = Ok tt.
Proof.
  destruct (entry_headers_then_flags scenario_entry "e" ["a"; "b"; "c"]
              scenario_chain) as (_ & Hstep2 & _).
  - reflexivity.
  - intros sp Hsp. apply list_elem_of_singleton in Hsp as ->.
    eexists. reflexivity.
  - exact Hstep2.
Defined.

(** ** Revision queries *)

Section RevisionFacts.
Variable hpn : string.
Variable revisions : gmap string (Z * option Z).

Let keys : list string := cm_revisions.sorted_keys revisions.

Lemma sorted_keys_elem (r : string) :
  r ∈ cm_revisions.sorted_keys revisions <-> is_Some (revisions !! r).
Proof.
  unfold cm_revisions.sorted_keys. rewrite merge_sort_Permutation.
  rewrite list_elem_of_fmap. split.
  - intros ([k v] & -> & Hin). apply elem_of_map_to_list in Hin.
    exists v. exact Hin.
  - intros [v Hv]. exists (r, v). split; [reflexivity|].
    apply elem_of_map_to_list, Hv.
Qed.

Lemma revisions_of_keys (l : list string) :
  (forall r, r ∈ l -> is_Some (revisions !! r)) ->
  rev <$> omap (fun r => (fun se => mkRevision hpn r se.1 se.2)
                           <$> revisions !! r) l = l.
Proof.
  induction l as [|r rest IH]; intros Hall; [reflexivity|].
  destruct (Hall r (list_elem_of_here _ _)) as [[s e] Hr].
  cbn [omap list_omap]. rewrite Hr. cbn [fmap option_fmap option_map].
  rewrite fmap_cons. cbn [rev]. f_equal. apply IH.
  intros r' Hr'. apply Hall, list_elem_of_further, Hr'.
Qed.

Lemma get_all_revisions_revs :
  rev <$> cm_revisions.get_all_revisions hpn revisions
  = cm_revisions.sorted_keys revisions.
Proof.
  unfold cm_revisions.get_all_revisions. apply revisions_of_keys.
  intros r Hr. apply sorted_keys_elem, Hr.
Qed.

Lemma get_all_revisions_elem_iff (x : Revision) :
  x ∈ cm_revisions.get_all_revisions hpn revisions <->
  r_hpn x = hpn /\ revisions !! rev x = Some (started x, ended x).
Proof.
  unfold cm_revisions.get_all_revisions. rewrite list_elem_of_omap. split.
  - intros (r & _ & Hx). destruct (revisions !! r) as [[s e]|] eqn:Hr;
      [|discriminate]. injection Hx as <-. simpl. auto.
  - intros [Hhpn Hx]. exists (rev x). split.
    + apply sorted_keys_elem. eexists. exact Hx.
    + rewrite Hx. simpl. destruct x. simpl in *. subst. reflexivity.
Qed.
End RevisionFacts.

(** X14.  [get_all_revisions] lists every revision of the part exactly
    once, in increasing order of the revision identifier, with the dates the
    table holds for it. *)
Theorem get_all_revisions_sorted (hpn : string)
  (revisions : gmap string (Z * option Z)) :
  StronglySorted String.le
    (rev <$> cm_revisions.get_all_revisions hpn revisions) /\
  NoDup (rev <$> cm_revisions.get_all_revisions hpn revisions) /\
  length (cm_revisions.get_all_revisions hpn revisions) = size revisions /\
  forall x,
    x ∈ cm_revisions.get_all_revisions hpn revisions <->
    r_hpn x = hpn /\ revisions !! rev x = Some (started x, ended x).
Proof.
  rewrite get_all_revisions_revs. split; [|split; [|split]].
  - unfold cm_revisions.sorted_keys. apply StronglySorted_merge_sort; apply _.
  - unfold cm_revisions.sorted_keys. rewrite merge_sort_Permutation.
    apply NoDup_fst_map_to_list.
  - rewrite <- (length_fmap rev), get_all_revisions_revs.
    unfold cm_revisions.sorted_keys.
    rewrite merge_sort_Permutation, length_fmap. apply length_map_to_list.
  - apply get_all_revisions_elem_iff.
Qed.

(** X15.  [get_particular_revision] returns at most one revision, and it
    returns exactly the revisions of [get_all_revisions] whose identifier is
    the one asked for. *)
Theorem get_particular_revision_spec (hpn rq : string)
  (revisions : gmap string (Z * option Z)) :
  (length (cm_revisions.get_particular_revision hpn rq revisions) <= 1)%nat /\
  forall x,
    x ∈ cm_revisions.get_particular_revision hpn rq revisions <->
    x ∈ cm_revisions.get_all_revisions hpn revisions /\ rev x = rq.
Proof.
  unfold cm_revisions.get_particular_revision. split.
  - destruct (revisions !! rq) as [[s e]|]; simpl; lia.
  - intros x. rewrite get_all_revisions_elem_iff.
    destruct (revisions !! rq) as [[s e]|] eqn:Hrq.
    + rewrite list_elem_of_singleton. split.
      * intros ->. simpl. auto.
      * intros [[Hhpn Hx] Hrev]. destruct x as [h r s' e']. simpl in *.
        subst. rewrite Hrq in Hx. injection Hx as -> ->. reflexivity.
    + split; [intros H; inversion H|].
      intros [[_ Hx] Hrev]. subst. congruence.
Qed.

(** X16.  When [get_active_revision] returns, it returns at most one
    revision, and that revision is a revision of the part, with the dates of
    the table, that is active at the as-of date. *)
Theorem get_active_revision_returns
  (is_active : Z -> Z -> option Z -> bool) (hpn : string) (at_date : Z)
  (revisions : gmap string (Z * option Z)) (l : list Revision) :
  cm_revisions.get_active_revision is_active hpn at_date revisions = Ok l ->
  (length l <= 1)%nat /\
  forall x, x ∈ l ->
    r_hpn x = hpn /\
    revisions !! rev x = Some (started x, ended x) /\
    is_active at_date (started x) (ended x) = true.
Proof.
  unfold cm_revisions.get_active_revision.
  destruct (Nat.ltb_spec 1
              (length (cm_revisions.active_revisions is_active hpn at_date
                         revisions))) as [Hmany | Hfew]; [discriminate|].
  intros [= <-]. split; [exact Hfew|].
  intros x Hx. unfold cm_revisions.active_revisions in Hx.
  apply list_elem_of_In, filter_In in Hx as [Hin Hact].
  apply list_elem_of_In, get_all_revisions_elem_iff in Hin as [Hhpn Hrev].
  auto.
Qed.

Lemma get_active_revision_returns_witness :
  (length [mkRevision "P" "B" 200%Z (Some 300%Z)] <= 1)%nat /\
  forall x, x ∈ [mkRevision "P" "B" 200 (Some 300)] ->
    r_hpn x = "P" /\
    three_revisions !! rev x = Some (started x, ended x) /\
    is_active_spec 250 (started x) (ended x) = true.
Proof.
  apply (get_active_revision_returns is_active_spec "P" 250 three_revisions).
  vm_compute. reflexivity.
Defined.

Section LastRevision.
Variables far_past far_future : Z.
Variable hpn : string.
Variable revisions : gmap string (Z * option Z).

Let step := cm_revisions.last_step far_future hpn revisions.

Lemma last_step_no_end (l : list string) :
  forall acc,
    (foldl step acc l).1.2 = acc.1.2 ++ omap (open_revision hpn revisions) l.
Proof.
  induction l as [|r rest IH]; intros [[le ne] lr].
  - simpl. rewrite app_nil_r. reflexivity.
  - cbn [foldl]. rewrite IH. cbn [omap list_omap].
    unfold step, cm_revisions.last_step, open_revision.
    destruct (revisions !! r) as [[s [t|]]|]; simpl.
    + destruct (t >? le); reflexivity.
    + rewrite <- app_assoc. reflexivity.
    + reflexivity.
Qed.

Lemma last_step_closed (l : list string) :
  (forall r, r ∈ l -> exists s t, revisions !! r = Some (s, Some t)) ->
  forall le0 ne0 lr0,
    exists le lr,
      foldl step (le0, ne0, lr0) l = (le, ne0, lr) /\
      le0 <= le /\
      (forall r s t, r ∈ l -> revisions !! r = Some (s, Some t) -> t <= le) /\
      ((le = le0 /\ lr = lr0) \/
       (exists r s, lr = Some r /\ revisions !! r = Some (s, Some le) /\
                    le0 < le)).
Proof.
  induction l as [|r rest IH]; intros Hclosed le0 ne0 lr0.
  - exists le0, lr0. split; [reflexivity|]. split; [lia|].
    split; [intros r s t Hr; inversion Hr | left; auto].
  - destruct (Hclosed r (list_elem_of_here _ _)) as (s & t & Hr).
    assert (Hrest : forall r', r' ∈ rest ->
                      exists s' t', revisions !! r' = Some (s', Some t')).
    { intros r' Hr'. apply Hclosed, list_elem_of_further, Hr'. }
    cbn [foldl]. unfold step at 2, cm_revisions.last_step. rewrite Hr.
    destruct (Z.gtb_spec t le0) as [Hgt | Hle].
    + destruct (IH Hrest t ne0 (Some r)) as (le & lr & Hfold & Hmono & Hub & Hsrc).
      exists le, lr. split; [exact Hfold|]. split; [lia|]. split.
      * intros r' s' t' Hr' Hlook.
        apply elem_of_cons in Hr' as [-> | Hr']; [|eapply Hub; eassumption].
        assert (t' = t) by congruence. lia.
      * right. destruct Hsrc as [[-> ->] | (r' & s' & -> & Hlook & Hlt)].
        -- exists r, s. auto.
        -- exists r', s'. split; [reflexivity|]. split; [exact Hlook | lia].
    + destruct (IH Hrest le0 ne0 lr0) as (le & lr & Hfold & Hmono & Hub & Hsrc).
      exists le, lr. split; [exact Hfold|]. split; [exact Hmono|]. split.
      * intros r' s' t' Hr' Hlook.
        apply elem_of_cons in Hr' as [-> | Hr']; [|eapply Hub; eassumption].
        assert (t' = t) by congruence. lia.
      * exact Hsrc.
Qed.

Lemma keys_elem (r : string) :
  r ∈ (fst <$> map_to_list revisions) <-> is_Some (revisions !! r).
Proof.
  rewrite list_elem_of_fmap. split.
  - intros ([k v] & -> & Hin). apply elem_of_map_to_list in Hin.
    exists v. exact Hin.
  - intros [v Hv]. exists (r, v). split; [reflexivity|].
    apply elem_of_map_to_list, Hv.
Qed.

Lemma open_revisions_elem (x : Revision) :
  x ∈ omap (open_revision hpn revisions) (fst <$> map_to_list revisions) <->
  r_hpn x = hpn /\ ended x = None /\
  revisions !! rev x = Some (started x, None).
Proof.
  rewrite list_elem_of_omap. unfold open_revision. split.
  - intros (r & _ & Hx).
    destruct (revisions !! r) as [[s [t|]]|] eqn:Hr; try discriminate.
    injection Hx as <-. simpl. auto.
  - intros (Hhpn & Hend & Hx). exists (rev x). split.
    + apply keys_elem. eexists. exact Hx.
    + rewrite Hx. destruct x as [h r s e]. simpl in *. subst. reflexivity.
Qed.

Lemma get_last_revision_open_ok :
  (exists r s, revisions !! r = Some (s, None)) ->
  exists l w,
    cm_revisions.get_last_revision far_past far_future hpn revisions
    = Ok (l, w) /\
    l <> [] /\
    (forall x, x ∈ l <->
       r_hpn x = hpn /\ ended x = None /\
       revisions !! rev x = Some (started x, None)) /\
    (w = [] <-> length l = 1%nat).
Proof.
  intros (r & s & Hr).
  unfold cm_revisions.get_last_revision.
  set (keys := fst <$> map_to_list revisions).
  assert (Hkey : r ∈ keys) by (apply keys_elem; eexists; exact Hr).
  pose proof (last_step_no_end keys (far_past, [], None)) as Hne.
  fold step. simpl in Hne.
  destruct (foldl step (far_past, [], None) keys) as [[le ne] lr].
  simpl in Hne. subst ne.
  assert (Hin : mkRevision hpn r s None
                  ∈ omap (open_revision hpn revisions) keys).
  { apply open_revisions_elem. simpl. auto. }
  destruct keys as [|k0 keys'] eqn:Hkeys; [inversion Hkey|].
  rewrite <- Hkeys in *.
  destruct (omap (open_revision hpn revisions) keys) as [|x0 [|x1 rest]] eqn:Hopen.
  - inversion Hin.
  - simpl. eexists _, _. split; [reflexivity|]. split; [discriminate|].
    split; [|split; reflexivity].
    intros x. rewrite <- Hopen. apply open_revisions_elem.
  - simpl. eexists _, _. split; [reflexivity|]. split; [discriminate|].
    split; [|split; [discriminate | simpl; lia]].
    intros x. rewrite <- Hopen. apply open_revisions_elem.
Qed.

Lemma get_last_revision_closed_ok :
  revisions <> ∅ ->
  (forall r s e, revisions !! r = Some (s, e) ->
     exists t, e = Some t /\ far_past < t) ->
  exists x t,
    cm_revisions.get_last_revision far_past far_future hpn revisions
    = Ok ([x], []) /\
    r_hpn x = hpn /\ ended x = Some t /\
    revisions !! rev x = Some (started x, Some t) /\
    forall r s t', revisions !! r = Some (s, Some t') -> t' <= t.
Proof.
  intros Hnonempty Hclosed.
  unfold cm_revisions.get_last_revision.
  set (keys := fst <$> map_to_list revisions).
  assert (Hall : forall r, r ∈ keys ->
                   exists s t, revisions !! r = Some (s, Some t)).
  { intros r Hr. apply keys_elem in Hr as [[s e] Hr].
    destruct (Hclosed r s e Hr) as (t & -> & _). eauto. }
  destruct (last_step_closed keys Hall far_past [] None)
    as (le & lr & Hfold & Hmono & Hub & Hsrc).
  fold step. rewrite Hfold.
  destruct (map_choose revisions Hnonempty) as (r0 & [s0 e0] & Hr0).
  destruct (Hclosed r0 s0 e0 Hr0) as (t0 & -> & Hlt0).
  assert (Hkey0 : r0 ∈ keys) by (apply keys_elem; eexists; exact Hr0).
  destruct keys as [|k0 keys'] eqn:Hkeys; [inversion Hkey0|].
  rewrite <- Hkeys in *. simpl.
  destruct Hsrc as [[-> ->] | (r & s & -> & Hr & Hlt)].
  - specialize (Hub r0 s0 t0 Hkey0 Hr0). lia.
  - rewrite Hr. exists (mkRevision hpn r s (Some le)), le.
    split; [reflexivity|]. simpl. repeat split; try reflexivity; [exact Hr|].
    intros r' s' t' Hr'. eapply Hub; [|exact Hr'].
    apply keys_elem. eexists. exact Hr'.
Qed.
End LastRevision.

(** X17.  When a part has open revisions (no end date), [get_last_revision]
    returns exactly its open revisions, and it issues a warning exactly
    when there is more than one. *)
Theorem get_last_revision_open (far_past far_future : Z) (hpn : string)
  (revisions : gmap string (Z * option Z)) :
  (exists r s, revisions !! r = Some (s, None)) ->
  exists l w,
    cm_revisions.get_last_revision far_past far_future hpn revisions
    = Ok (l, w) /\
    l <> [] /\
    (forall x, x ∈ l <->
       r_hpn x = hpn /\ ended x = None /\
       revisions !! rev x = Some (started x, None)) /\
    (w = [] <-> length l = 1%nat).
Proof. apply get_last_revision_open_ok. Qed.

Lemma get_last_revision_open_witness :
  exists l w,
    cm_revisions.get_last_revision (-1) 1000000 "P" three_revisions
    = Ok (l, w) /\
    l <> [] /\
    (forall x, x ∈ l <->
       r_hpn x = "P" /\ ended x = None /\
       three_revisions !! rev x = Some (started x, None)) /\
    (w = [] <-> length l = 1%nat).
Proof.
  apply (get_last_revision_open (-1) 1000000 "P" three_revisions).
  exists "C", 300. reflexivity.
Defined.

(** X18.  When a part has revisions and all of them have ended (after the
    far-past date), [get_last_revision] returns a single revision, without a
    warning: one with the latest end date of all. *)
Theorem get_last_revision_closed (far_past far_future : Z) (hpn : string)
  (revisions : gmap string (Z * option Z)) :
  revisions <> ∅ ->
  (forall r s e, revisions !! r = Some (s, e) ->
     exists t, e = Some t /\ far_past < t) ->
  exists x t,
    cm_revisions.get_last_revision far_past far_future hpn revisions
    = Ok ([x], []) /\
    r_hpn x = hpn /\ ended x = Some t /\
    revisions !! rev x = Some (started x, Some t) /\
    forall r s t', revisions !! r = Some (s, Some t') -> t' <= t.
Proof. apply get_last_revision_closed_ok. Qed.

Lemma get_last_revision_closed_witness :
  exists x t,
    cm_revisions.get_last_revision (-1) 1000000 "P" closed_revisions
    = Ok ([x], []) /\
    r_hpn x = "P" /\ ended x = Some t /\
    closed_revisions !! rev x = Some (started x, Some t) /\
    forall r s t', closed_revisions !! r = Some (s, Some t') -> t' <= t.
Proof.
  apply (get_last_revision_closed (-1) 1000000 "P" closed_revisions).
  - intros Hempty.
    assert (Hb : closed_revisions !! "B" = None)
      by (rewrite Hempty; apply lookup_empty).
    discriminate Hb.
  - intros r s e Hr. unfold closed_revisions in Hr.
    apply lookup_insert_Some in Hr as [[_ [= <- <-]] | [_ Hr]].
    + exists 300. split; [reflexivity | lia].
    + apply lookup_singleton_Some in Hr as [_ [= <- <-]].
      exists 200. split; [reflexivity | lia].
Defined.

(** ** Health checks *)

(** X19.  [check_for_overlap] does not depend on the order of its two
    intervals, and it holds exactly when each interval ends after the other
    one starts, an interval with a null high end never ending. *)
Theorem check_for_overlap_iff (l0 l1 : Z) (h0 h1 : option Z) :
  cm_health.check_for_overlap (l0, h0) (l1, h1)
  = cm_health.check_for_overlap (l1, h1) (l0, h0) /\
  (cm_health.check_for_overlap (l0, h0) (l1, h1) = true <->
   (match h0 with None => True | Some t => l1 < t end) /\
   (match h1 with None => True | Some t => l0 < t end)).
Proof.
  split; [|apply check_for_overlap_spec].
  apply eq_true_iff_eq. rewrite !check_for_overlap_spec. tauto.
Qed.

Lemma pairs_below_elem (rest : list Revision) :
  forall (earlier : list Revision) (x y : Revision),
    (x, y) ∈ cm_health.pairs_below earlier rest <->
    exists i, rest !! i = Some x /\
              (y ∈ earlier \/ exists j, (j < i)%nat /\ rest !! j = Some y).
Proof.
  induction rest as [|r rest' IH]; intros earlier x y.
  - simpl. split; [intros H; inversion H | intros (i & Hi & _); discriminate].
  - cbn [cm_health.pairs_below]. rewrite elem_of_app, IH, list_elem_of_fmap.
    split.
    + intros [(y' & [= -> ->] & Hy) | (i & Hi & Hy)].
      * exists 0%nat. split; [reflexivity | left; exact Hy].
      * exists (S i). split; [exact Hi|].
        destruct Hy as [Hy | (j & Hj & Hy)].
        -- apply elem_of_app in Hy as [Hy | Hy]; [left; exact Hy|].
           apply list_elem_of_singleton in Hy as ->.
           right. exists 0%nat. split; [lia | reflexivity].
        -- right. exists (S j). split; [lia | exact Hy].
    + intros (i & Hi & Hy). destruct i as [|i].
      * injection Hi as ->. left. exists y. split; [reflexivity|].
        destruct Hy as [Hy | (j & Hj & _)]; [exact Hy | lia].
      * right. exists i. split; [exact Hi|].
        destruct Hy as [Hy | (j & Hj & Hy)].
        -- left. apply elem_of_app. left. exact Hy.
        -- destruct j as [|j].
           ++ injection Hy as ->. left. apply elem_of_app. right.
              apply list_elem_of_here.
           ++ right. exists j. split; [lia | exact Hy].
Qed.

(** X20.  [cm_health.check_part_for_overlapping_revisions] reports the pair
    ([revisions[i]], [revisions[j]]) exactly for the positions [j < i] whose
    windows overlap: each window, closed by [get_stopdate], ends after the
    other one starts (a null end never ending).  It issues one warning per
    pair reported. *)
Theorem health_overlapping_revisions_spec
  (get_stopdate : option Z -> option Z) (hpn : string)
  (revisions : list Revision) :
  let result :=
    cm_health.check_part_for_overlapping_revisions get_stopdate hpn
      revisions in
  length result.2 = length result.1 /\
  forall x y,
    (x, y) ∈ result.1 <->
    (exists i j, (j < i)%nat /\ revisions !! i = Some x /\
                 revisions !! j = Some y) /\
    (match get_stopdate (ended x) with
     | None => True | Some t => started y < t end) /\
    (match get_stopdate (ended y) with
     | None => True | Some t => started x < t end).
Proof.
  unfold cm_health.check_part_for_overlapping_revisions. simpl. split.
  - apply length_fmap.
  - intros x y. rewrite list_elem_of_In, filter_In, <- list_elem_of_In.
    rewrite pairs_below_elem. unfold cm_health.overlapping. simpl.
    rewrite check_for_overlap_spec. split.
    + intros [(i & Hi & [Hy | (j & Hj & Hy)]) Hov]; [inversion Hy|].
      split; [|exact Hov]. exists i, j. auto.
    + intros [(i & j & Hj & Hi & Hy) Hov]. split; [|exact Hov].
      exists i. split; [exact Hi|]. right. exists j. auto.
Qed.

Section Ingest.
Import cm_health.

Lemma rows_with_snoc (k : string) (l : list Connection) (c : Connection) :
  rows_with k (l ++ [c])
  = rows_with k l ++ (if String.eqb (connection_key c) k then [c] else []).
Proof.
  unfold rows_with. rewrite List.filter_app. simpl.
  destruct (String.eqb (connection_key c) k); reflexivity.
Qed.

Lemma nonempty_opt_snoc {V : Type} (l : list V) (x : V) :
  nonempty_opt (l ++ [x]) = Some (l ++ [x]).
Proof. destruct l; reflexivity. Qed.

Lemma nonempty_opt_default {V : Type} (l : list V) :
  default [] (nonempty_opt l) = l.
Proof. destruct l; reflexivity. Qed.

Lemma ingest_invariant (session : list Connection) :
  let ing := ingest_conndb session in
  (forall k, conndict ing !! k = nonempty_opt (rows_with k session)) /\
  (forall k, k ∈ multiples ing <-> (2 <= length (rows_with k session))%nat) /\
  num_connections ing = length session.
Proof.
  unfold ingest_conndb.
  induction session as [|c l IH] using rev_ind.
  - simpl. split; [intros k; apply lookup_empty|].
    split; [|reflexivity].
    intros k. unfold rows_with. simpl. split; [intros H; inversion H | lia].
  - rewrite foldl_app. cbn [foldl].
    set (ing := foldl ingest_step (mkIngested ∅ ∅ 0) l) in *.
    cbv zeta in IH. destruct IH as (Hdict & Hmult & Hnum).
    cbv zeta. unfold ingest_step at 1 2 3. cbn [conndict multiples num_connections].
    split; [|split].
    + intros k. rewrite rows_with_snoc.
      destruct (decide (connection_key c = k)) as [<- | Hne].
      * rewrite lookup_insert_eq, String.eqb_refl, Hdict.
        rewrite nonempty_opt_default, nonempty_opt_snoc. reflexivity.
      * rewrite lookup_insert_ne by exact Hne.
        apply String.eqb_neq in Hne. rewrite Hne, app_nil_r. apply Hdict.
    + intros k. rewrite rows_with_snoc.
      destruct (decide (connection_key c = k)) as [<- | Hne].
      * rewrite String.eqb_refl, length_app. simpl. rewrite Hdict.
        specialize (Hmult (connection_key c)).
        destruct (rows_with (connection_key c) l) as [|r rows]; simpl in *.
        -- rewrite Hmult. lia.
        -- rewrite elem_of_union, elem_of_singleton. split; [lia | auto].
      * pose proof Hne as Hne'. apply String.eqb_neq in Hne'.
        rewrite Hne', app_nil_r.
        destruct (conndict ing !! connection_key c).
        -- rewrite elem_of_union, elem_of_singleton, Hmult.
           split; [intros [Heq | H]; [congruence | exact H] | auto].
        -- apply Hmult.
    + rewrite length_app. simpl. lia.
Qed.

Lemma rows_with_elem (k : string) (session : list Connection)
  (c : Connection) :
  c ∈ rows_with k session <-> c ∈ session /\ connection_key c = k.
Proof.
  unfold rows_with. rewrite list_elem_of_In, filter_In, <- list_elem_of_In.
  rewrite String.eqb_eq. reflexivity.
Qed.

Lemma before_cons {V : Type} (x : V) (l : list V) (b a : V) :
  before (x :: l) b a <-> (b = x /\ a ∈ l) \/ before l b a.
Proof.
  unfold before. split.
  - intros (i & j & Hlt & Hj & Hi). destruct i as [|i]; [lia|].
    destruct j as [|j].
    + left. injection Hj as ->. split; [reflexivity|].
      apply list_elem_of_lookup. exists i. exact Hi.
    + right. exists i, j. split; [lia | auto].
  - intros [[-> Ha] | (i & j & Hlt & Hj & Hi)].
    + apply list_elem_of_lookup in Ha as [i Hi].
      exists (S i), 0%nat. split; [lia | auto].
    + exists (S i), (S j). split; [lia | auto].
Qed.

Lemma before_nil {V : Type} (b a : V) : ~ before [] b a.
Proof. intros (i & j & _ & Hj & _). discriminate. Qed.

Lemma before_filter {V : Type} (f : V -> bool) (l : list V) (b a : V) :
  before (List.filter f l) b a <->
  before l b a /\ f b = true /\ f a = true.
Proof.
  induction l as [|x rest IH]; simpl.
  - split; [intros H; destruct (before_nil _ _ H) |].
    intros [H _]. destruct (before_nil _ _ H).
  - destruct (f x) eqn:Hfx.
    + rewrite !before_cons, IH. split.
      * intros [[-> Ha] | (Hb & Hfb & Hfa)].
        -- apply list_elem_of_In, filter_In in Ha as [Ha Hfa].
           apply list_elem_of_In in Ha. auto.
        -- auto.
      * intros [[[-> Ha] | Hb] [Hfb Hfa]].
        -- left. split; [reflexivity|].
           apply list_elem_of_In, filter_In. split; [|exact Hfa].
           apply list_elem_of_In, Ha.
        -- right. auto.
    + rewrite before_cons, IH. split.
      * intros (Hb & Hfb & Hfa). auto.
      * intros [[[-> Ha] | Hb] [Hfb Hfa]]; [congruence | auto].
Qed.

Lemma index_pairs_elem {V : Type} (rest : list V) :
  forall (earlier : list V) (x y : V),
    (x, y) ∈ index_pairs earlier rest <->
    (y ∈ earlier /\ x ∈ rest) \/ before rest y x.
Proof.
  induction rest as [|r rest' IH]; intros earlier x y.
  - simpl. split; [intros H; inversion H|].
    intros [[_ H] | H]; [inversion H | destruct (before_nil _ _ H)].
  - cbn [index_pairs]. rewrite elem_of_app, IH, list_elem_of_fmap, before_cons.
    rewrite elem_of_app, list_elem_of_singleton, elem_of_cons. split.
    + intros [(y' & [= -> ->] & Hy) | [[[Hy | ->] Hx] | Hb]]; auto.
    + intros [[Hy [-> | Hx]] | [[-> Hx] | Hb]]; auto.
      left. exists y. auto.
Qed.

Lemma before_length {V : Type} (l : list V) (b a : V) :
  before l b a -> (2 <= length l)%nat.
Proof.
  intros (i & j & Hlt & _ & Hi). apply lookup_lt_Some in Hi. lia.
Qed.

Lemma duplicates_loop (ing : Ingested) (session : list Connection)
  (ks : list string) :
  (forall k, k ∈ ks -> conndict ing !! k = Some (rows_with k session)) ->
  forall acc,
    for_each
      (fun duplicates k =>
         let* conns := dict_get (conndict ing) k in
         Ok (duplicates ++ List.filter conns_overlap (index_pairs [] conns)))
      ks acc
    = Ok (acc ++ concat
                   ((fun k => List.filter conns_overlap
                                (index_pairs [] (rows_with k session)))
                      <$> ks)).
Proof.
  induction ks as [|k rest IH]; intros Hall acc.
  - simpl. rewrite app_nil_r. reflexivity.
  - cbn [for_each]. unfold dict_get.
    rewrite (Hall k (list_elem_of_here _ _)). cbn [bind].
    rewrite IH.
    + rewrite fmap_cons. cbn [concat]. rewrite app_assoc. reflexivity.
    + intros k' Hk'. apply Hall, list_elem_of_further, Hk'.
Qed.
End Ingest.

(** X21.  After [ingest_conndb], [num_connections] is the number of rows,
    [conndict] holds under every key the rows with that key in table order
    (and only keys that some row has), and [multiples] holds exactly the
    keys that two or more rows share. *)
Theorem ingest_conndb_spec (session : list Connection) :
  let ing := cm_health.ingest_conndb session in
  cm_health.num_connections ing = length session /\
  forall k,
    default [] (cm_health.conndict ing !! k) = rows_with k session /\
    (is_Some (cm_health.conndict ing !! k) <->
     exists c, c ∈ session /\ cm_health.connection_key c = k) /\
    (k ∈ cm_health.multiples ing <->
     (2 <= length (rows_with k session))%nat).
Proof.
  destruct (ingest_invariant session) as (Hdict & Hmult & Hnum).
  cbv zeta. split; [exact Hnum|]. intros k.
  rewrite Hdict. split; [apply nonempty_opt_default|]. split; [|apply Hmult].
  split.
  - intros [rows Hrows].
    destruct (rows_with k session) as [|c rows'] eqn:Hk; [discriminate|].
    exists c. apply rows_with_elem. rewrite Hk. apply list_elem_of_here.
  - intros (c & Hc & Hkey).
    assert (Hin : c ∈ rows_with k session) by (apply rows_with_elem; auto).
    destruct (rows_with k session); [inversion Hin | eexists; reflexivity].
Qed.

(** X22.  [check_for_duplicate_connections] raises nothing, and it reports
    the pair ([a], [b]) exactly when [b] stands before [a] in the table, the
    two rows have the same key (the six identity fields, lowered) and their
    time intervals overlap. *)
Theorem check_for_duplicate_connections_spec (session : list Connection) :
  exists duplicates,
    cm_health.check_for_duplicate_connections session = Ok duplicates /\
    forall a b,
      (a, b) ∈ duplicates <->
      before session b a /\
      cm_health.connection_key a = cm_health.connection_key b /\
      cm_health.check_for_overlap (start_gpstime a, stop_gpstime a)
        (start_gpstime b, stop_gpstime b) = true.
Proof.
  destruct (ingest_invariant session) as (Hdict & Hmult & _).
  cbv zeta in Hdict, Hmult.
  unfold cm_health.check_for_duplicate_connections.
  rewrite (duplicates_loop _ session).
  2:{ intros k Hk. apply elem_of_elements, Hmult in Hk. rewrite Hdict.
      destruct (rows_with k session); [simpl in Hk; lia | reflexivity]. }
  eexists. split; [reflexivity|]. intros a b. cbn [app].
  rewrite list_elem_of_In, in_concat. split.
  - intros (l & Hl & Hab). apply list_elem_of_In in Hl, Hab.
    apply list_elem_of_fmap in Hl as (k & -> & Hk).
    apply list_elem_of_In, filter_In in Hab as [Hab Hov].
    apply list_elem_of_In, index_pairs_elem in Hab
      as [[Hnil _] | Hbefore]; [inversion Hnil|].
    apply before_filter in Hbefore as (Hbefore & Hkb & Hka).
    apply String.eqb_eq in Hkb, Hka.
    split; [exact Hbefore|]. split; [congruence | exact Hov].
  - intros (Hbefore & Hkey & Hov).
    assert (Hrows : before (rows_with (cm_health.connection_key a) session)
                      b a).
    { apply before_filter. split; [exact Hbefore|].
      rewrite !String.eqb_eq. auto. }
    exists (List.filter cm_health.conns_overlap
              (cm_health.index_pairs []
                 (rows_with (cm_health.connection_key a) session))).
    split.
    + apply list_elem_of_In, list_elem_of_fmap.
      exists (cm_health.connection_key a). split; [reflexivity|].
      apply elem_of_elements, Hmult. eapply before_length, Hrows.
    + apply filter_In. split; [|exact Hov].
      apply list_elem_of_In, index_pairs_elem. right. exact Hrows.
Qed.

(** X23.  [check_for_existing_connection] holds exactly when some row of
    the table has the key of the queried connection (fields compared
    without regard to case) and is active at the date asked for. *)
Theorem check_for_existing_connection_iff
  (is_active : Z -> Z -> option Z -> bool) (session : list Connection)
  (connection : list string) (at_date : Z) :
  cm_health.check_for_existing_connection is_active session connection
    at_date = true <->
  exists c,
    c ∈ session /\
    cm_health.connection_key c = cm_health.join_lower connection /\
    is_active at_date (start_gpstime c) (stop_gpstime c) = true.
Proof.
  destruct (ingest_invariant session) as (Hdict & _ & _).
  cbv zeta in Hdict.
  unfold cm_health.check_for_existing_connection. rewrite Hdict.
  set (k := cm_health.join_lower connection).
  assert (Hrows : existsb
            (fun c => is_active at_date (start_gpstime c) (stop_gpstime c))
            (rows_with k session) = true <->
          exists c, c ∈ session /\ cm_health.connection_key c = k /\
            is_active at_date (start_gpstime c) (stop_gpstime c) = true).
  { rewrite existsb_exists. split.
    - intros (c & Hc & Hact). exists c.
      apply list_elem_of_In, rows_with_elem in Hc as [Hc Hk]. auto.
    - intros (c & Hc & Hk & Hact). exists c. split; [|exact Hact].
      apply list_elem_of_In, rows_with_elem. auto. }
  destruct (rows_with k session) as [|c0 rows] eqn:Hk.
  - simpl. rewrite <- Hrows. simpl. reflexivity.
  - exact Hrows.
Qed.

(** ** Choosing the hookup type: [find_hookup_type] and [setup] *)

Lemma find_in_order_first (pd : gmap string (gmap string PartTypeInfo))
  (pt : string) (order : list string) (ht : string) :
  find_in_order pd pt order = Ok (Some ht) ->
  exists pre post defs,
    order = pre ++ ht :: post /\
    pd !! ht = Some defs /\ is_Some (defs !! pt) /\
    forall ht', ht' ∈ pre ->
      exists defs', pd !! ht' = Some defs' /\ defs' !! pt = None.
Proof.
  induction order as [|h rest IH]; simpl; [discriminate|].
  intros H. apply bind_ok in H as (defs & Hdefs & H).
  apply dict_get_ok in Hdefs.
  destruct (defs !! pt) as [info|] eqn:Hpt.
  - injection H as <-. exists [], rest, defs.
    split; [reflexivity|]. split; [exact Hdefs|].
    split; [rewrite Hpt; eexists; reflexivity|].
    intros ht' Hin. inversion Hin.
  - destruct (IH H) as (pre & post & defs' & -> & Hht & Hsome & Hpre).
    exists (h :: pre), post, defs'. split; [reflexivity|].
    split; [exact Hht|]. split; [exact Hsome|].
    intros ht' Hin. apply elem_of_cons in Hin as [-> | Hin].
    + exists defs. auto.
    + apply Hpre, Hin.
Qed.

Lemma find_in_order_none (pd : gmap string (gmap string PartTypeInfo))
  (pt : string) (order : list string) :
  (forall ht, ht ∈ order -> is_Some (pd !! ht)) ->
  (find_in_order pd pt order = Ok None <->
   forall ht defs, ht ∈ order -> pd !! ht = Some defs -> defs !! pt = None) /\
  (exists r, find_in_order pd pt order = Ok r).
Proof.
  induction order as [|h rest IH]; intros Hall.
  - simpl. split; [|eexists; reflexivity].
    split; [intros _ ht defs Hin; inversion Hin | reflexivity].
  - destruct (Hall h (list_elem_of_here _ _)) as [defs Hdefs].
    destruct IH as [IHnone [r IHr]].
    { intros ht Hin. apply Hall, list_elem_of_further, Hin. }
    cbn [find_in_order]. unfold dict_get. rewrite Hdefs. cbn [bind].
    destruct (defs !! pt) as [info|] eqn:Hpt.
    + split; [|eexists; reflexivity]. split; [discriminate|].
      intros Hnone. specialize (Hnone h defs (list_elem_of_here _ _) Hdefs).
      congruence.
    + split; [|exists r; exact IHr]. rewrite IHnone. split.
      * intros Hrest ht defs' Hin Hlook.
        apply elem_of_cons in Hin as [-> | Hin]; [congruence|].
        eapply Hrest; eassumption.
      * intros Hall' ht defs' Hin. apply Hall', list_elem_of_further, Hin.
Qed.

(** X24.  [find_hookup_type] without a hookup type returns the first hookup
    type of the checking order in which the part type is registered, and
    raises [ValueError] exactly when no hookup type of the order registers
    it.  With a hookup type supplied it returns that type whenever it is a
    key of [port_def], without looking at the part type, and raises
    [ValueError] otherwise. *)
Theorem find_hookup_type_spec (pd : gmap string (gmap string PartTypeInfo))
  (order : list string) (pt : string) :
  (forall ht,
     find_hookup_type pd order pt None = Ok ht ->
     exists pre post defs,
       order = pre ++ ht :: post /\
       pd !! ht = Some defs /\ is_Some (defs !! pt) /\
       forall ht', ht' ∈ pre ->
         exists defs', pd !! ht' = Some defs' /\ defs' !! pt = None) /\
  ((forall ht, ht ∈ order -> is_Some (pd !! ht)) ->
   (find_hookup_type pd order pt None = Raise ValueError <->
    forall ht defs, ht ∈ order -> pd !! ht = Some defs ->
                    defs !! pt = None)) /\
  (forall ht,
     find_hookup_type pd order pt (Some ht)
     = if decide (is_Some (pd !! ht)) then Ok ht else Raise ValueError).
Proof.
  split; [|split].
  - intros ht H. unfold find_hookup_type in H.
    apply bind_ok in H as (found & Hfound & H).
    destruct found as [ht'|]; [|discriminate]. injection H as <-.
    apply find_in_order_first, Hfound.
  - intros Hall. unfold find_hookup_type.
    destruct (find_in_order_none pd pt order Hall) as [Hnone [r Hr]].
    rewrite Hr. cbn [bind]. rewrite <- Hnone, Hr.
    destruct r; split; congruence.
  - intros ht. unfold find_hookup_type.
    destruct (pd !! ht) as [defs|] eqn:Hht.
    + destruct (decide (is_Some (Some defs))) as [_ | Hn]; [reflexivity|].
      exfalso. apply Hn. eexists. reflexivity.
    + destruct (decide (is_Some (@None (gmap string PartTypeInfo))))
        as [[x Hx] | _]; [discriminate | reflexivity].
Qed.

(** The part types [snap] and [temp-cable] and a part type that no hookup
    type registers, with the tables of the module. *)
Example find_hookup_type_tables :
  find_hookup_type port_def checking_order "snap" None = Ok "parts_hera" /\
  find_hookup_type port_def checking_order "temp-cable" None
  = Ok "parts_rfi" /\
  find_hookup_type port_def checking_order "f-engine" None
  = Ok "parts_paper" /\
  find_hookup_type port_def checking_order "dish" None = Raise ValueError /\
  find_hookup_type port_def checking_order "dish" (Some "parts_hera")
  = Ok "parts_hera".
Proof. repeat split; vm_compute; reflexivity. Qed.

Lemma pind_update_spec (pols : list string) (pind0 : gmap string nat) :
  forall p, p ∈ pols ->
    exists k,
      pind_update pind0 pols !! lower p = Some k /\
      (lower <$> pols) !! k = Some (lower p).
Proof.
  unfold pind_update.
  assert (Hgen : forall n,
    (foldl (fun acc p => (<[lower p := acc.2]> acc.1, S acc.2)) (pind0, n)
       pols).2 = (n + length pols)%nat /\
    forall p, p ∈ pols ->
      exists i,
        (foldl (fun acc p => (<[lower p := acc.2]> acc.1, S acc.2)) (pind0, n)
           pols).1 !! lower p = Some (n + i)%nat /\
        (lower <$> pols) !! i = Some (lower p)).
  { induction pols as [|x l IH] using rev_ind; intros n.
    - simpl. split; [lia | intros p Hp; inversion Hp].
    - rewrite foldl_app. cbn [foldl].
      destruct (IH n) as [Hcount Hlook]. cbn [fst snd].
      split; [rewrite Hcount, length_app; simpl; lia|].
      intros p Hp. destruct (decide (lower p = lower x)) as [Heq | Hne].
      + exists (length l). rewrite Heq, lookup_insert_eq, Hcount.
        split; [reflexivity|]. rewrite fmap_app.
        rewrite lookup_app_r by (rewrite length_fmap; lia).
        rewrite length_fmap, Nat.sub_diag. reflexivity.
      + apply elem_of_app in Hp as [Hp | Hp].
        * destruct (Hlook p Hp) as (i & Hi & Hpi). exists i.
          rewrite lookup_insert_ne by congruence. split; [exact Hi|].
          rewrite fmap_app. apply lookup_app_l_Some, Hpi.
        * apply list_elem_of_singleton in Hp as ->. congruence. }
  intros p Hp. destruct (Hgen 0%nat) as [_ Hlook].
  destruct (Hlook p Hp) as (i & Hi & Hpi). exists i. auto.
Qed.

(** X25.  A port query that is neither ['all'] nor one of the
    polarizations of the hookup type (all compared in lower case) makes
    [setup] raise [ValueError]; by then the call has already switched
    [this_hookup_type] to the hookup type and rewritten [pind]. *)
Theorem setup_invalid_query (g : Globals)
  (all_pols_table : gmap string (list string)) (order : list string)
  (part : PartDossier) (port_query : string) (hookup_type : option string)
  (ht : string) (pols : list string) :
  resolved_hookup_type g order part hookup_type = Ok ht ->
  all_pols_table !! ht = Some pols ->
  lower port_query ∉ (lower <$> pols) ++ ["all"] ->
  let after := setup g all_pols_table order part port_query hookup_type in
  after.2 = Raise ValueError /\
  this_hookup_type after.1 = Some ht /\
  pind after.1 = pind_update (pind g) pols.
Proof.
  intros Hres Hpols Hbad. unfold setup.
  unfold resolved_hookup_type in Hres. rewrite Hres, Hpols. cbv zeta.
  cbn [fst snd]. rewrite (bool_decide_eq_false_2 _ Hbad). cbn [negb].
  auto.
Qed.

Lemma setup_invalid_query_witness :
  let after :=
    setup globals_at_import all_pols checking_order snap_dossier "x" None in
  after.2 = Raise ValueError /\
  this_hookup_type after.1 = Some "parts_hera" /\
  pind after.1 = pind_update ∅ ["e"; "n"].
Proof.
  apply (setup_invalid_query globals_at_import all_pols checking_order
           snap_dossier "x" None "parts_hera" ["e"; "n"]).
  - vm_compute. reflexivity.
  - vm_compute. reflexivity.
  - vm_compute. intros H.
    repeat (apply elem_of_cons in H as [H | H]; [discriminate|]).
    inversion H.
Defined.

(** X26.  Whenever [setup] gets as far as the polarizations of the hookup
    type, it leaves the tables alone, sets [this_hookup_type], and leaves in
    [pind], for every polarization of the hookup type, a position at which
    the lowered list of polarizations holds that polarization: the lookup
    [pind[current.pol]] of [next_connection] then succeeds for each of
    them. *)
Theorem setup_sets_pind (g : Globals)
  (all_pols_table : gmap string (list string)) (order : list string)
  (part : PartDossier) (port_query : string) (hookup_type : option string)
  (ht : string) (pols : list string) :
  resolved_hookup_type g order part hookup_type = Ok ht ->
  all_pols_table !! ht = Some pols ->
  let g' := (setup g all_pols_table order part port_query hookup_type).1 in
  this_hookup_type g' = Some ht /\
  g_port_def g' = g_port_def g /\
  g_full_connection_path g' = g_full_connection_path g /\
  g_single_pol_labeled_parts g' = g_single_pol_labeled_parts g /\
  forall p, p ∈ pols ->
    exists k, pind g' !! lower p = Some k /\
              (lower <$> pols) !! k = Some (lower p).
Proof.
  intros Hres Hpols. unfold setup.
  unfold resolved_hookup_type in Hres. rewrite Hres, Hpols. cbv zeta.
  cbn [fst this_hookup_type g_port_def g_full_connection_path
       g_single_pol_labeled_parts pind].
  repeat split. apply pind_update_spec.
Qed.

Lemma setup_sets_pind_witness :
  let g' :=
    (setup globals_at_import all_pols checking_order snap_dossier "all"
       None).1 in
  this_hookup_type g' = Some "parts_hera" /\
  g_port_def g' = port_def /\
  g_full_connection_path g' = full_connection_path /\
  g_single_pol_labeled_parts g' = single_pol_labeled_parts /\
  forall p, p ∈ ["e"; "n"] ->
    exists k, pind g' !! lower p = Some k /\
              (lower <$> ["e"; "n"]) !! k = Some (lower p).
Proof.
  apply (setup_sets_pind globals_at_import all_pols checking_order
           snap_dossier "all" None "parts_hera" ["e"; "n"]).
  - vm_compute. reflexivity.
  - vm_compute. reflexivity.
Defined.

(** X27.  For a part whose type is single-pol-labelled in the hookup type,
    [setup] reads the polarization off the last letter of the part name
    (lowered): a valid port query that is ['all'] or that letter gives the
    one-element list of it, any other valid query gives [None]. *)
Theorem setup_single_pol_labeled (g : Globals)
  (all_pols_table : gmap string (list string)) (order : list string)
  (part : PartDossier) (port_query : string) (hookup_type : option string)
  (ht : string) (pols single : list string) :
  resolved_hookup_type g order part hookup_type = Ok ht ->
  all_pols_table !! ht = Some pols ->
  lower port_query ∈ (lower <$> pols) ++ ["all"] ->
  g_single_pol_labeled_parts g !! ht = Some single ->
  part_type (d_part part) ∈ single ->
  hpn (d_part part) <> "" ->
  let en_part_pol := lower (last_char (hpn (d_part part))) in
  (setup g all_pols_table order part port_query hookup_type).2
  = Ok (if String.eqb (lower port_query) "all"
           || String.eqb en_part_pol (lower port_query)
        then PolList [en_part_pol] else NoPols).
Proof.
  intros Hres Hpols Hvalid Hsingle Htype Hhpn. unfold setup.
  unfold resolved_hookup_type in Hres. rewrite Hres, Hpols. cbv zeta.
  cbn [snd g_single_pol_labeled_parts].
  rewrite (bool_decide_eq_true_2 _ Hvalid). cbn [negb].
  unfold dict_get. rewrite Hsingle. cbn [bind].
  rewrite (bool_decide_eq_true_2 _ Htype).
  rewrite (str_last_ok _ Hhpn). cbn [bind].
  destruct (String.eqb (lower port_query) "all"
            || String.eqb (lower (last_char (hpn (d_part part))))
                 (lower port_query)); reflexivity.
Qed.

Lemma setup_single_pol_labeled_witness :
  (setup globals_at_import all_pols checking_order
     (mkPartDossier (mkPart "RI4A1E" "cable-post-amp(in)") ["a"] ["b"])
     "n" (Some "parts_paper")).2 = Ok NoPols /\
  (setup globals_at_import all_pols checking_order
     (mkPartDossier (mkPart "RI4A1E" "cable-post-amp(in)") ["a"] ["b"])
     "all" (Some "parts_paper")).2 = Ok (PolList ["e"]).
Proof.
  split.
  - apply (setup_single_pol_labeled globals_at_import all_pols checking_order
             (mkPartDossier (mkPart "RI4A1E" "cable-post-amp(in)") ["a"] ["b"])
             "n" (Some "parts_paper") "parts_paper" ["e"; "n"]
             ["cable-post-amp(in)"; "cable-post-amp(out)";
              "cable-receiverator"]).
    + reflexivity.
    + vm_compute. reflexivity.
    + vm_compute. apply list_elem_of_further, list_elem_of_here.
    + vm_compute. reflexivity.
    + apply list_elem_of_here.
    + discriminate.
  - apply (setup_single_pol_labeled globals_at_import all_pols checking_order
             (mkPartDossier (mkPart "RI4A1E" "cable-post-amp(in)") ["a"] ["b"])
             "all" (Some "parts_paper") "parts_paper" ["e"; "n"]
             ["cable-post-amp(in)"; "cable-post-amp(out)";
              "cable-receiverator"]).
    + reflexivity.
    + vm_compute. reflexivity.
    + vm_compute. do 2 apply list_elem_of_further. apply list_elem_of_here.
    + vm_compute. reflexivity.
    + apply list_elem_of_here.
    + discriminate.
Defined.

(** ** Errors of the cache check *)

Lemma recompute_hookup_cache_raises (get_hookup : res HookupDict)
  (write : HookupDict -> res unit) (e : exn) :
  recompute_hookup_cache get_hookup write = Raise e <->
  get_hookup = Raise e \/ exists d, get_hookup = Ok d /\ write d = Raise e.
Proof.
  unfold recompute_hookup_cache.
  destruct get_hookup as [d|e']; simpl.
  - destruct (write d) as [[]|e''] eqn:Hw; simpl; split.
    + discriminate.
    + intros [H | (d' & [= <-] & H)]; [discriminate | congruence].
    + intros [= <-]. right. exists d. auto.
    + intros [H | (d' & [= <-] & H)]; [discriminate | congruence].
  - split.
    + intros [= <-]. left. reflexivity.
    + intros [[= <-] | (d' & H & _)]; [reflexivity | discriminate].
Qed.

(** X28.  [__check_hookup_cache_file] raises exactly when [os.stat] fails
    with an error other than "no such file" (the [OSError] is passed on) or,
    with the file found, the query of the versions raises, or the table of
    versions is empty ([IndexError]), or the file is not older than the
    latest marker and opening it or loading the stored as-of date raises.
    Without [force_new], [__set_hookup_cache] raises exactly when the check
    raises, or the entry is stale and [__get_hookup] or the write raises, or
    the entry is fresh, no table is in memory and the read raises; with
    [force_new], exactly when [__get_hookup] or the write raises. *)
Theorem set_hookup_cache_errors {Time : Type} {AT : AstroTime Time}
  (stat : StatResult Time) (cm_versions : res (list Time))
  (load_at_date : res Time) (at_date : Time) (get_hookup : res HookupDict)
  (write : HookupDict -> res unit) (read : res HookupDict)
  (in_memory : option HookupDict) (e : exn) :
  let check :=
    check_hookup_cache_file stat cm_versions load_at_date at_date
      default_contemporaneous_minutes in
  let recompute_raises :=
    get_hookup = Raise e \/ exists d, get_hookup = Ok d /\ write d = Raise e in
  (check = Raise e <->
   (exists errno, stat = StatError errno /\ errno <> 2 /\ e = OSError errno) \/
   (exists mtime,
       stat = StatOk mtime /\
       (cm_versions = Raise e \/
        (cm_versions = Ok [] /\ e = IndexError) \/
        (exists versions marker,
            cm_versions = Ok versions /\ last versions = Some marker /\
            time_lt mtime marker = false /\ load_at_date = Raise e)))) /\
  (set_hookup_cache false stat cm_versions load_at_date at_date get_hookup
     write read in_memory = Raise e <->
   check = Raise e \/
   (check = Ok false /\ recompute_raises) \/
   (check = Ok true /\ in_memory = None /\ read = Raise e)) /\
  (set_hookup_cache true stat cm_versions load_at_date at_date get_hookup
     write read in_memory = Raise e <->
   recompute_raises).
Proof.
  intros check recompute_raises. split; [|split].
  - subst check. destruct stat as [errno | mtime].
    + unfold check_hookup_cache_file.
      destruct (Z.eqb_spec errno 2) as [-> | Hne]; split.
      * discriminate.
      * intros [(errno & [= <-] & Hne & _) | (m & Hstat & _)];
          [contradiction | discriminate].
      * intros [= <-]. left. exists errno. auto.
      * intros [(errno' & [= <-] & _ & ->) | (m & Hstat & _)];
          [reflexivity | discriminate].
    + destruct cm_versions as [versions | e'].
      * destruct (last versions) as [marker|] eqn:Hlast.
        -- rewrite (check_hookup_cache_file_spec mtime at_date marker
                      default_contemporaneous_minutes versions load_at_date
                      Hlast).
           destruct (time_lt mtime marker) eqn:Hold.
           ++ split; [discriminate|].
              intros [(errno & Hstat & _) | (m & [= <-] & H)];
                [discriminate|].
              destruct H as [H | [[[= ->] _] | (vs & mk & [= <-] & Hl & Hlt & _)]];
                [discriminate | discriminate | congruence].
           ++ destruct load_at_date as [cached | e'']; simpl; split.
              ** discriminate.
              ** intros [(errno & Hstat & _) | (m & [= <-] & H)];
                   [discriminate|].
                 destruct H as [H | [[[= ->] _] | (vs & mk & _ & _ & _ & H)]];
                   discriminate.
              ** intros [= <-]. right. exists mtime. split; [reflexivity|].
                 right. right. exists versions, marker. auto.
              ** intros [(errno & Hstat & _) | (m & [= <-] & H)];
                   [discriminate|].
                 destruct H as [H | [[[= ->] _] | (vs & mk & _ & _ & _ & H)]];
                   [discriminate | discriminate | congruence].
        -- apply last_None in Hlast. subst versions.
           unfold check_hookup_cache_file, latest_update_time. simpl. split.
           ++ intros [= <-]. right. exists mtime. split; [reflexivity|].
              right. left. auto.
           ++ intros [(errno & Hstat & _) | (m & [= <-] & H)];
                [discriminate|].
              destruct H as [H | [[_ ->] | (vs & mk & [= <-] & Hl & _)]];
                [discriminate | reflexivity | discriminate].
      * unfold check_hookup_cache_file. simpl. split.
        -- intros [= <-]. right. exists mtime. split; [reflexivity|].
           left. reflexivity.
        -- intros [(errno & Hstat & _) | (m & [= <-] & H)];
             [discriminate|].
           destruct H as [[= <-] | [[H _] | (vs & mk & H & _)]];
             [reflexivity | discriminate | discriminate].
  - rewrite set_hookup_cache_unforced. fold check.
    destruct check as [[|]|e']; simpl.
    + unfold use_hookup_cache. destruct in_memory as [d|].
      * split; [discriminate|].
        intros [H | [[H _] | (_ & H & _)]]; discriminate.
      * destruct read as [d|e'']; simpl; split.
        -- discriminate.
        -- intros [H | [[H _] | (_ & _ & H)]]; discriminate.
        -- intros [= <-]. right. right. auto.
        -- intros [H | [[H _] | (_ & _ & H)]];
             [discriminate | discriminate | congruence].
    + rewrite recompute_hookup_cache_raises. fold recompute_raises. split.
      * intros H. right. left. auto.
      * intros [H | [[_ H] | (H & _)]];
          [discriminate | exact H | discriminate].
    + split.
      * intros [= <-]. left. reflexivity.
      * intros [[= <-] | [[H _] | (H & _)]];
          [reflexivity | discriminate | discriminate].
  - unfold set_hookup_cache. simpl. apply recompute_hookup_cache_raises.
Qed.

